(** * Nano-Banana MCP server: a shallow embedding of [src/index.ts]

    The server is one class, [NanoBananaMCP], with four mutable fields and six
    tools reached through one request handler.  The embedding keeps that shape:
    a record for the fields, a record for the part of the outside world the
    code touches (files, the requests sent to the generation service, the
    clock), a record [Env] for the runtime and the libraries the code calls but
    does not define (Node's [path], [os], [fs] failures, zod's URL check, the
    generation service), and a small state-and-exception monad in which every
    method is written statement by statement. *)

From Stdlib Require Import ZArith Ascii String List Bool Lia.
From stdpp Require Import base option list gmap strings pretty.

Set Default Proof Using "Type".
Set Warnings "-register-all".
Local Open Scope Z_scope.

(** ** Text

    A JavaScript string is modelled by the bytes of its UTF-8 encoding.  Rocq
    string literals have no escapes, so the line feed and the double quote
    that the source writes inside its literals are named here. *)

Module Text.

Definition nl : string := String "010"%char EmptyString.
Definition dq : string := String "034"%char EmptyString.
Definition bsl : string := String "092"%char EmptyString.

(** [Array.prototype.join]. *)
Fixpoint join (sep : string) (l : list string) : string :=
  match l with
  | [] => ""
  | [x] => x
  | x :: rest => x +:+ sep +:+ join sep rest
  end.

(** [s.includes(t)]. *)
Definition includes (s t : string) : Prop :=
  exists pre post, s = pre +:+ t +:+ post.

Definition lower_ascii (c : ascii) : ascii :=
  let n := nat_of_ascii c in
  if ((65 <=? n) && (n <=? 90))%nat then ascii_of_nat (n + 32) else c.

(** [String.prototype.toLowerCase].  Bytes of the ASCII capitals are mapped;
    every other byte is kept.  JavaScript also lowers capitals outside ASCII;
    the only ones that give an ASCII letter are the Kelvin sign (k) and the
    dotted capital I (i and a combining dot), and neither letter occurs in
    the literals of [getMimeType], so its comparisons are the same. *)
Fixpoint toLowerCase (s : string) : string :=
  match s with
  | EmptyString => EmptyString
  | String c s' => String (lower_ascii c) (toLowerCase s')
  end.

(** [s.replace(/[:.]/g, '-')]. *)
Fixpoint replace_colon_dot (s : string) : string :=
  match s with
  | EmptyString => EmptyString
  | String c s' =>
      String (if (Ascii.eqb c ":" || Ascii.eqb c ".")%bool then "-"%char else c)
             (replace_colon_dot s')
  end.

(** [s.substring(2, 8)]. *)
Definition substring_2_8 (s : string) : string := String.substring 2 6 s.

(** [s.startsWith(t)]. *)
Definition startsWith (s t : string) : bool := String.prefix t s.

Definition is_continuation (c : ascii) : bool :=
  let n := nat_of_ascii c in ((128 <=? n) && (n <? 192))%nat.

(** The iteration of [for (const ch of s)]: one string per code point, that
    is one lead byte with the continuation bytes that follow it. *)
Fixpoint code_points_go (cur : string) (s : string) : list string :=
  match s with
  | EmptyString => [cur]
  | String c s' =>
      if is_continuation c then code_points_go (cur +:+ String c "") s'
      else cur :: code_points_go (String c "") s'
  end.

Definition code_points (s : string) : list string :=
  match s with
  | EmptyString => []
  | String c s' => code_points_go (String c "") s'
  end.

End Text.

Import Text.

(** ** JSON values

    Tool arguments arrive as JSON.  [JUndefined] is what reading an absent
    property gives.  [JNum n] stands for the number that the integer literal
    [n] denotes (a double); fractional numbers and object-valued fields are
    outside the embedding. *)

Inductive JSValue : Type :=
  | JUndefined
  | JNull
  | JBool (b : bool)
  | JNum (n : Z)
  | JStr (s : string)
  | JArr (l : list JSValue).

(** The test of [if (v)], [!v] and [v && ...]. *)
Definition truthy (v : JSValue) : bool :=
  match v with
  | JUndefined | JNull => false
  | JBool b => b
  | JNum n => negb (n =? 0)
  | JStr s => negb (String.eqb s "")
  | JArr _ => true
  end.

(** The text a template literal inserts for [${v}].  How a number prints is
    the runtime's [Number.prototype.toString], given as [number_text]: the
    shortest decimal that reads back as the same double, which is not the
    decimal of [n] once [n] is beyond 2^53. *)
Fixpoint to_text (number_text : Z -> string) (v : JSValue) : string :=
  match v with
  | JUndefined => "undefined"
  | JNull => "null"
  | JBool true => "true"
  | JBool false => "false"
  | JNum n => number_text n
  | JStr s => s
  | JArr l =>
      join "," (map (fun x => match x with
                              | JUndefined | JNull => ""
                              | _ => to_text number_text x
                              end) l)
  end.

(** Truthiness of an optional string ([undefined] or [""] are falsy). *)
Definition present (o : option string) : bool :=
  match o with
  | Some s => negb (String.eqb s "")
  | None => false
  end.

(** The [arguments] member of a request: [params.arguments] is optional in
    the protocol, so it may be [undefined]. *)
Definition Arguments_ : Type := option (gmap string JSValue).

(** Reading property [k] of an arguments object that is there. *)
Definition prop (o : gmap string JSValue) (k : string) : JSValue :=
  default JUndefined (o !! k).

(** ** Errors *)

Inductive ErrorCode : Type :=
  | ParseError | InvalidRequest | MethodNotFound | InvalidParams | InternalError.

Definition code_number (c : ErrorCode) : Z :=
  match c with
  | ParseError => -32700
  | InvalidRequest => -32600
  | MethodNotFound => -32601
  | InvalidParams => -32602
  | InternalError => -32603
  end.

(** What a [throw] carries.  [McpError] keeps the code and the [message]
    property of the object.  [JsThrown] is any other thrown value, kept as the
    text that [error instanceof Error ? error.message : String(error)] gives. *)
Inductive JsError : Type :=
  | McpError (code : ErrorCode) (message : string)
  | ZodError (issues : list string)
  | JsThrown (text : string).

(** [new McpError(code, message)]: the SDK's constructor passes
    [`MCP error ${code}: ${message}`] to [Error]. *)
Definition new_McpError (code : ErrorCode) (message : string) : JsError :=
  McpError code ("MCP error " +:+ pretty (code_number code) +:+ ": " +:+ message).


(** ** Data of the server *)

(** [type Config = z.infer<typeof ConfigSchema>]. *)
Record Config : Type := {
  geminiApiKey : string;
  baseUrl : option string;
}.

(** The object built by [new GoogleGenAI({ apiKey, httpOptions: { baseUrl } })],
    kept as the options it was built from. *)
Record GoogleGenAI : Type := {
  apiKey : string;
  httpBaseUrl : option string;
}.

Inductive ConfigSource : Type := environment | config_file | not_configured.

(** The fields of [class NanoBananaMCP] ([server], the SDK object, apart). *)
Record Server : Type := {
  config : option Config;
  genAI : option GoogleGenAI;
  lastImagePath : option string;
  configSource : ConfigSource;
}.

(** The field initialisers of the class. *)
Definition new_server : Server :=
  {| config := None; genAI := None; lastImagePath := None;
     configSource := not_configured |}.

(** *** Requests to and responses of the generation service *)

Inductive RequestPart : Type :=
  | InlinePart (data mimeType : string)
  | TextPart (text : JSValue).

Inductive Contents : Type :=
  | PromptContents (prompt : JSValue)
  | PartContents (parts : list RequestPart).

Record GenRequest : Type := {
  model : string;
  contents : Contents;
}.

Record InlineData : Type := {
  inline_data : option string;
  inline_mimeType : option string;
}.

Record Part : Type := {
  part_text : option string;
  part_inlineData : option InlineData;
}.

Record Content : Type := { parts : option (list Part) }.

Record Candidate : Type := {
  finishReason : option string;
  content : option Content;
}.

Record Response : Type := { candidates : option (list Candidate) }.

Inductive ServiceOutcome : Type :=
  | Respond (r : Response)
  | Reject (text : string).

(** *** Tool results *)

Inductive ContentItem : Type :=
  | TextItem (text : string)
  | ImageItem (data mimeType : string).

Definition CallToolResult : Type := list ContentItem.

Definition is_image (c : ContentItem) : bool :=
  match c with ImageItem _ _ => true | TextItem _ => false end.

(** ** The world outside the process

    [files] are the regular files that can be read, with their bytes;
    [others] are the paths that exist but cannot be read as a file, with the
    size [fs.stat] reports; [requests] is
    the list of calls made to the generation service, oldest first; [clock]
    counts the file names made so far and indexes the clock and the random
    source. *)
Record World : Type := {
  files : gmap string string;
  others : gmap string Z;
  requests : list (GoogleGenAI * GenRequest);
  clock : nat;
}.

(** Errors raised by the runtime or a library rather than by the program. *)
Inductive Fault : Type :=
  | DestructureUndefined
  | NullClient
  | MapNotFunction
  | ReadFailed (path : JSValue)
  | WriteFailed (path : string)
  | MkdirFailed (path : string)
  | AccessFailed (path : string)
  | ExtnameFailed (path : JSValue)
  | ZodMessage (issues : list string).

(** ** The runtime and the libraries

    Everything the program calls and does not define.  The generation service
    may answer according to the client, the requests made before and the
    request.  [iso_time n] and [random36 n] are [new Date().toISOString()] and
    [Math.random().toString(36)] at the [n]-th file name.  [number_text n] is
    [String(n)], the text of a number in a template literal. *)
Record Env : Type := {
  platform : string;
  homedir : string;
  cwd : string;
  env_GEMINI_API_KEY : option string;
  env_GEMINI_BASE_URL : option string;
  path_extname : string -> string;
  path_join : list string -> string;
  valid_url : string -> bool;
  number_text : Z -> string;
  parse_config_file : string -> option Config;
  generateContent :
    GoogleGenAI -> list (GoogleGenAI * GenRequest) -> GenRequest -> ServiceOutcome;
  iso_time : nat -> string;
  random36 : nat -> string;
  base64_encode : string -> string;
  base64_decode : string -> string;
  can_write : string -> bool;
  can_mkdir : string -> bool;
  mtime_text : string -> string;
  fault_text : Fault -> string;
}.

(** ** The monad: state of the server and of the world, and exceptions

    A thrown error keeps the state reached so far, as in JavaScript. *)

Inductive Outcome (A : Type) : Type :=
  | Ok (a : A)
  | Throw (e : JsError).
Arguments Ok {A} a.
Arguments Throw {A} e.

Definition Sys : Type := Server * World.

Definition M (A : Type) : Type := Sys -> Outcome A * Sys.

Definition ret {A} (a : A) : M A := fun s => (Ok a, s).

Definition bind {A B} (m : M A) (k : A -> M B) : M B :=
  fun s => match m s with
           | (Ok a, s') => k a s'
           | (Throw e, s') => (Throw e, s')
           end.

Definition throw {A} (e : JsError) : M A := fun s => (Throw e, s).

(** [try { body } catch (error) { handler }]. *)
Definition try_catch {A} (body : M A) (handler : JsError -> M A) : M A :=
  fun s => match body s with
           | (Ok a, s') => (Ok a, s')
           | (Throw e, s') => handler e s'
           end.

Notation "x <- m ;; k" := (bind m (fun x => k))
  (at level 100, m at next level, right associativity).
Notation "m ;;; k" := (bind m (fun _ => k))
  (at level 100, right associativity).

Definition get_server : M Server := fun s => (Ok (fst s), s).
Definition get_world : M World := fun s => (Ok (snd s), s).
Definition put_server (v : Server) : M unit := fun s => (Ok tt, (v, snd s)).
Definition put_world (w : World) : M unit := fun s => (Ok tt, (fst s, w)).

(** A [for (const x of l)] loop whose body updates the local variables [acc]. *)
Fixpoint for_of {X A} (l : list X) (body : X -> A -> M A) (acc : A) : M A :=
  match l with
  | [] => ret acc
  | x :: rest => acc' <- body x acc ;; for_of rest body acc'
  end.

(** ** Primitives of the runtime *)

Definition set_config (v : option Config) (s : Server) : Server :=
  {| config := v; genAI := genAI s; lastImagePath := lastImagePath s;
     configSource := configSource s |}.
Definition set_genAI (v : option GoogleGenAI) (s : Server) : Server :=
  {| config := config s; genAI := v; lastImagePath := lastImagePath s;
     configSource := configSource s |}.
Definition set_lastImagePath (v : option string) (s : Server) : Server :=
  {| config := config s; genAI := genAI s; lastImagePath := v;
     configSource := configSource s |}.
Definition set_configSource (v : ConfigSource) (s : Server) : Server :=
  {| config := config s; genAI := genAI s; lastImagePath := lastImagePath s;
     configSource := v |}.

Definition set_files (v : gmap string string) (w : World) : World :=
  {| files := v; others := others w; requests := requests w; clock := clock w |}.
Definition set_requests (v : list (GoogleGenAI * GenRequest)) (w : World) : World :=
  {| files := files w; others := others w; requests := v; clock := clock w |}.
Definition set_clock (v : nat) (w : World) : World :=
  {| files := files w; others := others w; requests := requests w; clock := v |}.

(** [this.f = v]. *)
Definition assign (f : Server -> Server) : M unit :=
  s <- get_server ;; put_server (f s).

(** The bytes of the regular file at [p], if there is one.  No file has the
    empty path. *)
Definition file_at (w : World) (p : string) : option string :=
  if String.eqb p "" then None else files w !! p.

(** Whether anything exists at [p]. *)
Definition exists_at (w : World) (p : string) : bool :=
  match file_at w p with
  | Some _ => true
  | None => negb (String.eqb p "") && bool_decide (is_Some (others w !! p))
  end.

Section Runtime.

Variable env : Env.

(** [error instanceof Error ? error.message : String(error)]. *)
Definition error_text (e : JsError) : string :=
  match e with
  | McpError _ m => m
  | ZodError issues => fault_text env (ZodMessage issues)
  | JsThrown t => t
  end.

(** [const { ... } = request.params.arguments]: a [TypeError] when the
    request has no [arguments]. *)
Definition destructure (args : Arguments_) : M (gmap string JSValue) :=
  match args with
  | Some o => ret o
  | None => throw (JsThrown (fault_text env DestructureUndefined))
  end.

(** [await fs.readFile(path)]: rejects for a path that is not a string and
    for a path with no readable file. *)
Definition fs_readFile (path : JSValue) : M string :=
  w <- get_world ;;
  match path with
  | JStr p =>
      match file_at w p with
      | Some bytes => ret bytes
      | None => throw (JsThrown (fault_text env (ReadFailed path)))
      end
  | _ => throw (JsThrown (fault_text env (ReadFailed path)))
  end.

(** [await fs.access(path)]. *)
Definition fs_access (path : string) : M unit :=
  w <- get_world ;;
  if exists_at w path then ret tt
  else throw (JsThrown (fault_text env (AccessFailed path))).

(** [await fs.writeFile(path, bytes)]. *)
Definition fs_writeFile (path : string) (bytes : string) : M unit :=
  w <- get_world ;;
  if can_write env path then put_world (set_files (<[path := bytes]> (files w)) w)
  else throw (JsThrown (fault_text env (WriteFailed path))).

(** [await fs.mkdir(dir, { recursive: true, mode: 0o755 })]. *)
Definition fs_mkdir (dir : string) : M unit :=
  if can_mkdir env dir then ret tt
  else throw (JsThrown (fault_text env (MkdirFailed dir))).

(** [(await fs.stat(path)).size], after [fs.access] succeeded. *)
Definition stat_size (w : World) (path : string) : Z :=
  match file_at w path with
  | Some bytes => Z.of_nat (String.length bytes)
  | None => default 0 (others w !! path)
  end.

(** [await this.genAI!.models.generateContent(request)]: the call is recorded,
    then the service answers or rejects. *)
Definition models_generateContent (request : GenRequest) : M Response :=
  s <- get_server ;;
  w <- get_world ;;
  match genAI s with
  | None => throw (JsThrown (fault_text env NullClient))
  | Some client =>
      put_world (set_requests (requests w ++ [(client, request)]) w) ;;;
      match generateContent env client (requests w) request with
      | Respond r => ret r
      | Reject t => throw (JsThrown t)
      end
  end.

(** The file name of a saved image:
    [`${prefix}-${timestamp}-${randomId}.png`] joined to the images
    directory. *)
Definition new_file_path (imagesDir prefix : string) : M string :=
  w <- get_world ;;
  let timestamp := replace_colon_dot (iso_time env (clock w)) in
  let randomId := substring_2_8 (random36 env (clock w)) in
  let fileName := prefix +:+ "-" +:+ timestamp +:+ "-" +:+ randomId +:+ ".png" in
  put_world (set_clock (S (clock w)) w) ;;;
  ret (path_join env [imagesDir; fileName]).

End Runtime.

(** ** [ConfigSchema] and [JSON.stringify] *)

(** The object literal [configData] before it is validated. *)
Record ConfigData : Type := {
  data_geminiApiKey : JSValue;
  data_baseUrl : JSValue;
}.

(** The type name zod prints in "Expected string, received ...". *)
Definition zod_type (v : JSValue) : string :=
  match v with
  | JUndefined => "undefined"
  | JNull => "null"
  | JBool _ => "boolean"
  | JNum _ => "number"
  | JStr _ => "string"
  | JArr _ => "array"
  end.

(** [z.string().min(1, "Gemini API key is required")]. *)
Definition geminiApiKey_issues (v : JSValue) : list string :=
  match v with
  | JUndefined => ["Required"]
  | JStr s => if String.eqb s "" then ["Gemini API key is required"] else []
  | _ => ["Expected string, received " +:+ zod_type v]
  end.

(** [z.string().url("Base URL must be a valid URL").optional()]. *)
Definition baseUrl_issues (env : Env) (v : JSValue) : list string :=
  match v with
  | JUndefined => []
  | JStr s => if valid_url env s then [] else ["Base URL must be a valid URL"]
  | _ => ["Expected string, received " +:+ zod_type v]
  end.

Definition ConfigSchema_issues (env : Env) (d : ConfigData) : list string :=
  geminiApiKey_issues (data_geminiApiKey d) ++ baseUrl_issues env (data_baseUrl d).

(** [ConfigSchema.parse(data)]: the validated object, or a [ZodError] with the
    issues in the order of the schema's keys. *)
Definition ConfigSchema_parse (env : Env) (d : ConfigData) : M Config :=
  match ConfigSchema_issues env d with
  | [] =>
      match data_geminiApiKey d, data_baseUrl d with
      | JStr k, JStr u => ret {| geminiApiKey := k; baseUrl := Some u |}
      | JStr k, _ => ret {| geminiApiKey := k; baseUrl := None |}
      | _, _ => throw (ZodError [])
      end
  | issues => throw (ZodError issues)
  end.

Definition hex_digit (n : nat) : ascii :=
  ascii_of_nat (if (n <? 10)%nat then 48 + n else 87 + n).

(** One character inside a JSON string literal. *)
Definition json_escape (c : ascii) : string :=
  let n := nat_of_ascii c in
  if (n =? 34)%nat then bsl +:+ dq
  else if (n =? 92)%nat then bsl +:+ bsl
  else if (n =? 8)%nat then bsl +:+ "b"
  else if (n =? 12)%nat then bsl +:+ "f"
  else if (n =? 10)%nat then bsl +:+ "n"
  else if (n =? 13)%nat then bsl +:+ "r"
  else if (n =? 9)%nat then bsl +:+ "t"
  else if (n <? 32)%nat then
    bsl +:+ "u00" +:+ String (hex_digit (n / 16)) (String (hex_digit (n mod 16)) "")
  else String c "".

Fixpoint json_escape_all (s : string) : string :=
  match s with
  | EmptyString => ""
  | String c s' => json_escape c +:+ json_escape_all s'
  end.

Definition json_string (s : string) : string := dq +:+ json_escape_all s +:+ dq.

(** [JSON.stringify(this.config, null, 2)]. *)
Definition JSON_stringify_config (c : Config) : string :=
  "{" +:+ nl +:+
  "  " +:+ json_string "geminiApiKey" +:+ ": " +:+ json_string (geminiApiKey c) +:+
  match baseUrl c with
  | Some u => "," +:+ nl +:+ "  " +:+ json_string "baseUrl" +:+ ": " +:+ json_string u
  | None => ""
  end +:+ nl +:+ "}".

(** [new GoogleGenAI({ apiKey, ...(baseUrl && { httpOptions: { baseUrl } }) })]. *)
Definition new_GoogleGenAI (key : string) (url : option string) : GoogleGenAI :=
  {| apiKey := key; httpBaseUrl := if present url then url else None |}.

(** [this.config !== null && this.genAI !== null]. *)
Definition configured (s : Server) : bool :=
  bool_decide (config s <> None) && bool_decide (genAI s <> None).

(** The client for a validated configuration. *)
Definition client_of (c : Config) : GoogleGenAI :=
  new_GoogleGenAI (geminiApiKey c) (baseUrl c).

(** ** Methods of [NanoBananaMCP] *)

Section Methods.

Variable env : Env.

Definition ensureConfigured : M bool :=
  s <- get_server ;;
  ret (configured s).

Definition getMimeType (filePath : string) : string :=
  let ext := toLowerCase (path_extname env filePath) in
  if String.eqb ext ".jpg" then "image/jpeg"
  else if String.eqb ext ".jpeg" then "image/jpeg"
  else if String.eqb ext ".png" then "image/png"
  else if String.eqb ext ".webp" then "image/webp"
  else "image/jpeg".

(** [this.getMimeType(v)] for a value that need not be a string:
    [path.extname] throws on anything else. *)
Definition getMimeType_of (v : JSValue) : M string :=
  match v with
  | JStr p => ret (getMimeType p)
  | _ => throw (JsThrown (fault_text env (ExtnameFailed v)))
  end.

Definition getImagesDirectory : string :=
  if String.eqb (platform env) "win32" then
    path_join env [homedir env; "Documents"; "nano-banana-images"]
  else if startsWith (cwd env) "/usr/" || startsWith (cwd env) "/opt/"
          || startsWith (cwd env) "/var/" then
    path_join env [homedir env; "nano-banana-images"]
  else
    path_join env [cwd env; "generated_imgs"].

Definition configPath : string := path_join env [cwd env; ".nano-banana-config.json"].

Definition saveConfig : M unit :=
  s <- get_server ;;
  match config s with
  | Some c => fs_writeFile env configPath (JSON_stringify_config c)
  | None => ret tt
  end.

Definition loadConfig : M unit :=
  let envApiKey := env_GEMINI_API_KEY env in
  let envBaseUrl := env_GEMINI_BASE_URL env in
  let from_file : M unit :=
    try_catch
      (configData <- fs_readFile env (JStr configPath) ;;
       match parse_config_file env configData with
       | Some c =>
           assign (set_config (Some c)) ;;;
           assign (set_genAI (Some (client_of c))) ;;;
           assign (set_configSource config_file)
       | None => throw (ZodError [])
       end)
      (fun _ => assign (set_configSource not_configured)) in
  match envApiKey with
  | Some key =>
      if present envApiKey then
        try_catch
          (let configData :=
             {| data_geminiApiKey := JStr key;
                data_baseUrl := match envBaseUrl with
                                | Some u => if present envBaseUrl then JStr u else JUndefined
                                | None => JUndefined
                                end |} in
           c <- ConfigSchema_parse env configData ;;
           assign (set_config (Some c)) ;;;
           assign (set_genAI (Some (client_of c))) ;;;
           assign (set_configSource environment))
          (fun _ => from_file)
      else from_file
  | None => from_file
  end.

Definition configured_text : string :=
  "✅ Gemini API token configured successfully! You can now use nano-banana image generation features.".

Definition configureGeminiToken (args : Arguments_) : M CallToolResult :=
  o <- destructure env args ;;
  let apiKey := prop o "apiKey" in
  let baseUrl := prop o "baseUrl" in
  try_catch
    (let configData :=
       {| data_geminiApiKey := apiKey;
          data_baseUrl := if truthy baseUrl then baseUrl else JUndefined |} in
     c <- ConfigSchema_parse env configData ;;
     assign (set_config (Some c)) ;;;
     assign (set_genAI (Some (client_of c))) ;;;
     assign (set_configSource config_file) ;;;
     saveConfig ;;;
     let responseText :=
       if truthy baseUrl
       then configured_text +:+ nl +:+ "🌐 Custom base URL configured: " +:+
            to_text (number_text env) baseUrl
       else configured_text in
     ret [TextItem responseText])
    (fun error =>
       match error with
       | ZodError issues =>
           throw (new_McpError InvalidParams
                    ("Invalid configuration: " +:+
                     match issues with m :: _ => m | [] => "undefined" end))
       | _ => throw error
       end).

Definition not_configured_error : JsError :=
  new_McpError InvalidRequest
    "Gemini API token not configured. Use configure_gemini_token first.".

Definition model_name : string := "gemini-2.5-flash-image-preview".

(** The three checks made on a response before it is processed; the result
    is [response.candidates[0]]. *)
Definition validate_response (response : Response) : M Candidate :=
  match candidates response with
  | None | Some [] =>
      throw (new_McpError InternalError "No candidates in response from Gemini API")
  | Some (candidate :: _) =>
      if negb (present (finishReason candidate)) then
        throw (new_McpError InternalError
                 "Response missing finish reason - generation may have been interrupted")
      else
        let reason := default "" (finishReason candidate) in
        if negb (String.eqb reason "STOP") && negb (String.eqb reason "MAX_TOKENS") then
          throw (new_McpError InternalError
                   ("Generation failed with finish reason: " +:+ reason))
        else ret candidate
  end.

(** The local variables [content], [savedFiles] and [textContent] of the loop
    over the parts of the response. *)
Record Locals : Type := {
  l_content : list ContentItem;
  l_savedFiles : list string;
  l_textContent : string;
}.

Definition no_locals : Locals :=
  {| l_content := []; l_savedFiles := []; l_textContent := "" |}.

Definition add_text (p : Part) (l : Locals) : Locals :=
  if present (part_text p) then
    {| l_content := l_content l; l_savedFiles := l_savedFiles l;
       l_textContent := l_textContent l +:+ default "" (part_text p) |}
  else l.

Definition push_saved (filePath : string) (l : Locals) : Locals :=
  {| l_content := l_content l; l_savedFiles := l_savedFiles l ++ [filePath];
     l_textContent := l_textContent l |}.

Definition push_image (d : InlineData) (l : Locals) : Locals :=
  {| l_content :=
       l_content l ++
       [ImageItem (default "" (inline_data d))
                  (if present (inline_mimeType d) then default "" (inline_mimeType d)
                   else "image/png")];
     l_savedFiles := l_savedFiles l;
     l_textContent := l_textContent l |}.

(** [candidate?.content?.parts], or nothing to loop over. *)
Definition parts_of (candidate : Candidate) : list Part :=
  match content candidate with
  | Some c => default [] (parts c)
  | None => []
  end.

(** [savedFiles.map(f => `- ${f}`).join('\n')]. *)
Definition bullet_list (l : list string) : string :=
  join nl (map (fun f => "- " +:+ f) l).

(** One turn of the loop of [generateImage]. *)
Definition generate_part (imagesDir : string) (part : Part) (l : Locals) : M Locals :=
  let l := add_text part l in
  match part_inlineData part with
  | Some d =>
      if present (inline_data d) then
        filePath <- new_file_path env imagesDir "generated" ;;
        let imageBuffer := base64_decode env (default "" (inline_data d)) in
        fs_writeFile env filePath imageBuffer ;;;
        let l := push_saved filePath l in
        assign (set_lastImagePath (Some filePath)) ;;;
        ret (push_image d l)
      else ret l
  | None => ret l
  end.

Definition generate_status (prompt : JSValue) (l : Locals) : string :=
  "🎨 Image generated with nano-banana (Gemini 2.5 Flash Image)!" +:+ nl +:+ nl +:+
  "Prompt: " +:+ dq +:+ to_text (number_text env) prompt +:+ dq +:+
  (if negb (String.eqb (l_textContent l) "")
   then nl +:+ nl +:+ "Description: " +:+ l_textContent l else "") +:+
  (match l_savedFiles l with
   | _ :: _ =>
       nl +:+ nl +:+ "📁 Image saved to:" +:+ nl +:+ bullet_list (l_savedFiles l)
   | [] =>
       nl +:+ nl +:+ "Note: No image was generated. The model may have returned only text." +:+
       nl +:+ nl +:+ "💡 Tip: Try running the command again - sometimes the first call needs to warm up the model."
   end).

(** What [generateImage] does with the response: validation, the loop over
    the parts, the status text, the result. *)
Definition generate_response (prompt : JSValue) (response : Response)
  : M CallToolResult :=
  candidate <- validate_response response ;;
  let imagesDir := getImagesDirectory in
  fs_mkdir env imagesDir ;;;
  l <- for_of (parts_of candidate) (generate_part imagesDir) no_locals ;;
  let statusText := generate_status prompt l in
  ret (TextItem statusText :: l_content l).

Definition generateImage (args : Arguments_) : M CallToolResult :=
  configured <- ensureConfigured ;;
  if negb configured then throw not_configured_error else
  o <- destructure env args ;;
  let prompt := prop o "prompt" in
  try_catch
    (response <- models_generateContent env
                   {| model := model_name; contents := PromptContents prompt |} ;;
     generate_response prompt response)
    (fun error =>
       throw (new_McpError InternalError
                ("Failed to generate image: " +:+ error_text env error))).

(** [referenceImages && referenceImages.length > 0]. *)
Definition has_items (v : JSValue) : bool :=
  truthy v &&
  match v with
  | JArr l => negb (bool_decide (l = []))
  | JStr s => negb (String.eqb s "")
  | _ => false
  end.

(** What [for (const refPath of referenceImages)] goes through. *)
Definition items (v : JSValue) : list JSValue :=
  match v with
  | JArr l => l
  | JStr s => map JStr (code_points s)
  | _ => []
  end.

(** One turn of the loop over the reference images; a failure is caught and
    the loop continues. *)
Definition add_reference (refPath : JSValue) (imageParts : list RequestPart)
  : M (list RequestPart) :=
  try_catch
    (refBuffer <- fs_readFile env refPath ;;
     refMimeType <- getMimeType_of refPath ;;
     let refBase64 := base64_encode env refBuffer in
     ret (imageParts ++ [InlinePart refBase64 refMimeType]))
    (fun _ => ret imageParts).

(** One turn of the loop of [editImage]. *)
Definition edit_part (imagesDir : string) (part : Part) (l : Locals) : M Locals :=
  let l := add_text part l in
  match part_inlineData part with
  | Some d =>
      filePath <- new_file_path env imagesDir "edited" ;;
      l <- (if present (inline_data d) then
              let imageBuffer := base64_decode env (default "" (inline_data d)) in
              fs_writeFile env filePath imageBuffer ;;;
              let l := push_saved filePath l in
              assign (set_lastImagePath (Some filePath)) ;;;
              ret l
            else ret l) ;;
      if present (inline_data d) then ret (push_image d l) else ret l
  | None => ret l
  end.

(** [referenceImages.map(f => `- ${f}`).join('\n')]: only an array has
    [map]. *)
Definition reference_list (referenceImages : JSValue) : M string :=
  match referenceImages with
  | JArr l => ret (bullet_list (map (to_text (number_text env)) l))
  | _ => throw (JsThrown (fault_text env MapNotFunction))
  end.

Definition edit_status (imagePath prompt referenceImages : JSValue) (l : Locals)
  : M string :=
  let statusText :=
    "🎨 Image edited with nano-banana!" +:+ nl +:+ nl +:+
    "Original: " +:+ to_text (number_text env) imagePath +:+ nl +:+
    "Edit prompt: " +:+ dq +:+ to_text (number_text env) prompt +:+ dq in
  statusText <-
    (if has_items referenceImages then
       used <- reference_list referenceImages ;;
       ret (statusText +:+ nl +:+ nl +:+ "Reference images used:" +:+ nl +:+ used)
     else ret statusText) ;;
  let statusText :=
    if negb (String.eqb (l_textContent l) "")
    then statusText +:+ nl +:+ nl +:+ "Description: " +:+ l_textContent l
    else statusText in
  ret (statusText +:+
       match l_savedFiles l with
       | _ :: _ =>
           nl +:+ nl +:+ "📁 Edited image saved to:" +:+ nl +:+ bullet_list (l_savedFiles l) +:+
           nl +:+ nl +:+ "💡 View the edited image by:" +:+
           nl +:+ "1. Opening the file at the path above" +:+
           nl +:+ "2. Clicking on " +:+ dq +:+ "Called edit_image" +:+ dq +:+
                  " in Cursor to expand the MCP call details" +:+
           nl +:+ nl +:+ "🔄 To continue editing, use: continue_editing" +:+
           nl +:+ "📋 To check current image info, use: get_last_image_info"
       | [] =>
           nl +:+ nl +:+ "Note: No edited image was generated." +:+
           nl +:+ nl +:+ "💡 Tip: Try running the command again - sometimes the first call needs to warm up the model."
       end).

(** The [parts] sent by [editImage]: the main image, the reference images
    that could be read, the prompt. *)
Definition edit_parts (imagePath prompt referenceImages : JSValue)
  : M (list RequestPart) :=
  imageBuffer <- fs_readFile env imagePath ;;
  mimeType <- getMimeType_of imagePath ;;
  let imageBase64 := base64_encode env imageBuffer in
  let imageParts := [InlinePart imageBase64 mimeType] in
  imageParts <-
    (if has_items referenceImages
     then for_of (items referenceImages) add_reference imageParts
     else ret imageParts) ;;
  ret (imageParts ++ [TextPart prompt]).

(** What [editImage] does with the response: validation, the loop over the
    parts, the status text, the result. *)
Definition edit_response (imagePath prompt referenceImages : JSValue)
    (response : Response) : M CallToolResult :=
  candidate <- validate_response response ;;
  let imagesDir := getImagesDirectory in
  fs_mkdir env imagesDir ;;;
  l <- for_of (parts_of candidate) (edit_part imagesDir) no_locals ;;
  statusText <- edit_status imagePath prompt referenceImages l ;;
  ret (TextItem statusText :: l_content l).

Definition editImage (args : Arguments_) : M CallToolResult :=
  configured <- ensureConfigured ;;
  if negb configured then throw not_configured_error else
  o <- destructure env args ;;
  let imagePath := prop o "imagePath" in
  let prompt := prop o "prompt" in
  let referenceImages := prop o "referenceImages" in
  try_catch
    (imageParts <- edit_parts imagePath prompt referenceImages ;;
     response <- models_generateContent env
                   {| model := model_name; contents := PartContents imageParts |} ;;
     edit_response imagePath prompt referenceImages response)
    (fun error =>
       throw (new_McpError InternalError
                ("Failed to edit image: " +:+ error_text env error))).

Definition continueEditing (args : Arguments_) : M CallToolResult :=
  configured <- ensureConfigured ;;
  if negb configured then throw not_configured_error else
  s <- get_server ;;
  if negb (present (lastImagePath s)) then
    throw (new_McpError InvalidRequest
             "No previous image found. Please generate or edit an image first, then use continue_editing for subsequent edits.")
  else
  let last := default "" (lastImagePath s) in
  o <- destructure env args ;;
  let prompt := prop o "prompt" in
  let referenceImages := prop o "referenceImages" in
  try_catch (fs_access env last)
    (fun _ =>
       throw (new_McpError InvalidRequest
                ("Last image file not found at: " +:+ last +:+
                 ". Please generate a new image first."))) ;;;
  editImage (Some (<["imagePath" := JStr last]>
                   (<["prompt" := prompt]>
                    (<["referenceImages" := referenceImages]> ∅)))).

(** [Math.round(stats.size / 1024)]. *)
Definition round_kb (size : Z) : Z := (size + 512) / 1024.

Definition getLastImageInfo : M CallToolResult :=
  s <- get_server ;;
  if negb (present (lastImagePath s)) then
    ret [TextItem ("📷 No previous image found." +:+ nl +:+ nl +:+
                   "Please generate or edit an image first, then this command will show information about your last image.")]
  else
  let last := default "" (lastImagePath s) in
  try_catch
    (fs_access env last ;;;
     w <- get_world ;;
     ret [TextItem ("📷 Last Image Information:" +:+ nl +:+ nl +:+
                    "Path: " +:+ last +:+ nl +:+
                    "File Size: " +:+ pretty (round_kb (stat_size w last)) +:+ " KB" +:+ nl +:+
                    "Last Modified: " +:+ mtime_text env last +:+ nl +:+ nl +:+
                    "💡 Use continue_editing to make further changes to this image.")])
    (fun _ =>
       ret [TextItem ("📷 Last Image Information:" +:+ nl +:+ nl +:+
                      "Path: " +:+ last +:+ nl +:+
                      "Status: ❌ File not found" +:+ nl +:+ nl +:+
                      "💡 The image file may have been moved or deleted. Please generate a new image.")]).

Definition configuration_help : string :=
  nl +:+ nl +:+
  "📝 Configuration options (in priority order):" +:+ nl +:+
  "1. 🥇 MCP client environment variables (Recommended)" +:+ nl +:+
  "   - GEMINI_API_KEY (required)" +:+ nl +:+
  "   - GEMINI_BASE_URL (optional, for custom endpoints)" +:+ nl +:+
  "2. 🥈 System environment variables: GEMINI_API_KEY and GEMINI_BASE_URL" +:+ nl +:+
  "3. 🥉 Use configure_gemini_token tool" +:+ nl +:+ nl +:+
  "💡 For the most secure setup, add this to your MCP configuration:" +:+ nl +:+
  dq +:+ "env" +:+ dq +:+ ": { " +:+ nl +:+
  "  " +:+ dq +:+ "GEMINI_API_KEY" +:+ dq +:+ ": " +:+ dq +:+ "your-api-key-here" +:+ dq +:+ "," +:+ nl +:+
  "  " +:+ dq +:+ "GEMINI_BASE_URL" +:+ dq +:+ ": " +:+ dq +:+
    "https://custom-endpoint.example.com" +:+ dq +:+ " " +:+ nl +:+
  "}".

Definition getConfigurationStatus : M CallToolResult :=
  s <- get_server ;;
  let isConfigured := configured s in
  let '(statusText, sourceInfo) :=
    if isConfigured then
      let statusText := "✅ Gemini API token is configured and ready to use" in
      let url := match config s with Some c => baseUrl c | None => None end in
      let statusText :=
        if present url
        then statusText +:+ nl +:+ "🌐 Custom base URL: " +:+ default "" url
        else statusText in
      let sourceInfo :=
        match configSource s with
        | environment =>
            nl +:+ "📍 Source: Environment variables (GEMINI_API_KEY" +:+
            (if present (env_GEMINI_BASE_URL env) then " + GEMINI_BASE_URL" else "") +:+
            ")" +:+ nl +:+ "💡 This is the most secure configuration method."
        | config_file =>
            nl +:+ "📍 Source: Local configuration file (.nano-banana-config.json)" +:+
            nl +:+ "💡 Consider using environment variables for better security."
        | not_configured => ""
        end in
      (statusText, sourceInfo)
    else ("❌ Gemini API token is not configured", configuration_help) in
  ret [TextItem (statusText +:+ sourceInfo)].

(** The [switch] of the handler of [CallToolRequestSchema]: [name] and [args]
    are [request.params.name] and [request.params.arguments]. *)
Definition route (name : string) (args : Arguments_) : M CallToolResult :=
  if String.eqb name "configure_gemini_token" then configureGeminiToken args
  else if String.eqb name "generate_image" then generateImage args
  else if String.eqb name "edit_image" then editImage args
  else if String.eqb name "get_configuration_status" then getConfigurationStatus
  else if String.eqb name "continue_editing" then continueEditing args
  else if String.eqb name "get_last_image_info" then getLastImageInfo
  else throw (new_McpError MethodNotFound ("Unknown tool: " +:+ name)).

(** The [catch] of the handler. *)
Definition rethrow (error : JsError) : M CallToolResult :=
  match error with
  | McpError _ _ => throw error
  | _ => throw (new_McpError InternalError
                  ("Tool execution failed: " +:+ error_text env error))
  end.

Definition callTool (name : string) (args : Arguments_) : M CallToolResult :=
  try_catch (route name args) rethrow.

(** [run()]: the configuration is loaded once, before any request. *)
Definition run : M unit := loadConfig.

End Methods.

(** ** The tool list

    The answer of the handler of [ListToolsRequestSchema]: for each tool its
    name, its description and its input schema (the properties with their
    type and description, the required ones, and [additionalProperties] when
    the schema sets it). *)

Inductive SchemaType : Type :=
  | TString
  | TArrayOfString.

Record Property : Type := {
  prop_name : string;
  prop_type : SchemaType;
  prop_description : string;
}.

Record Tool : Type := {
  tool_name : string;
  tool_description : string;
  tool_properties : list Property;
  tool_required : list string;
  tool_additionalProperties : option bool;
}.

Definition listTools : list Tool :=
  [ {| tool_name := "configure_gemini_token";
       tool_description :=
         "Configure your Gemini API token and optional base URL for nano-banana image generation";
       tool_properties :=
         [ {| prop_name := "apiKey"; prop_type := TString;
              prop_description := "Your Gemini API key from Google AI Studio" |};
           {| prop_name := "baseUrl"; prop_type := TString;
              prop_description :=
                "Optional custom base URL for the Gemini API (e.g., for custom endpoints or proxies)" |} ];
       tool_required := ["apiKey"];
       tool_additionalProperties := None |};
    {| tool_name := "generate_image";
       tool_description :=
         "Generate a NEW image from text prompt. Use this ONLY when creating a completely new image, not when modifying an existing one.";
       tool_properties :=
         [ {| prop_name := "prompt"; prop_type := TString;
              prop_description :=
                "Text prompt describing the NEW image to create from scratch" |} ];
       tool_required := ["prompt"];
       tool_additionalProperties := None |};
    {| tool_name := "edit_image";
       tool_description :=
         "Edit a SPECIFIC existing image file, optionally using additional reference images. Use this when you have the exact file path of an image to modify.";
       tool_properties :=
         [ {| prop_name := "imagePath"; prop_type := TString;
              prop_description := "Full file path to the main image file to edit" |};
           {| prop_name := "prompt"; prop_type := TString;
              prop_description :=
                "Text describing the modifications to make to the existing image" |};
           {| prop_name := "referenceImages"; prop_type := TArrayOfString;
              prop_description :=
                "Optional array of file paths to additional reference images to use during editing (e.g., for style transfer, adding elements, etc.)" |} ];
       tool_required := ["imagePath"; "prompt"];
       tool_additionalProperties := None |};
    {| tool_name := "get_configuration_status";
       tool_description := "Check if Gemini API token is configured";
       tool_properties := [];
       tool_required := [];
       tool_additionalProperties := Some false |};
    {| tool_name := "continue_editing";
       tool_description :=
         "Continue editing the LAST image that was generated or edited in this session, optionally using additional reference images. Use this for iterative improvements, modifications, or changes to the most recent image. This automatically uses the previous image without needing a file path.";
       tool_properties :=
         [ {| prop_name := "prompt"; prop_type := TString;
              prop_description :=
                "Text describing the modifications/changes/improvements to make to the last image (e.g., 'change the hat color to red', 'remove the background', 'add flowers')" |};
           {| prop_name := "referenceImages"; prop_type := TArrayOfString;
              prop_description :=
                "Optional array of file paths to additional reference images to use during editing (e.g., for style transfer, adding elements from other images, etc.)" |} ];
       tool_required := ["prompt"];
       tool_additionalProperties := None |};
    {| tool_name := "get_last_image_info";
       tool_description :=
         "Get information about the last generated/edited image in this session (file path, size, etc.). Use this to check what image is currently available for continue_editing.";
       tool_properties := [];
       tool_required := [];
       tool_additionalProperties := Some false |} ].

(** ** Node's [path.extname]

    The library function, written after [lib/path.js]: one loop from the end
    of the path that finds the last dot of the last component.  [win32]
    selects the Windows variant, which also splits at a backslash and steps
    over a drive letter. *)

Module NodePath.

Record Scan : Type := {
  startDot : Z;
  startPart : Z;
  end_ : Z;
  matchedSlash : bool;
  preDotState : Z;
}.

Definition isPathSeparator (win32 : bool) (c : ascii) : bool :=
  Ascii.eqb c "/" || (win32 && Ascii.eqb c "\").

Definition isWindowsDeviceRoot (c : ascii) : bool :=
  let n := nat_of_ascii c in
  ((65 <=? n) && (n <=? 90) || (97 <=? n) && (n <=? 122))%nat.

(** The body of the loop at index [i] on character [code]; [None] is
    [break]. *)
Definition step (win32 : bool) (i : Z) (code : ascii) (s : Scan) : option Scan :=
  if isPathSeparator win32 code then
    if negb (matchedSlash s) then None
    else Some s
  else
    let s :=
      if end_ s =? -1 then
        {| startDot := startDot s; startPart := startPart s; end_ := i + 1;
           matchedSlash := false; preDotState := preDotState s |}
      else s in
    if Ascii.eqb code "." then
      if startDot s =? -1 then
        Some {| startDot := i; startPart := startPart s; end_ := end_ s;
                matchedSlash := matchedSlash s; preDotState := preDotState s |}
      else if negb (preDotState s =? 1) then
        Some {| startDot := startDot s; startPart := startPart s; end_ := end_ s;
                matchedSlash := matchedSlash s; preDotState := 1 |}
      else Some s
    else if negb (startDot s =? -1) then
      Some {| startDot := startDot s; startPart := startPart s; end_ := end_ s;
              matchedSlash := matchedSlash s; preDotState := -1 |}
    else Some s.

(** [for (let i = n - 1; i >= start; --i)]. *)
Fixpoint scan (win32 : bool) (path : string) (start : nat) (n : nat) (s : Scan) : Scan :=
  match n with
  | O => s
  | S i =>
      if (i <? start)%nat then s
      else
        match String.get i path with
        | None => s
        | Some code =>
            match step win32 (Z.of_nat i) code s with
            | None =>
                {| startDot := startDot s; startPart := Z.of_nat i + 1; end_ := end_ s;
                   matchedSlash := matchedSlash s; preDotState := preDotState s |}
            | Some s' => scan win32 path start i s'
            end
        end
  end.

Definition has_drive (path : string) : bool :=
  match path with
  | String c0 (String c1 _) => Ascii.eqb c1 ":" && isWindowsDeviceRoot c0
  | _ => false
  end.

Definition extname (win32 : bool) (path : string) : string :=
  let start := if win32 && has_drive path then 2%nat else 0%nat in
  let s := scan win32 path start (String.length path)
             {| startDot := -1; startPart := Z.of_nat start; end_ := -1;
                matchedSlash := true; preDotState := 0 |} in
  if (startDot s =? -1) || (end_ s =? -1) || (preDotState s =? 0)
     || ((preDotState s =? 1) && (startDot s =? end_ s - 1)
         && (startDot s =? startPart s + 1))
  then ""
  else String.substring (Z.to_nat (startDot s)) (Z.to_nat (end_ s - startDot s)) path.

End NodePath.

(** ** A sample runtime

    A POSIX machine on which every write succeeds, used to run the methods on
    concrete requests.  [path.join] is the plain concatenation with [/] (what
    Node gives for the clean segments used here), base64 is left as the
    identity, and the service is a parameter. *)

Module Sample.

(** The decimal digits of an integer: what [String(n)] prints for the
    integers up to 2^53 in magnitude, the only numbers of the samples. *)
Definition decimal (n : Z) : string := pretty n.

Definition fault (f : Fault) : string :=
  match f with
  | DestructureUndefined => "Cannot destructure property of undefined"
  | NullClient => "Cannot read properties of null"
  | MapNotFunction => "referenceImages.map is not a function"
  | ReadFailed v => "ENOENT: no such file or directory, open '" +:+ to_text decimal v +:+ "'"
  | WriteFailed p => "EACCES: permission denied, open '" +:+ p +:+ "'"
  | MkdirFailed p => "EACCES: permission denied, mkdir '" +:+ p +:+ "'"
  | AccessFailed p => "ENOENT: no such file or directory, access '" +:+ p +:+ "'"
  | ExtnameFailed v => "The path argument must be of type string"
  | ZodMessage issues => join nl issues
  end.

Definition runtime
    (service : GoogleGenAI -> list (GoogleGenAI * GenRequest) -> GenRequest -> ServiceOutcome)
  : Env :=
  {| platform := "linux";
     homedir := "/home/user";
     cwd := "/work";
     env_GEMINI_API_KEY := None;
     env_GEMINI_BASE_URL := None;
     path_extname := NodePath.extname false;
     path_join := join "/";
     valid_url := fun u => String.prefix "http://" u || String.prefix "https://" u;
     number_text := decimal;
     parse_config_file := fun _ => None;
     generateContent := service;
     iso_time := fun _ => "2025-01-02T03:04:05.678Z";
     random36 := fun n => "0.k9x2mq7" +:+ pretty n;
     base64_encode := fun b => b;
     base64_decode := fun b => b;
     can_write := fun _ => true;
     can_mkdir := fun _ => true;
     mtime_text := fun _ => "1/2/2025, 3:04:05 AM";
     fault_text := fault |}.

(** One candidate that stopped normally with a sentence and an image. *)
Definition one_image : Response :=
  {| candidates :=
       Some [{| finishReason := Some "STOP";
                content :=
                  Some {| parts :=
                            Some [{| part_text := Some "A red circle.";
                                     part_inlineData := None |};
                                  {| part_text := None;
                                     part_inlineData :=
                                       Some {| inline_data := Some "aW1n";
                                               inline_mimeType := Some "image/png" |} |}] |} |}] |}.

(** A service that rejects a text-to-image request whose prompt is not a
    string, and answers [one_image] to every other request. *)
Definition service (_ : GoogleGenAI) (_ : list (GoogleGenAI * GenRequest))
    (request : GenRequest) : ServiceOutcome :=
  match contents request with
  | PromptContents (JStr _) | PartContents _ => Respond one_image
  | PromptContents _ => Reject "contents are required"
  end.

(** A service whose only candidate ended for a safety reason. *)
Definition blocked (_ : GoogleGenAI) (_ : list (GoogleGenAI * GenRequest))
    (_ : GenRequest) : ServiceOutcome :=
  Respond {| candidates := Some [{| finishReason := Some "SAFETY"; content := None |}] |}.

Definition env : Env := runtime service.

Definition key_only : Config := {| geminiApiKey := "k-123"; baseUrl := None |}.

(** A configured server that has produced no image yet. *)
Definition ready : Server :=
  {| config := Some key_only; genAI := Some (client_of key_only);
     lastImagePath := None; configSource := config_file |}.

(** A configured server whose last image is [/work/generated_imgs/cat.png]. *)
Definition after_image : Server :=
  set_lastImagePath (Some "/work/generated_imgs/cat.png") ready.

Definition empty_disk : World :=
  {| files := ∅; others := ∅; requests := []; clock := 0 |}.

(** A disk with the last image and one reference picture. *)
Definition disk : World :=
  {| files := <["/work/generated_imgs/cat.png" := "CATBYTES"]>
              (<["/work/ref.JPG" := "REFBYTES"]> ∅);
     others := ∅; requests := []; clock := 0 |}.

(** The sample machine with the two environment variables set, and a parser
    of the configuration file. *)
Definition started_with (key url : option string) (parse : string -> option Config)
  : Env :=
  {| platform := platform env;
     homedir := homedir env;
     cwd := cwd env;
     env_GEMINI_API_KEY := key;
     env_GEMINI_BASE_URL := url;
     path_extname := path_extname env;
     path_join := path_join env;
     valid_url := valid_url env;
     number_text := number_text env;
     parse_config_file := parse;
     generateContent := generateContent env;
     iso_time := iso_time env;
     random36 := random36 env;
     base64_encode := base64_encode env;
     base64_decode := base64_decode env;
     can_write := can_write env;
     can_mkdir := can_mkdir env;
     mtime_text := mtime_text env;
     fault_text := fault_text env |}.

(** The sample machine on which no file can be written. *)
Definition read_only : Env :=
  {| platform := platform env;
     homedir := homedir env;
     cwd := cwd env;
     env_GEMINI_API_KEY := env_GEMINI_API_KEY env;
     env_GEMINI_BASE_URL := env_GEMINI_BASE_URL env;
     path_extname := path_extname env;
     path_join := path_join env;
     valid_url := valid_url env;
     number_text := number_text env;
     parse_config_file := parse_config_file env;
     generateContent := generateContent env;
     iso_time := iso_time env;
     random36 := random36 env;
     base64_encode := base64_encode env;
     base64_decode := base64_decode env;
     can_write := fun _ => false;
     can_mkdir := can_mkdir env;
     mtime_text := mtime_text env;
     fault_text := fault_text env |}.

(** A disk that holds a configuration file. *)
Definition configured_disk : World :=
  {| files := {["/work/.nano-banana-config.json" := "{ saved }"]};
     others := ∅; requests := []; clock := 0 |}.

(** A candidate that stopped normally with two images. *)
Definition two_cats : Candidate :=
  {| finishReason := Some "STOP";
     content :=
       Some {| parts :=
                 Some [{| part_text := None;
                          part_inlineData :=
                            Some {| inline_data := Some "Zmlyc3Q=";
                                    inline_mimeType := Some "image/png" |} |};
                       {| part_text := None;
                          part_inlineData :=
                            Some {| inline_data := Some "c2Vjb25k";
                                    inline_mimeType := None |} |}] |} |}.

Definition two_images : Response := {| candidates := Some [two_cats] |}.


(** The sample machine with another service, other random numbers and
    other permissions. *)
Definition machine
    (service : GoogleGenAI -> list (GoogleGenAI * GenRequest) -> GenRequest -> ServiceOutcome)
    (random : nat -> string) (writable : string -> bool) : Env :=
  {| platform := platform env;
     homedir := homedir env;
     cwd := cwd env;
     env_GEMINI_API_KEY := env_GEMINI_API_KEY env;
     env_GEMINI_BASE_URL := env_GEMINI_BASE_URL env;
     path_extname := path_extname env;
     path_join := path_join env;
     valid_url := valid_url env;
     number_text := number_text env;
     parse_config_file := parse_config_file env;
     generateContent := service;
     iso_time := iso_time env;
     random36 := random;
     base64_encode := base64_encode env;
     base64_decode := base64_decode env;
     can_write := writable;
     can_mkdir := can_mkdir env;
     mtime_text := mtime_text env;
     fault_text := fault_text env |}.

(** A machine whose working directory is read-only but for the images
    directory: the configuration file cannot be written, images can. *)
Definition guarded : Env :=
  machine service (random36 env) (String.prefix "/work/generated_imgs/").

(** A machine that answers [two_images], with file names that differ from
    one image to the next, where every file can be written. *)
Definition gallery : Env :=
  machine (fun _ _ _ => Respond two_images)
    (fun n => "0." +:+ pretty n +:+ "q7x2mk9") (fun _ => true).

End Sample.

(** ** Vocabulary of the properties *)

(** An outcome that is not an [InvalidParams] error. *)
Definition mild {A} (out : Outcome A) : Prop :=
  match out with
  | Throw (McpError c _) => c <> InvalidParams
  | _ => True
  end.

Definition fails_with {A} (c : ErrorCode) (r : Outcome A * Sys) : Prop :=
  exists msg, fst r = Throw (McpError c msg).

(** The object [configData] that [configureGeminiToken] builds from its
    arguments. *)
Definition configData_of (o : gmap string JSValue) : ConfigData :=
  {| data_geminiApiKey := prop o "apiKey";
     data_baseUrl := if truthy (prop o "baseUrl") then prop o "baseUrl" else JUndefined |}.

(** The apiKey test of the schema: a string that is not empty. *)
Definition nonempty_string (v : JSValue) : bool :=
  match v with
  | JStr s => negb (String.eqb s "")
  | _ => false
  end.

(** The configuration stored for accepted data. *)
Definition accepted_config (o : gmap string JSValue) : Config :=
  match prop o "apiKey", data_baseUrl (configData_of o) with
  | JStr k, JStr u => {| geminiApiKey := k; baseUrl := Some u |}
  | JStr k, _ => {| geminiApiKey := k; baseUrl := None |}
  | _, _ => {| geminiApiKey := ""; baseUrl := None |}
  end.

(** The fields of the server after an accepted configuration. *)
Definition reconfigured (c : Config) (s : Server) : Server :=
  set_configSource config_file (set_genAI (Some (client_of c)) (set_config (Some c) s)).

(** The world after [saveConfig] has tried to write the file. *)
Definition saved (env : Env) (c : Config) (w : World) : World :=
  if can_write env (configPath env)
  then set_files (<[configPath env := JSON_stringify_config c]> (files w)) w
  else w.

(** [response.candidates[0]] when there is one. *)
Definition first_candidate (r : Response) : option Candidate :=
  match candidates r with
  | Some (c :: _) => Some c
  | _ => None
  end.

(** The request that [generateImage] sends. *)
Definition generate_request (o : gmap string JSValue) : GenRequest :=
  {| model := model_name; contents := PromptContents (prop o "prompt") |}.

(** The request that [editImage] sends once the parts are built. *)
Definition edit_request (ps : list RequestPart) : GenRequest :=
  {| model := model_name; contents := PartContents ps |}.

(** The call [name] with arguments [o] reaches the generation service, and
    the service answers [r]. *)
Definition receives (env : Env) (name : string) (o : gmap string JSValue)
    (s : Server) (w : World) (r : Response) : Prop :=
  config s <> None /\
  exists client,
    genAI s = Some client /\
    ((name = "generate_image" /\
      generateContent env client (requests w) (generate_request o) = Respond r)
     \/
     (name = "edit_image" /\
      exists ps,
        fst (edit_parts env (prop o "imagePath") (prop o "prompt")
               (prop o "referenceImages") (s, w)) = Ok ps /\
        generateContent env client (requests w) (edit_request ps) = Respond r)).

(** A status text first, then images only. *)
Definition text_then_images (result : CallToolResult) : Prop :=
  exists statusText images,
    result = TextItem statusText :: images /\ forallb is_image images = true.

(** The content collected so far holds images only. *)
Definition only_images (l : Locals) : Prop := forallb is_image (l_content l) = true.

(** The part made from a reference: a path that is a string and has a
    readable file gives a part, anything else gives none. *)
Definition loaded_reference (env : Env) (w : World) (v : JSValue) : option RequestPart :=
  match v with
  | JStr r =>
      match file_at w r with
      | Some bytes => Some (InlinePart (base64_encode env bytes) (getMimeType env r))
      | None => None
      end
  | _ => None
  end.

(** The parts of the references that load, in the order of the list. *)
Definition loaded_references (env : Env) (w : World) (refs : list JSValue)
  : list RequestPart :=
  omap (loaded_reference env w) refs.

(** A computation that leaves the list of requests as it is. *)
Definition keeps_requests {A} (m : M A) : Prop :=
  forall sys, requests (snd (snd (m sys))) = requests (snd sys).

(** The server and the world after a computation are related to those
    before it by [R], whether it returns or throws. *)
Definition after {A} (R : Sys -> Sys -> Prop) (m : M A) : Prop :=
  forall sys, R sys (snd (m sys)).

(** A computation that changes neither the server nor the world. *)
Definition pure {A} (m : M A) : Prop :=
  forall sys, snd (m sys) = sys.

(** The credential, the client and the provenance are the same. *)
Definition same_credential (a b : Sys) : Prop :=
  config (fst b) = config (fst a) /\
  genAI (fst b) = genAI (fst a) /\
  configSource (fst b) = configSource (fst a).

(** The list of requests is the same. *)
Definition same_requests (a b : Sys) : Prop :=
  requests (snd b) = requests (snd a).

(** No file has disappeared. *)
Definition no_file_lost (a b : Sys) : Prop :=
  forall p, is_Some (files (snd a) !! p) -> is_Some (files (snd b) !! p).

(** The remembered path, when there is one, is the path of a file. *)
Definition session_on_disk (sys : Sys) : Prop :=
  forall p, lastImagePath (fst sys) = Some p -> is_Some (files (snd sys) !! p).

Definition keeps_session_on_disk (a b : Sys) : Prop :=
  session_on_disk a -> session_on_disk b.

(** The client is the one built from the stored configuration. *)
Definition coherent (s : Server) : Prop :=
  match config s, genAI s with
  | None, None => True
  | Some c, Some client => client = client_of c
  | _, _ => False
  end.

(** The name of the [n]-th saved file. *)
Definition file_name (env : Env) (prefix : string) (n : nat) : string :=
  prefix +:+ "-" +:+ replace_colon_dot (iso_time env n) +:+ "-" +:+
  substring_2_8 (random36 env n) +:+ ".png".

(** The path of a saved image: a file of the images directory named after
    the operation. *)
Definition image_path (env : Env) (p : string) : Prop :=
  exists prefix n,
    (prefix = "generated" \/ prefix = "edited") /\
    p = path_join env [getImagesDirectory env; file_name env prefix n].

(** Every file whose content differs is at a path that satisfies [allowed]. *)
Definition writes_only (allowed : string -> Prop) (a b : Sys) : Prop :=
  forall p, files (snd b) !! p <> files (snd a) !! p -> allowed p.

(** The image item made from a part of the response, when the part carries
    image data. *)
Definition image_item (p : Part) : option ContentItem :=
  match part_inlineData p with
  | Some d =>
      match inline_data d with
      | Some data =>
          if String.eqb data "" then None
          else Some (ImageItem data
                       (match inline_mimeType d with
                        | Some m => if String.eqb m "" then "image/png" else m
                        | None => "image/png"
                        end))
      | None => None
      end
  | None => None
  end.

Definition image_items (ps : list Part) : list ContentItem := omap image_item ps.

(** The texts of the parts, one after the other. *)
Fixpoint description (ps : list Part) : string :=
  match ps with
  | [] => ""
  | p :: rest => default "" (part_text p) +:+ description rest
  end.

(** The data of an image item. *)
Definition item_data (c : ContentItem) : string :=
  match c with
  | ImageItem data _ => data
  | TextItem _ => ""
  end.

(** An outcome of a method whose [McpError]s carry one of [codes]. *)
Definition throws_within {A} (codes : list ErrorCode) (out : Outcome A) : Prop :=
  match out with
  | Throw (McpError c _) => c ∈ codes
  | _ => True
  end.

(** An outcome of the handler: a result, or an [McpError] with one of
    [codes]. *)
Definition raises_only {A} (codes : list ErrorCode) (out : Outcome A) : Prop :=
  match out with
  | Ok _ => True
  | Throw (McpError c _) => c ∈ codes
  | Throw _ => False
  end.

(** What the environment variables give [loadConfig] to validate, when the
    key is set and not empty. *)
Definition env_data (env : Env) : option ConfigData :=
  match env_GEMINI_API_KEY env with
  | Some key =>
      if String.eqb key "" then None
      else Some {| data_geminiApiKey := JStr key;
                   data_baseUrl :=
                     match env_GEMINI_BASE_URL env with
                     | Some u => if String.eqb u "" then JUndefined else JStr u
                     | None => JUndefined
                     end |}
  | None => None
  end.

(** The server after [loadConfig] took configuration [c] from [source]. *)
Definition loaded (c : Config) (source : ConfigSource) (s : Server) : Server :=
  set_configSource source (set_genAI (Some (client_of c)) (set_config (Some c) s)).

(** At most one request has been added to the list, at its end. *)
Definition at_most_one_request (a b : Sys) : Prop :=
  requests (snd b) = requests (snd a) \/
  exists x, requests (snd b) = requests (snd a) ++ [x].

(** The configuration that [ConfigSchema.parse] returns for accepted data. *)
Definition config_of_data (d : ConfigData) : Config :=
  match data_geminiApiKey d, data_baseUrl d with
  | JStr k, JStr u => {| geminiApiKey := k; baseUrl := Some u |}
  | JStr k, _ => {| geminiApiKey := k; baseUrl := None |}
  | _, _ => {| geminiApiKey := ""; baseUrl := None |}
  end.

(** What the configuration file gives [loadConfig]: the file is there, is
    JSON and passes the schema. *)
Definition file_config (env : Env) (w : World) : option Config :=
  match file_at w (configPath env) with
  | Some text => parse_config_file env text
  | None => None
  end.

(** A response that passes the three checks: a first candidate that ended
    with [STOP] or [MAX_TOKENS]. *)
Definition accepted (r : Response) : Prop :=
  exists c,
    first_candidate r = Some c /\
    (finishReason c = Some "STOP" \/ finishReason c = Some "MAX_TOKENS").

(** The files that the loop of [editImage] writes for the parts [ps] of a
    response, when the clock is at [n]: a name is made for every part with
    [inlineData], and the file is written when the part has data. *)
Fixpoint edit_outputs (env : Env) (n : nat) (ps : list Part) : list string :=
  match ps with
  | [] => []
  | p :: rest =>
      match part_inlineData p with
      | Some d =>
          (if present (inline_data d)
           then [path_join env [getImagesDirectory env; file_name env "edited" n]]
           else [])
          ++ edit_outputs env (S n) rest
      | None => edit_outputs env n rest
      end
  end.

(** The paths of [k] files saved from clock [n] on. *)
Definition saved_paths (env : Env) (prefix : string) (n k : nat) : list string :=
  map (fun i => path_join env [getImagesDirectory env; file_name env prefix i]) (seq n k).

(** The files after the images [items] have been written at [paths]. *)
Fixpoint written (env : Env) (paths : list string) (items : list ContentItem)
    (files : gmap string string) : gmap string string :=
  match paths, items with
  | path :: paths', item :: items' =>
      written env paths' items' (<[path := base64_decode env (item_data item)]> files)
  | _, _ => files
  end.

(** Unfolding of the monad's operations, for proofs that follow a method
    statement by statement. *)
Ltac run_m :=
  repeat (progress (unfold bind, ret, throw, try_catch, get_server, get_world,
                      put_server, put_world, assign; simpl)).

(** * Properties *)

(** ** Text inclusion *)

Lemma includes_here (pre t post : string) : includes (pre +:+ t +:+ post) t.
Proof. by exists pre, post. Qed.

Lemma append_cons (x : ascii) (a b : string) :
  String x a +:+ b = String x (a +:+ b).
Proof. reflexivity. Qed.

Lemma append_assoc (a b c : string) : (a +:+ b) +:+ c = a +:+ (b +:+ c).
Proof. induction a as [|x a IH]; [done|]. by rewrite !append_cons, IH. Qed.

Lemma append_empty_r (a : string) : a +:+ "" = a.
Proof. induction a as [|x a IH]; [done|]. by rewrite append_cons, IH. Qed.

Lemma includes_end (pre t : string) : includes (pre +:+ t) t.
Proof. exists pre, "". by rewrite append_empty_r. Qed.

Lemma includes_prepend (pre s t : string) : includes s t -> includes (pre +:+ s) t.
Proof.
  intros (a & b & ->). exists (pre +:+ a), b. by rewrite append_assoc.
Qed.

Lemma includes_append (s post t : string) : includes s t -> includes (s +:+ post) t.
Proof.
  intros (a & b & ->). exists a, (b +:+ post). by rewrite !append_assoc.
Qed.

(** The text given to [new McpError] is part of the error's message. *)
Lemma new_McpError_includes (code : ErrorCode) (text t : string) :
  includes text t ->
  exists msg, new_McpError code text = McpError code msg /\ includes msg t.
Proof.
  intros H. eexists. split; [reflexivity|].
  by do 3 apply includes_prepend.
Qed.

(** ** Calls without a credential *)

Section Unconfigured.

Variable env : Env.

Lemma unconfigured_false (s : Server) :
  config s = None \/ genAI s = None -> configured s = false.
Proof.
  unfold configured. intros [H|H]; rewrite H.
  - done.
  - by rewrite andb_false_r.
Qed.

Lemma generateImage_unconfigured args s w :
  configured s = false ->
  generateImage env args (s, w) = (Throw not_configured_error, (s, w)).
Proof.
  intros H. unfold generateImage, ensureConfigured, bind, get_server, ret. simpl.
  by rewrite H.
Qed.

Lemma editImage_unconfigured args s w :
  configured s = false ->
  editImage env args (s, w) = (Throw not_configured_error, (s, w)).
Proof.
  intros H. unfold editImage, ensureConfigured, bind, get_server, ret. simpl.
  by rewrite H.
Qed.

Lemma continueEditing_unconfigured args s w :
  configured s = false ->
  continueEditing env args (s, w) = (Throw not_configured_error, (s, w)).
Proof.
  intros H. unfold continueEditing, ensureConfigured, bind, get_server, ret. simpl.
  by rewrite H.
Qed.

End Unconfigured.

(** C4.  A call of [generate_image], [edit_image] or [continue_editing] made
    while the server holds no configuration or no client fails with the
    [InvalidRequest] code and a message saying that the token is not
    configured; the server and the world, hence the list of requests sent to
    the generation service, are exactly as before the call. *)
Theorem unconfigured_call_is_rejected (env : Env) (name : string)
    (args : Arguments_) (s : Server) (w : World) :
  name ∈ ["generate_image"; "edit_image"; "continue_editing"] ->
  config s = None \/ genAI s = None ->
  exists msg,
    callTool env name args (s, w) = (Throw (McpError InvalidRequest msg), (s, w))
    /\ includes msg "not configured".
Proof.
  intros Hname Hcfg. apply unconfigured_false in Hcfg.
  destruct (new_McpError_includes InvalidRequest
              "Gemini API token not configured. Use configure_gemini_token first."
              "not configured") as (msg & Hmsg & Hin).
  { exact (includes_here "Gemini API token " "not configured"
             ". Use configure_gemini_token first."). }
  exists msg. split; [|exact Hin].
  unfold callTool, try_catch.
  rewrite !elem_of_cons in Hname.
  destruct Hname as [->|[->|[->|Hnil]]]; [| | |by apply elem_of_nil in Hnil].
  - change (route env "generate_image" args) with (generateImage env args).
    rewrite generateImage_unconfigured by done.
    unfold not_configured_error. by rewrite Hmsg.
  - change (route env "edit_image" args) with (editImage env args).
    rewrite editImage_unconfigured by done.
    unfold not_configured_error. by rewrite Hmsg.
  - change (route env "continue_editing" args) with (continueEditing env args).
    rewrite continueEditing_unconfigured by done.
    unfold not_configured_error. by rewrite Hmsg.
Qed.

(** On the sample machine, with no key in the environment and no
    configuration file, the server started by [run] rejects a generation. *)
Lemma unconfigured_call_is_rejected_witness :
  exists msg,
    callTool Sample.env "generate_image" (Some {["prompt" := JStr "a red circle"]})
      (snd (run Sample.env (new_server, Sample.empty_disk)))
    = (Throw (McpError InvalidRequest msg),
       snd (run Sample.env (new_server, Sample.empty_disk)))
    /\ includes msg "not configured".
Proof.
  apply (unconfigured_call_is_rejected Sample.env "generate_image"
           (Some {["prompt" := JStr "a red circle"]})
           (fst (snd (run Sample.env (new_server, Sample.empty_disk))))
           (snd (snd (run Sample.env (new_server, Sample.empty_disk))))).
  - constructor.
  - left. reflexivity.
Defined.

(** ** [continue_editing] *)

Section Continue.

Variable env : Env.
(** [editImage] reads three properties of its arguments and nothing else. *)
Lemma editImage_props (o o' : gmap string JSValue) (sys : Sys) :
  prop o' "imagePath" = prop o "imagePath" ->
  prop o' "prompt" = prop o "prompt" ->
  prop o' "referenceImages" = prop o "referenceImages" ->
  editImage env (Some o') sys = editImage env (Some o) sys.
Proof.
  intros H1 H2 H3. unfold editImage, bind.
  destruct (ensureConfigured sys) as [[[|]|e] sys1]; simpl; [|done|done].
  by rewrite H1, H2, H3.
Qed.

(** With a credential, a remembered path and a file at that path,
    [continueEditing] is [editImage] on the arguments it builds. *)
Lemma continueEditing_delegates (o : gmap string JSValue) (s : Server) (w : World)
    (p : string) :
  configured s = true ->
  lastImagePath s = Some p ->
  exists_at w p = true ->
  continueEditing env (Some o) (s, w)
  = editImage env (Some (<["imagePath" := JStr p]>
                         (<["prompt" := prop o "prompt"]>
                          (<["referenceImages" := prop o "referenceImages"]> ∅))))
      (s, w).
Proof.
  intros Hc Hp Hex.
  assert (Hne : String.eqb p "" = false).
  { destruct (String.eqb p "") eqn:E; [|done].
    apply String.eqb_eq in E. subst p. done. }
  unfold continueEditing, bind, ensureConfigured, get_server, ret, try_catch,
    fs_access, get_world. simpl.
  rewrite Hc. simpl. rewrite Hp. simpl. rewrite Hne. run_m. by rewrite Hex.
Qed.

(** Without a remembered path the call stops before it looks at its
    arguments. *)
Lemma continueEditing_no_image (args : Arguments_) (s : Server) (w : World) :
  configured s = true ->
  present (lastImagePath s) = false ->
  continueEditing env args (s, w)
  = (Throw (new_McpError InvalidRequest
       "No previous image found. Please generate or edit an image first, then use continue_editing for subsequent edits."),
     (s, w)).
Proof.
  intros Hc Hp.
  unfold continueEditing, bind, ensureConfigured, get_server, ret. simpl.
  rewrite Hc. simpl. by rewrite Hp.
Qed.

(** With a remembered path at which nothing exists, the call stops at the
    existence check. *)
Lemma continueEditing_file_gone (o : gmap string JSValue) (s : Server) (w : World)
    (p : string) :
  configured s = true ->
  lastImagePath s = Some p ->
  p <> "" ->
  exists_at w p = false ->
  continueEditing env (Some o) (s, w)
  = (Throw (new_McpError InvalidRequest
       ("Last image file not found at: " +:+ p +:+ ". Please generate a new image first.")),
     (s, w)).
Proof.
  intros Hc Hp Hne Hex.
  apply String.eqb_neq in Hne.
  unfold continueEditing, bind, ensureConfigured, get_server, ret, try_catch,
    fs_access, get_world, throw. simpl.
  rewrite Hc. simpl. rewrite Hp. simpl. rewrite Hne. run_m. by rewrite Hex.
Qed.

End Continue.

(** When the server remembers a path at which a file exists,
    [continue_editing] called with a prompt and reference images gives the
    same result, the same server fields and the same world (files written,
    requests sent, clock) as [edit_image] called with that path as
    [imagePath] and the same prompt and reference images.  The prompt and the
    reference images are any values, absent ones included. *)
Lemma callTool_continue (env : Env) (s : Server) (w : World)
    (p : string) (o o' : gmap string JSValue) :
  lastImagePath s = Some p ->
  exists_at w p = true ->
  prop o' "imagePath" = JStr p ->
  prop o' "prompt" = prop o "prompt" ->
  prop o' "referenceImages" = prop o "referenceImages" ->
  callTool env "continue_editing" (Some o) (s, w)
  = callTool env "edit_image" (Some o') (s, w).
Proof.
  intros Hp Hex H1 H2 H3.
  unfold callTool, try_catch.
  change (route env "continue_editing" (Some o)) with (continueEditing env (Some o)).
  change (route env "edit_image" (Some o')) with (editImage env (Some o')).
  destruct (configured s) eqn:Hc.
  - rewrite (continueEditing_delegates env o s w p Hc Hp Hex).
    rewrite (editImage_props env o' _ (s, w)); [done| | |].
    + rewrite H1. unfold prop. by rewrite lookup_insert_eq.
    + rewrite H2. unfold prop.
      rewrite lookup_insert_ne by done. by rewrite lookup_insert_eq.
    + rewrite H3. unfold prop.
      rewrite !lookup_insert_ne by done. by rewrite lookup_insert_eq.
  - rewrite continueEditing_unconfigured, editImage_unconfigured; done.
Qed.

(** C2.  When the server remembers a path at which a file exists,
    [continue_editing] called with a prompt and reference images gives the
    same result, the same server fields and the same world (files written,
    requests sent, clock) as [edit_image] called with that path as
    [imagePath] and the same prompt and reference images.  The prompt and the
    reference images are any values, absent ones included. *)
Theorem continue_editing_is_edit_image (env : Env) (s : Server) (w : World)
    (p : string) (o o' : gmap string JSValue) :
  lastImagePath s = Some p ->
  exists_at w p = true ->
  prop o' "imagePath" = JStr p ->
  prop o' "prompt" = prop o "prompt" ->
  prop o' "referenceImages" = prop o "referenceImages" ->
  callTool env "continue_editing" (Some o) (s, w)
  = callTool env "edit_image" (Some o') (s, w).
Proof. apply callTool_continue. Qed.

(** On the sample machine, continuing from [cat.png] with one reference
    picture is editing [cat.png] with that picture. *)
Lemma continue_editing_is_edit_image_witness :
  callTool Sample.env "continue_editing"
    (Some (<["prompt" := JStr "add a hat"]>
           {["referenceImages" := JArr [JStr "/work/ref.JPG"]]}))
    (Sample.after_image, Sample.disk)
  = callTool Sample.env "edit_image"
      (Some (<["imagePath" := JStr "/work/generated_imgs/cat.png"]>
             (<["prompt" := JStr "add a hat"]>
              {["referenceImages" := JArr [JStr "/work/ref.JPG"]]})))
      (Sample.after_image, Sample.disk).
Proof.
  apply (continue_editing_is_edit_image Sample.env Sample.after_image Sample.disk
           "/work/generated_imgs/cat.png"); reflexivity.
Defined.

(** C3, as the code has it.  With a credential: when the server remembers no
    path, [continue_editing] fails with [InvalidRequest] and the
    no-previous-image message whatever its arguments, absent ones included;
    when it remembers a path at which nothing exists and the request has an
    arguments object, it fails with [InvalidRequest] and a message naming that
    path.  In both cases the server and the world, hence the list of requests
    sent to the generation service, are unchanged. *)
Theorem continue_editing_needs_image (env : Env) (s : Server) (w : World) :
  configured s = true ->
  (lastImagePath s = None ->
   forall args, exists msg,
     callTool env "continue_editing" args (s, w)
     = (Throw (McpError InvalidRequest msg), (s, w))
     /\ includes msg "No previous image found")
  /\
  (forall p o,
     lastImagePath s = Some p -> p <> "" -> exists_at w p = false ->
     exists msg,
       callTool env "continue_editing" (Some o) (s, w)
       = (Throw (McpError InvalidRequest msg), (s, w))
       /\ includes msg ("Last image file not found at: " +:+ p)).
Proof.
  intros Hc. split.
  - intros Hnone args.
    destruct (new_McpError_includes InvalidRequest
      "No previous image found. Please generate or edit an image first, then use continue_editing for subsequent edits."
      "No previous image found") as (msg & Hmsg & Hin).
    { exact (includes_here "" "No previous image found"
        ". Please generate or edit an image first, then use continue_editing for subsequent edits."). }
    exists msg. split; [|exact Hin].
    unfold callTool, try_catch.
    change (route env "continue_editing" args) with (continueEditing env args).
    rewrite continueEditing_no_image; [|done|by rewrite Hnone].
    by rewrite Hmsg.
  - intros p o Hp Hne Hex.
    destruct (new_McpError_includes InvalidRequest
      ("Last image file not found at: " +:+ p +:+ ". Please generate a new image first.")
      ("Last image file not found at: " +:+ p)) as (msg & Hmsg & Hin).
    { rewrite <- append_assoc. apply includes_append. exists "", "".
      by rewrite append_empty_r. }
    exists msg. split; [|exact Hin].
    unfold callTool, try_catch.
    change (route env "continue_editing" (Some o)) with (continueEditing env (Some o)).
    rewrite (continueEditing_file_gone env o s w p); [|done..].
    by rewrite Hmsg.
Qed.

(** On the sample machine: before any image was made, and after [cat.png]
    was removed from the disk. *)
Lemma continue_editing_needs_image_witness :
  (exists msg,
     callTool Sample.env "continue_editing" None (Sample.ready, Sample.disk)
     = (Throw (McpError InvalidRequest msg), (Sample.ready, Sample.disk))
     /\ includes msg "No previous image found")
  /\ (exists msg,
     callTool Sample.env "continue_editing" (Some {["prompt" := JStr "add a hat"]})
       (Sample.after_image, Sample.empty_disk)
     = (Throw (McpError InvalidRequest msg), (Sample.after_image, Sample.empty_disk))
     /\ includes msg ("Last image file not found at: " +:+ "/work/generated_imgs/cat.png")).
Proof.
  split.
  - apply (proj1 (continue_editing_needs_image Sample.env Sample.ready
                    Sample.disk eq_refl) eq_refl None).
  - apply (proj2 (continue_editing_needs_image Sample.env Sample.after_image
                    Sample.empty_disk eq_refl)
             "/work/generated_imgs/cat.png" {["prompt" := JStr "add a hat"]});
      [reflexivity | discriminate | reflexivity].
Defined.

(** C3 as it is written fails for a request that carries no [arguments]: the
    server has a credential and remembers a path at which nothing exists, and
    the call does not fail with [InvalidRequest]; the arguments are
    destructured before the file is looked for, and the [TypeError] comes
    back as [InternalError]. *)
Lemma continue_editing_without_arguments :
  configured Sample.after_image = true /\
  lastImagePath Sample.after_image = Some "/work/generated_imgs/cat.png" /\
  exists_at Sample.empty_disk "/work/generated_imgs/cat.png" = false /\
  (exists msg,
     fst (callTool Sample.env "continue_editing" None
            (Sample.after_image, Sample.empty_disk))
     = Throw (McpError InternalError msg)) /\
  ~ (exists msg,
       fst (callTool Sample.env "continue_editing" None
              (Sample.after_image, Sample.empty_disk))
       = Throw (McpError InvalidRequest msg)).
Proof.
  repeat split; try reflexivity.
  - eexists. vm_compute. reflexivity.
  - intros [msg H]. vm_compute in H. discriminate H.
Qed.

(** ** Which errors a tool can raise *)

Section Mild.

Variable env : Env.

Lemma bind_mild {A B} (m : M A) (k : A -> M B) (sys : Sys) :
  mild (fst (m sys)) ->
  (forall a sys', mild (fst (k a sys'))) ->
  mild (fst (bind m k sys)).
Proof.
  intros Hm Hk. unfold bind. destruct (m sys) as [[a|e] sys']; simpl in *.
  - apply Hk.
  - exact Hm.
Qed.

Lemma wrapped_mild {A} (body : M A) (text : JsError -> string) (sys : Sys) :
  mild (fst (try_catch body
               (fun error => throw (new_McpError InternalError (text error))) sys)).
Proof.
  unfold try_catch. by destruct (body sys) as [[a|e] sys'].
Qed.

Lemma destructure_mild (args : Arguments_) (sys : Sys) :
  mild (fst (destructure env args sys)).
Proof. by destruct args. Qed.

Lemma generateImage_mild (args : Arguments_) (sys : Sys) :
  mild (fst (generateImage env args sys)).
Proof.
  unfold generateImage. apply bind_mild; [done|].
  intros [|] sys1; simpl; [|done].
  apply bind_mild; [apply destructure_mild|].
  intros o sys2. apply wrapped_mild.
Qed.

Lemma editImage_mild (args : Arguments_) (sys : Sys) :
  mild (fst (editImage env args sys)).
Proof.
  unfold editImage. apply bind_mild; [done|].
  intros [|] sys1; simpl; [|done].
  apply bind_mild; [apply destructure_mild|].
  intros o sys2. apply wrapped_mild.
Qed.

Lemma continueEditing_mild (args : Arguments_) (sys : Sys) :
  mild (fst (continueEditing env args sys)).
Proof.
  unfold continueEditing. apply bind_mild; [done|].
  intros [|] sys1; simpl; [|done].
  apply bind_mild; [done|].
  intros s sys2. destruct (present (lastImagePath s)); simpl; [|done].
  apply bind_mild; [apply destructure_mild|].
  intros o sys3. apply bind_mild.
  - unfold try_catch. by destruct (fs_access _ _ _) as [[a|e] sys'].
  - intros _ sys4. apply editImage_mild.
Qed.

(** The handler's [catch] turns whatever is not an [McpError] into an
    [InternalError], so it keeps an outcome mild. *)
Lemma callTool_mild (name : string) (args : Arguments_) (sys : Sys) :
  mild (fst (route env name args sys)) ->
  ~ fails_with InvalidParams (callTool env name args sys).
Proof.
  intros Hm [msg H]. unfold callTool, try_catch in H.
  destruct (route env name args sys) as [[a|e] sys']; simpl in *; [done|].
  destruct e; simpl in *; inversion H; subst; done.
Qed.

(** [configureGeminiToken] when the schema rejects the data: nothing has been
    assigned or written. *)
Lemma configure_rejected (o : gmap string JSValue) (sys : Sys) :
  ConfigSchema_issues env (configData_of o) <> [] ->
  exists text,
    callTool env "configure_gemini_token" (Some o) sys
    = (Throw (new_McpError InvalidParams ("Invalid configuration: " +:+ text)), sys).
Proof.
  intros Hissues.
  unfold callTool.
  change (route env "configure_gemini_token" (Some o))
    with (configureGeminiToken env (Some o)).
  unfold configureGeminiToken, destructure. run_m.
  unfold ConfigSchema_parse.
  destruct (ConfigSchema_issues env _) as [|m rest] eqn:E; [by destruct Hissues|].
  run_m. by exists m.
Qed.

End Mild.

Lemma geminiApiKey_issues_nil (v : JSValue) :
  geminiApiKey_issues v = [] <-> nonempty_string v = true.
Proof.
  destruct v as [| | | |s|]; simpl; try done.
  by destruct (String.eqb s "").
Qed.

(** C1.  The code at the failing input: [generate_image] called with an
    empty arguments object on a configured server.  The tool list marks
    [prompt] as required, yet the handler makes no check: the undefined
    prompt is sent to the generation service, the request is logged, and the
    failure that comes back is an [InternalError], not [InvalidParams].
    [edit_image] without [imagePath] is not refused with [InvalidParams]
    either. *)
Lemma missing_prompt_is_not_invalid_params :
  omap (fun t => if String.eqb (tool_name t) "generate_image"
                 then Some (tool_required t) else None) listTools
  = [["prompt"]] /\
  prop (∅ : gmap string JSValue) "prompt" = JUndefined /\
  callTool Sample.env "generate_image" (Some ∅) (Sample.ready, Sample.empty_disk)
  = (Throw (McpError InternalError
       "MCP error -32603: Failed to generate image: contents are required"),
     (Sample.ready,
      set_requests
        [(client_of Sample.key_only,
          {| model := model_name; contents := PromptContents JUndefined |})]
        Sample.empty_disk)) /\
  ~ fails_with InvalidParams
      (callTool Sample.env "edit_image" (Some {["prompt" := JStr "add a hat"]})
         (Sample.ready, Sample.empty_disk)).
Proof.
  split; [reflexivity|]. split; [reflexivity|]. split; [reflexivity|].
  intros [msg H]. vm_compute in H. discriminate H.
Qed.

(** ** Mime types *)

(** Node's own examples for [path.extname], and some paths of images. *)
Example extname_documented :
  map (NodePath.extname false)
    ["index.html"; "index.coffee.md"; "index."; "index"; ".index"; ".index.md"]
  = [".html"; ".md"; "."; ""; ""; ".md"].
Proof. reflexivity. Qed.

Example extname_images :
  map (NodePath.extname false)
    ["/work/cat.png"; "/work/v1.2/cat"; "/work/cat.jpeg/"; "/work/.png"; "photo.PNG"]
  = [".png"; ""; ".jpeg"; ""; ".PNG"].
Proof. reflexivity. Qed.

Example extname_windows :
  map (NodePath.extname true) ["C:\pics\cat.webp"; "C:cat.png"; "C:.png"; "pics.d\cat"]
  = [".webp"; ".png"; ""; ""].
Proof. reflexivity. Qed.

(** C6, as the code has it.  The extension is compared after it has been put
    in lower case: [.jpg] and [.jpeg] in any letter case give [image/jpeg],
    [.png] gives [image/png], [.webp] gives [image/webp], and a path with any
    other extension, or with none, gives [image/jpeg]. *)
Theorem getMimeType_by_lower_case_extension (env : Env) (filePath : string) :
  let ext := toLowerCase (path_extname env filePath) in
  (ext = ".jpg" \/ ext = ".jpeg" -> getMimeType env filePath = "image/jpeg") /\
  (ext = ".png" -> getMimeType env filePath = "image/png") /\
  (ext = ".webp" -> getMimeType env filePath = "image/webp") /\
  (ext ∉ [".jpg"; ".jpeg"; ".png"; ".webp"] -> getMimeType env filePath = "image/jpeg").
Proof.
  intros ext. unfold getMimeType. fold ext.
  repeat split.
  - intros [->| ->]; reflexivity.
  - intros ->. reflexivity.
  - intros ->. reflexivity.
  - intros Hother.
    destruct (String.eqb ext ".jpg") eqn:E1; [done|].
    destruct (String.eqb ext ".jpeg") eqn:E2; [done|].
    destruct (String.eqb ext ".png") eqn:E3.
    { apply String.eqb_eq in E3. exfalso. apply Hother. rewrite E3.
      do 2 right. left. }
    destruct (String.eqb ext ".webp") eqn:E4; [|done].
    apply String.eqb_eq in E4. exfalso. apply Hother. rewrite E4.
    do 3 right. left.
Qed.

(** On the sample machine: an upper-case [.PNG], and a path without
    extension. *)
Lemma getMimeType_by_lower_case_extension_witness :
  getMimeType Sample.env "photo.PNG" = "image/png" /\
  getMimeType Sample.env "/work/v1.2/cat" = "image/jpeg".
Proof.
  split.
  - apply (getMimeType_by_lower_case_extension Sample.env "photo.PNG").
    reflexivity.
  - apply (getMimeType_by_lower_case_extension Sample.env "/work/v1.2/cat").
    vm_compute. intros H.
    repeat (apply elem_of_cons in H as [H|H]; [discriminate H|]).
    by apply elem_of_nil in H.
Defined.

(** C6 as it is written fails: the extension of [photo.PNG] is [.PNG], which
    is none of [.jpg], [.jpeg], [.png] and [.webp], and the mime type is not
    the fallback [image/jpeg]. *)
Lemma upper_case_extension_is_not_other :
  ~ (forall filePath,
       path_extname Sample.env filePath ∉ [".jpg"; ".jpeg"; ".png"; ".webp"] ->
       getMimeType Sample.env filePath = "image/jpeg").
Proof.
  intros H. specialize (H "photo.PNG").
  assert (Hext : path_extname Sample.env "photo.PNG" = ".PNG") by reflexivity.
  rewrite Hext in H.
  assert (Hmime : getMimeType Sample.env "photo.PNG" = "image/png") by reflexivity.
  rewrite Hmime in H.
  discriminate H.
  intros Hin.
  repeat (apply elem_of_cons in Hin as [Hin|Hin]; [discriminate Hin|]).
  by apply elem_of_nil in Hin.
Qed.

(** ** Configuration *)

Section Configure.

Variable env : Env.

(** What the schema accepts: a key that is a non-empty string, and a base URL
    that is left out of the data (absent or falsy) or is a valid URL. *)
Lemma ConfigSchema_accepts (o : gmap string JSValue) :
  ConfigSchema_issues env (configData_of o) = [] <->
  nonempty_string (prop o "apiKey") = true /\
  (truthy (prop o "baseUrl") = false \/
   exists u, prop o "baseUrl" = JStr u /\ valid_url env u = true).
Proof.
  unfold ConfigSchema_issues, configData_of. simpl.
  rewrite app_nil, geminiApiKey_issues_nil.
  split; intros [Hk Hu]; (split; [exact Hk|]).
  - destruct (truthy (prop o "baseUrl")) eqn:Ht; [right|by left].
    destruct (prop o "baseUrl") as [| | | |u|]; simpl in *; try done.
    exists u. split; [done|]. by destruct (valid_url env u).
  - destruct Hu as [->|(u & -> & Hu)]; [done|].
    simpl. destruct (String.eqb u ""); simpl; [done|]. by rewrite Hu.
Qed.

Lemma ConfigSchema_parse_accepted (o : gmap string JSValue) (sys : Sys) :
  ConfigSchema_issues env (configData_of o) = [] ->
  ConfigSchema_parse env (configData_of o) sys = (Ok (accepted_config o), sys).
Proof.
  intros H. unfold ConfigSchema_parse. rewrite H.
  apply ConfigSchema_accepts in H as [Hk _].
  unfold accepted_config. simpl.
  destruct (prop o "apiKey"); simpl in Hk; try done.
  by destruct (if truthy (prop o "baseUrl") then prop o "baseUrl" else JUndefined).
Qed.

(** An accepted configuration is stored in the fields, whether or not the
    file can then be written. *)
Lemma configure_accepted (o : gmap string JSValue) (s : Server) (w : World) :
  ConfigSchema_issues env (configData_of o) = [] ->
  snd (callTool env "configure_gemini_token" (Some o) (s, w))
  = (reconfigured (accepted_config o) s, saved env (accepted_config o) w)
  /\ ~ fails_with InvalidParams (callTool env "configure_gemini_token" (Some o) (s, w)).
Proof.
  intros H. unfold callTool.
  change (route env "configure_gemini_token" (Some o))
    with (configureGeminiToken env (Some o)).
  unfold configureGeminiToken, destructure. run_m.
  change {| data_geminiApiKey := prop o "apiKey";
            data_baseUrl := if truthy (prop o "baseUrl")
                            then prop o "baseUrl" else JUndefined |}
    with (configData_of o).
  rewrite (ConfigSchema_parse_accepted o (s, w) H).
  unfold saveConfig, fs_writeFile, saved, reconfigured. run_m.
  destruct (can_write env (configPath env)); run_m.
  - split; [done|]. intros [msg Hf]. discriminate Hf.
  - split; [done|]. intros [msg Hf]. simpl in Hf. unfold new_McpError in Hf.
    discriminate Hf.
Qed.

Lemma reconfigured_twice (c : Config) (s : Server) :
  reconfigured c (reconfigured c s) = reconfigured c s.
Proof. reflexivity. Qed.

Lemma saved_twice (c : Config) (w : World) :
  saved env c (saved env c w) = saved env c w.
Proof.
  unfold saved. destruct (can_write env (configPath env)); [|done].
  unfold set_files. simpl. by rewrite insert_insert_eq.
Qed.

End Configure.

(** C9.  For a payload that the schema accepts (a non-empty key, with a valid
    base URL or none), calling [configure_gemini_token] a second time with
    the same payload leaves the configuration, the client, the provenance
    and every file, the configuration file included, as the first call left
    them. *)
Theorem configure_twice_is_once (env : Env) (o : gmap string JSValue) (sys : Sys) :
  nonempty_string (prop o "apiKey") = true ->
  (truthy (prop o "baseUrl") = false \/
   exists u, prop o "baseUrl" = JStr u /\ valid_url env u = true) ->
  let once := snd (callTool env "configure_gemini_token" (Some o) sys) in
  let twice := snd (callTool env "configure_gemini_token" (Some o) once) in
  twice = once.
Proof.
  intros Hk Hu once twice.
  assert (H : ConfigSchema_issues env (configData_of o) = [])
    by (by apply ConfigSchema_accepts).
  unfold twice, once. destruct sys as [s w].
  rewrite (proj1 (configure_accepted env o s w H)).
  rewrite (proj1 (configure_accepted env o _ _ H)).
  by rewrite reconfigured_twice, saved_twice.
Qed.

(** On the sample machine, with a key and a proxy URL; the configuration file
    holds the JSON text after one call and after two. *)
Lemma configure_twice_is_once_witness :
  let o : gmap string JSValue :=
    <["apiKey" := JStr "k-123"]> {["baseUrl" := JStr "https://proxy.example"]} in
  let once :=
    snd (callTool Sample.env "configure_gemini_token" (Some o)
           (new_server, Sample.empty_disk)) in
  snd (callTool Sample.env "configure_gemini_token" (Some o) once) = once
  /\ file_at (snd once) "/work/.nano-banana-config.json"
     = Some (JSON_stringify_config
               {| geminiApiKey := "k-123"; baseUrl := Some "https://proxy.example" |}).
Proof.
  split.
  - apply (configure_twice_is_once Sample.env
             (<["apiKey" := JStr "k-123"]> {["baseUrl" := JStr "https://proxy.example"]})
             (new_server, Sample.empty_disk)).
    + reflexivity.
    + right. exists "https://proxy.example". split; reflexivity.
  - reflexivity.
Defined.

(** C10.  Whenever [configure_gemini_token] ends with the [InvalidParams]
    code, the configuration, the client, the provenance, the remembered
    image and the world, the configuration file included, are exactly as
    before the call; and it ends so whenever the schema rejects the data, in
    particular for an empty key and for a base URL that is not a valid URL. *)
Theorem configure_failure_changes_nothing (env : Env) (sys : Sys) :
  (forall args,
     fails_with InvalidParams (callTool env "configure_gemini_token" args sys) ->
     snd (callTool env "configure_gemini_token" args sys) = sys)
  /\
  (forall o,
     prop o "apiKey" = JStr "" \/
     (exists u, prop o "baseUrl" = JStr u /\ u <> "" /\ valid_url env u = false) ->
     fails_with InvalidParams (callTool env "configure_gemini_token" (Some o) sys)
     /\ snd (callTool env "configure_gemini_token" (Some o) sys) = sys).
Proof.
  split.
  - intros [o|] Hfail.
    + destruct (ConfigSchema_issues env (configData_of o)) as [|m rest] eqn:E.
      * destruct sys as [s w].
        by destruct (proj2 (configure_accepted env o s w E)).
      * destruct (configure_rejected env o sys) as [text ->]; [by rewrite E|done].
    + destruct Hfail as [msg Hfail]. vm_compute in Hfail. discriminate Hfail.
  - intros o Hbad.
    destruct (configure_rejected env o sys) as [text ->].
    + rewrite ConfigSchema_accepts. intros [Hk Hu].
      destruct Hbad as [Hempty|(u & Hurl & Hne & Hinvalid)].
      * by rewrite Hempty in Hk.
      * rewrite Hurl in Hu. destruct Hu as [Hf|(u' & Hu' & Hvalid)].
        -- simpl in Hf. apply String.eqb_neq in Hne. by rewrite Hne in Hf.
        -- inversion Hu'; subst. congruence.
    + split; [|done]. by eexists.
Qed.

(** On the sample machine: a configured server refuses a base URL that is
    not a URL and stays as it was. *)
Lemma configure_failure_changes_nothing_witness :
  let o : gmap string JSValue :=
    <["apiKey" := JStr "k-456"]> {["baseUrl" := JStr "not a url"]} in
  fails_with InvalidParams
    (callTool Sample.env "configure_gemini_token" (Some o) (Sample.ready, Sample.disk))
  /\ snd (callTool Sample.env "configure_gemini_token" (Some o) (Sample.ready, Sample.disk))
     = (Sample.ready, Sample.disk).
Proof.
  apply (proj2 (configure_failure_changes_nothing Sample.env (Sample.ready, Sample.disk))
           (<["apiKey" := JStr "k-456"]> {["baseUrl" := JStr "not a url"]})).
  right. exists "not a url". split; [reflexivity|]. split; [discriminate|reflexivity].
Defined.

(** ** Validation of the response *)

Section Validation.

Variable env : Env.

(** Building the parts only reads: neither a failure nor a success changes
    the server or the world. *)
Lemma add_reference_pure (refPath : JSValue) (acc : list RequestPart) (sys : Sys) :
  exists acc', add_reference env refPath acc sys = (Ok acc', sys).
Proof.
  unfold add_reference, fs_readFile, getMimeType_of. run_m.
  destruct refPath; run_m; eauto.
  destruct (file_at sys.2 s); run_m; eauto.
Qed.

Lemma for_of_add_reference_pure (l : list JSValue) (acc : list RequestPart) (sys : Sys) :
  exists acc', for_of l (add_reference env) acc sys = (Ok acc', sys).
Proof.
  revert acc. induction l as [|x l IH]; intros acc; simpl.
  - by exists acc.
  - unfold bind. destruct (add_reference_pure x acc sys) as [acc1 ->].
    apply IH.
Qed.

Lemma edit_parts_pure (imagePath prompt referenceImages : JSValue) (sys : Sys) :
  snd (edit_parts env imagePath prompt referenceImages sys) = sys.
Proof.
  unfold edit_parts, fs_readFile, getMimeType_of. run_m.
  destruct imagePath; run_m; try done.
  destruct (file_at sys.2 s); run_m; [|done].
  destruct (has_items referenceImages); run_m; [|done].
  by destruct (for_of_add_reference_pure (items referenceImages)
                 [InlinePart (base64_encode env s0) (getMimeType env s)] sys)
    as [acc' ->].
Qed.

(** The three refusals of [validate_response]. *)
Lemma validate_no_candidates (r : Response) (sys : Sys) :
  first_candidate r = None ->
  validate_response r sys
  = (Throw (new_McpError InternalError "No candidates in response from Gemini API"), sys).
Proof.
  unfold validate_response, first_candidate.
  by destruct (candidates r) as [[|c l]|].
Qed.

Lemma validate_no_reason (r : Response) (c : Candidate) (sys : Sys) :
  first_candidate r = Some c ->
  present (finishReason c) = false ->
  validate_response r sys
  = (Throw (new_McpError InternalError
              "Response missing finish reason - generation may have been interrupted"),
     sys).
Proof.
  unfold validate_response, first_candidate.
  destruct (candidates r) as [[|c' l]|]; try done.
  intros [= ->] ->. done.
Qed.

Lemma validate_other_reason (r : Response) (c : Candidate) (reason : string) (sys : Sys) :
  first_candidate r = Some c ->
  finishReason c = Some reason ->
  reason <> "" -> reason <> "STOP" -> reason <> "MAX_TOKENS" ->
  validate_response r sys
  = (Throw (new_McpError InternalError
              ("Generation failed with finish reason: " +:+ reason)), sys).
Proof.
  unfold validate_response, first_candidate.
  destruct (candidates r) as [[|c' l]|]; try done.
  intros [= ->] Hr H0 H1 H2. rewrite Hr. simpl.
  apply String.eqb_neq in H0, H1, H2. by rewrite H0, H1, H2.
Qed.

(** A refusal of the response inside [generateImage] comes out of the tool
    as an [InternalError] whose message ends with the text of the refusal. *)
Lemma generate_refused (o : gmap string JSValue) (s : Server) (w : World)
    (client : GoogleGenAI) (r : Response) (text : string) :
  config s <> None ->
  genAI s = Some client ->
  generateContent env client (requests w) (generate_request o) = Respond r ->
  (forall sys, validate_response r sys = (Throw (new_McpError InternalError text), sys)) ->
  exists pre,
    fst (callTool env "generate_image" (Some o) (s, w))
    = Throw (McpError InternalError (pre +:+ text)).
Proof.
  intros Hc Hg Hsvc Hval.
  unfold callTool.
  change (route env "generate_image" (Some o)) with (generateImage env (Some o)).
  unfold generateImage, ensureConfigured, destructure, models_generateContent. run_m.
  unfold configured. rewrite Hg.
  rewrite !bool_decide_eq_true_2 by done. run_m.
  rewrite Hg. run_m. unfold generate_request in Hsvc. rewrite Hsvc.
  unfold generate_response. run_m.
  rewrite Hval. run_m. unfold new_McpError.
  eexists. rewrite <- !append_assoc. reflexivity.
Qed.

Lemma edit_refused (o : gmap string JSValue) (s : Server) (w : World)
    (client : GoogleGenAI) (ps : list RequestPart) (r : Response) (text : string) :
  config s <> None ->
  genAI s = Some client ->
  fst (edit_parts env (prop o "imagePath") (prop o "prompt")
         (prop o "referenceImages") (s, w)) = Ok ps ->
  generateContent env client (requests w) (edit_request ps) = Respond r ->
  (forall sys, validate_response r sys = (Throw (new_McpError InternalError text), sys)) ->
  exists pre,
    fst (callTool env "edit_image" (Some o) (s, w))
    = Throw (McpError InternalError (pre +:+ text)).
Proof.
  intros Hc Hg Hparts Hsvc Hval.
  unfold callTool.
  change (route env "edit_image" (Some o)) with (editImage env (Some o)).
  unfold editImage, ensureConfigured, destructure. run_m.
  unfold configured. rewrite Hg.
  rewrite !bool_decide_eq_true_2 by done. run_m.
  pose proof (edit_parts_pure (prop o "imagePath") (prop o "prompt")
                (prop o "referenceImages") (s, w)) as Hpure.
  destruct (edit_parts env _ _ _ (s, w)) as [out sys'].
  simpl in Hparts, Hpure. subst out sys'.
  unfold models_generateContent. run_m. rewrite Hg. run_m.
  unfold edit_request in Hsvc. rewrite Hsvc. unfold edit_response. run_m.
  rewrite Hval. run_m. unfold new_McpError.
  eexists. rewrite <- !append_assoc. reflexivity.
Qed.

Lemma refused (name : string) (o : gmap string JSValue) (s : Server) (w : World)
    (r : Response) (text : string) :
  receives env name o s w r ->
  (forall sys, validate_response r sys = (Throw (new_McpError InternalError text), sys)) ->
  exists pre,
    fst (callTool env name (Some o) (s, w))
    = Throw (McpError InternalError (pre +:+ text)).
Proof.
  intros (Hc & client & Hg & [[-> Hsvc]|[-> (ps & Hparts & Hsvc)]]) Hval.
  - by apply (generate_refused o s w client r).
  - by apply (edit_refused o s w client ps r).
Qed.

End Validation.

(** C5.  For every response that [generate_image] or [edit_image] receives
    from the generation service: without a first candidate the call fails
    with [InternalError]; when the first candidate has no finish reason the
    call fails with [InternalError] and a message saying that the generation
    may have been interrupted; when the finish reason is neither [STOP] nor
    [MAX_TOKENS] the call fails with [InternalError] and a message that
    contains the finish reason. *)
Theorem bad_response_is_internal_error (env : Env) (name : string)
    (o : gmap string JSValue) (s : Server) (w : World) (r : Response) :
  receives env name o s w r ->
  (first_candidate r = None ->
   exists msg,
     fst (callTool env name (Some o) (s, w)) = Throw (McpError InternalError msg))
  /\
  (forall c,
     first_candidate r = Some c -> finishReason c = None ->
     exists msg,
       fst (callTool env name (Some o) (s, w)) = Throw (McpError InternalError msg)
       /\ includes msg "generation may have been interrupted")
  /\
  (forall c reason,
     first_candidate r = Some c -> finishReason c = Some reason ->
     reason <> "STOP" -> reason <> "MAX_TOKENS" ->
     exists msg,
       fst (callTool env name (Some o) (s, w)) = Throw (McpError InternalError msg)
       /\ includes msg reason).
Proof.
  intros Hrec. repeat split.
  - intros Hnone.
    destruct (refused env name o s w r _ Hrec
                (fun sys => validate_no_candidates r sys Hnone)) as [pre H].
    eauto.
  - intros c Hc Hreason.
    destruct (refused env name o s w r _ Hrec
                (fun sys => validate_no_reason r c sys Hc
                              (f_equal present Hreason))) as [pre H].
    eexists. split; [exact H|].
    apply includes_prepend.
    exact (includes_end "Response missing finish reason - "
             "generation may have been interrupted").
  - intros c reason Hc Hreason Hstop Hmax.
    destruct (decide (reason = "")) as [->|Hne].
    + destruct (refused env name o s w r _ Hrec
                  (fun sys => validate_no_reason r c sys Hc
                                (f_equal present Hreason))) as [pre H].
      eexists. split; [exact H|]. by eexists _, _.
    + destruct (refused env name o s w r _ Hrec
                  (fun sys => validate_other_reason r c reason sys Hc Hreason
                                Hne Hstop Hmax)) as [pre H].
      eexists. split; [exact H|].
      apply includes_prepend. apply includes_end.
Qed.

(** On the sample machine, with a service whose candidate stopped for
    [SAFETY]. *)
Lemma bad_response_is_internal_error_witness :
  exists msg,
    fst (callTool (Sample.runtime Sample.blocked) "generate_image"
           (Some {["prompt" := JStr "a red circle"]}) (Sample.ready, Sample.empty_disk))
    = Throw (McpError InternalError msg)
    /\ includes msg "SAFETY".
Proof.
  apply (proj2 (proj2
           (bad_response_is_internal_error (Sample.runtime Sample.blocked)
              "generate_image" {["prompt" := JStr "a red circle"]}
              Sample.ready Sample.empty_disk
              {| candidates := Some [{| finishReason := Some "SAFETY"; content := None |}] |}
              (conj (fun H => eq_ind (Some Sample.key_only)
                                (fun v => match v with Some _ => True | None => False end)
                                I None H)
                 (ex_intro _ (client_of Sample.key_only)
                    (conj eq_refl (or_introl (conj eq_refl eq_refl)))))))
           {| finishReason := Some "SAFETY"; content := None |} "SAFETY");
    [reflexivity | reflexivity | discriminate | discriminate].
Defined.

(** ** Shape of a result *)

Section Shape.

Variable env : Env.

Lemma bind_Ok {A B} (m : M A) (k : A -> M B) (sys sys' : Sys) (b : B) :
  bind m k sys = (Ok b, sys') ->
  exists a sys1, m sys = (Ok a, sys1) /\ k a sys1 = (Ok b, sys').
Proof.
  unfold bind. destruct (m sys) as [[a|e] sys1]; [eauto|done].
Qed.

(** A [catch] that always throws lets only the results of the body through. *)
Lemma wrapped_Ok {A} (body : M A) (text : JsError -> string) (sys sys' : Sys) (a : A) :
  try_catch body (fun error => throw (new_McpError InternalError (text error))) sys
  = (Ok a, sys') ->
  body sys = (Ok a, sys').
Proof.
  unfold try_catch. by destruct (body sys) as [[a'|e] sys1].
Qed.

(** A property of the local variables kept by every turn of a loop holds
    when the loop ends. *)
Lemma for_of_invariant {X A} (P : A -> Prop) (body : X -> A -> M A) (l : list X) :
  (forall x acc sys acc' sys', P acc -> body x acc sys = (Ok acc', sys') -> P acc') ->
  forall acc sys acc' sys',
    P acc -> for_of l body acc sys = (Ok acc', sys') -> P acc'.
Proof.
  intros Hbody. induction l as [|x l IH]; intros acc sys acc' sys' HP H; simpl in H.
  - by inversion H; subst.
  - apply bind_Ok in H as (acc1 & sys1 & H1 & H2).
    eapply IH; [|exact H2]. eapply Hbody; [exact HP|exact H1].
Qed.

Lemma add_text_images (p : Part) (l : Locals) : only_images l -> only_images (add_text p l).
Proof. unfold add_text, only_images. by destruct (present (part_text p)). Qed.

Lemma push_saved_images (f : string) (l : Locals) :
  only_images l -> only_images (push_saved f l).
Proof. done. Qed.

Lemma push_image_images (d : InlineData) (l : Locals) :
  only_images l -> only_images (push_image d l).
Proof.
  unfold only_images, push_image. simpl. intros H.
  by rewrite forallb_app, H.
Qed.

Lemma generate_part_images (dir : string) (p : Part) (l : Locals) (sys : Sys)
    (l' : Locals) (sys' : Sys) :
  only_images l -> generate_part env dir p l sys = (Ok l', sys') -> only_images l'.
Proof.
  intros HP H. unfold generate_part in H.
  apply (add_text_images p) in HP.
  destruct (part_inlineData p) as [d|]; [|by inversion H; subst].
  destruct (present (inline_data d)); [|by inversion H; subst].
  apply bind_Ok in H as (f & sys1 & _ & H).
  apply bind_Ok in H as (? & sys2 & _ & H).
  apply bind_Ok in H as (? & sys3 & _ & H).
  inversion H; subst. by apply push_image_images, push_saved_images.
Qed.

Lemma edit_part_images (dir : string) (p : Part) (l : Locals) (sys : Sys)
    (l' : Locals) (sys' : Sys) :
  only_images l -> edit_part env dir p l sys = (Ok l', sys') -> only_images l'.
Proof.
  intros HP H. unfold edit_part in H.
  apply (add_text_images p) in HP.
  destruct (part_inlineData p) as [d|]; [|by inversion H; subst].
  apply bind_Ok in H as (f & sys1 & _ & H).
  apply bind_Ok in H as (l1 & sys2 & H1 & H).
  destruct (present (inline_data d)).
  - apply bind_Ok in H1 as (? & sys3 & _ & H1).
    apply bind_Ok in H1 as (? & sys4 & _ & H1).
    inversion H1; subst. inversion H; subst.
    by apply push_image_images, push_saved_images.
  - inversion H1; subst. by inversion H; subst.
Qed.

Lemma one_text (t : string) : text_then_images [TextItem t].
Proof. by exists t, []. Qed.

Lemma generateImage_shape (args : Arguments_) (sys sys' : Sys) (result : CallToolResult) :
  generateImage env args sys = (Ok result, sys') -> text_then_images result.
Proof.
  intros H. unfold generateImage in H.
  apply bind_Ok in H as ([|] & sys1 & _ & H); [|done]. simpl in H.
  apply bind_Ok in H as (o & sys2 & _ & H).
  apply wrapped_Ok in H.
  apply bind_Ok in H as (r & sys3 & _ & H). unfold generate_response in H.
  apply bind_Ok in H as (c & sys4 & _ & H).
  apply bind_Ok in H as (? & sys5 & _ & H).
  apply bind_Ok in H as (l & sys6 & Hloop & H).
  inversion H; subst. eexists _, _. split; [reflexivity|].
  exact (for_of_invariant only_images _ _
           (fun x acc sa acc' sb => generate_part_images _ x acc sa acc' sb)
           no_locals _ _ _ eq_refl Hloop).
Qed.

Lemma editImage_shape (args : Arguments_) (sys sys' : Sys) (result : CallToolResult) :
  editImage env args sys = (Ok result, sys') -> text_then_images result.
Proof.
  intros H. unfold editImage in H.
  apply bind_Ok in H as ([|] & sys1 & _ & H); [|done]. simpl in H.
  apply bind_Ok in H as (o & sys2 & _ & H).
  apply wrapped_Ok in H.
  apply bind_Ok in H as (ps & sys3 & _ & H).
  apply bind_Ok in H as (r & sys4 & _ & H). unfold edit_response in H.
  apply bind_Ok in H as (c & sys5 & _ & H).
  apply bind_Ok in H as (? & sys6 & _ & H).
  apply bind_Ok in H as (l & sys7 & Hloop & H).
  apply bind_Ok in H as (t & sys8 & _ & H).
  inversion H; subst. eexists _, _. split; [reflexivity|].
  exact (for_of_invariant only_images _ _
           (fun x acc sa acc' sb => edit_part_images _ x acc sa acc' sb)
           no_locals _ _ _ eq_refl Hloop).
Qed.

Lemma continueEditing_shape (args : Arguments_) (sys sys' : Sys) (result : CallToolResult) :
  continueEditing env args sys = (Ok result, sys') -> text_then_images result.
Proof.
  intros H. unfold continueEditing in H.
  apply bind_Ok in H as ([|] & sys1 & _ & H); [|done]. simpl in H.
  apply bind_Ok in H as (s & sys2 & _ & H).
  destruct (present (lastImagePath s)); [|done]. simpl in H.
  apply bind_Ok in H as (o & sys3 & _ & H).
  apply bind_Ok in H as (? & sys4 & _ & H).
  by apply editImage_shape in H.
Qed.

Lemma configureGeminiToken_shape (args : Arguments_) (sys sys' : Sys)
    (result : CallToolResult) :
  configureGeminiToken env args sys = (Ok result, sys') -> text_then_images result.
Proof.
  intros H. unfold configureGeminiToken in H.
  apply bind_Ok in H as (o & sys1 & _ & H).
  unfold try_catch in H.
  match type of H with
  | context [let (_, _) := ?body sys1 in _] => destruct (body sys1) as [[a|e] sys2] eqn:E
  end.
  - inversion H; subst.
    apply bind_Ok in E as (c & sys3 & _ & E).
    apply bind_Ok in E as (? & sys4 & _ & E).
    apply bind_Ok in E as (? & sys5 & _ & E).
    apply bind_Ok in E as (? & sys6 & _ & E).
    apply bind_Ok in E as (? & sys7 & _ & E).
    inversion E; subst. apply one_text.
  - by destruct e.
Qed.

Lemma getConfigurationStatus_shape (sys sys' : Sys) (result : CallToolResult) :
  getConfigurationStatus env sys = (Ok result, sys') -> text_then_images result.
Proof.
  intros H. unfold getConfigurationStatus in H.
  apply bind_Ok in H as (s & sys1 & _ & H).
  destruct (configured s); inversion H; subst; apply one_text.
Qed.

Lemma getLastImageInfo_shape (sys sys' : Sys) (result : CallToolResult) :
  getLastImageInfo env sys = (Ok result, sys') -> text_then_images result.
Proof.
  intros H. unfold getLastImageInfo in H.
  apply bind_Ok in H as (s & sys1 & _ & H).
  destruct (present (lastImagePath s)); simpl in H.
  - unfold try_catch in H.
    match type of H with
    | context [let (_, _) := ?body sys1 in _] => destruct (body sys1) as [[a|e] sys2] eqn:E
    end.
    + inversion H; subst.
      apply bind_Ok in E as (? & sys3 & _ & E).
      apply bind_Ok in E as (w & sys4 & _ & E).
      inversion E; subst. apply one_text.
    + inversion H; subst. apply one_text.
  - inversion H; subst. apply one_text.
Qed.

End Shape.

(** C8.  Whatever the tool and its arguments, a result that is returned, not
    thrown, is one text item, the status, followed by image items only. *)
Theorem result_is_text_then_images (env : Env) (name : string) (args : Arguments_)
    (sys sys' : Sys) (result : CallToolResult) :
  callTool env name args sys = (Ok result, sys') ->
  text_then_images result.
Proof.
  intros H. unfold callTool, try_catch in H.
  destruct (route env name args sys) as [[a|e] sys1] eqn:E.
  - inversion H; subst. unfold route in E.
    repeat match type of E with
           | context [if String.eqb name ?t then _ else _] =>
               destruct (String.eqb name t)
           end.
    + by apply configureGeminiToken_shape in E.
    + by apply generateImage_shape in E.
    + by apply editImage_shape in E.
    + by apply getConfigurationStatus_shape in E.
    + by apply continueEditing_shape in E.
    + by apply getLastImageInfo_shape in E.
    + done.
  - by destruct e.
Qed.

(** On the sample machine: the result of a generation is the status followed
    by the image. *)
Lemma result_is_text_then_images_witness :
  text_then_images
    (match fst (callTool Sample.env "generate_image"
                  (Some {["prompt" := JStr "a red circle"]})
                  (Sample.ready, Sample.empty_disk)) with
     | Ok result => result
     | Throw _ => []
     end).
Proof.
  apply (result_is_text_then_images Sample.env "generate_image"
           (Some {["prompt" := JStr "a red circle"]})
           (Sample.ready, Sample.empty_disk)
           (snd (callTool Sample.env "generate_image"
                   (Some {["prompt" := JStr "a red circle"]})
                   (Sample.ready, Sample.empty_disk)))).
  reflexivity.
Defined.

(** ** Reference images *)

Section References.

Variable env : Env.

Lemma add_reference_spec (v : JSValue) (acc : list RequestPart) (s : Server) (w : World) :
  add_reference env v acc (s, w)
  = (Ok (acc ++ option_list (loaded_reference env w v)), (s, w)).
Proof.
  unfold add_reference, fs_readFile, getMimeType_of, loaded_reference. run_m.
  destruct v; run_m; rewrite ?app_nil_r; try done.
  destruct (file_at w s0); run_m; by rewrite ?app_nil_r.
Qed.

(** The loop with its [try]/[catch] is the filter [loaded_references]. *)
Lemma for_of_add_reference_spec (refs : list JSValue) (acc : list RequestPart)
    (s : Server) (w : World) :
  for_of refs (add_reference env) acc (s, w)
  = (Ok (acc ++ loaded_references env w refs), (s, w)).
Proof.
  revert acc. induction refs as [|v refs IH]; intros acc; simpl.
  - by rewrite app_nil_r.
  - unfold bind. rewrite add_reference_spec, IH.
    unfold loaded_references. simpl.
    destruct (loaded_reference env w v); simpl.
    + by rewrite <- app_assoc.
    + by rewrite app_nil_r.
Qed.

Lemma edit_parts_spec (p bytes : string) (prompt : JSValue) (refs : list JSValue)
    (s : Server) (w : World) :
  file_at w p = Some bytes ->
  edit_parts env (JStr p) prompt (JArr refs) (s, w)
  = (Ok (InlinePart (base64_encode env bytes) (getMimeType env p)
         :: loaded_references env w refs ++ [TextPart prompt]), (s, w)).
Proof.
  intros Hp. unfold edit_parts, fs_readFile, getMimeType_of. run_m.
  rewrite Hp. run_m.
  destruct (has_items (JArr refs)) eqn:E; run_m.
  - by rewrite for_of_add_reference_spec.
  - unfold has_items in E. simpl in E.
    apply negb_false_iff, bool_decide_eq_true in E. by subst refs.
Qed.

Lemma keeps_ret {A} (a : A) : keeps_requests (ret a).
Proof. done. Qed.

Lemma keeps_throw {A} (e : JsError) : keeps_requests (@throw A e).
Proof. done. Qed.

Lemma keeps_bind {A B} (m : M A) (k : A -> M B) :
  keeps_requests m -> (forall a, keeps_requests (k a)) -> keeps_requests (bind m k).
Proof.
  intros Hm Hk sys. unfold bind. specialize (Hm sys).
  destruct (m sys) as [[a|e] sys1]; simpl in *; [|done].
  by rewrite Hk.
Qed.

Lemma keeps_for_of {X A} (body : X -> A -> M A) (l : list X) (acc : A) :
  (forall x a, keeps_requests (body x a)) -> keeps_requests (for_of l body acc).
Proof.
  intros Hbody. revert acc. induction l as [|x l IH]; intros acc; simpl.
  - apply keeps_ret.
  - apply keeps_bind; [apply Hbody|]. intros a. apply IH.
Qed.

Lemma keeps_assign (f : Server -> Server) : keeps_requests (assign f).
Proof. done. Qed.

Lemma keeps_writeFile (path bytes : string) : keeps_requests (fs_writeFile env path bytes).
Proof. intros sys. unfold fs_writeFile. run_m. by destruct (can_write env path). Qed.

Lemma keeps_mkdir (dir : string) : keeps_requests (fs_mkdir env dir).
Proof. intros sys. unfold fs_mkdir. by destruct (can_mkdir env dir). Qed.

Lemma keeps_new_file_path (dir prefix : string) :
  keeps_requests (new_file_path env dir prefix).
Proof. done. Qed.

Lemma keeps_validate (r : Response) : keeps_requests (validate_response r).
Proof.
  intros sys. unfold validate_response.
  destruct (candidates r) as [[|c l]|]; try done.
  destruct (present (finishReason c)); simpl; [|done].
  by match goal with |- context [if ?b then _ else _] => destruct b end.
Qed.

Lemma keeps_edit_part (dir : string) (p : Part) (l : Locals) :
  keeps_requests (edit_part env dir p l).
Proof.
  unfold edit_part. destruct (part_inlineData p) as [d|]; [|apply keeps_ret].
  apply keeps_bind; [apply keeps_new_file_path|]. intros f.
  apply keeps_bind.
  - destruct (present (inline_data d)); [|apply keeps_ret].
    apply keeps_bind; [apply keeps_writeFile|]. intros _.
    apply keeps_bind; [apply keeps_assign|]. intros _. apply keeps_ret.
  - intros l1. destruct (present (inline_data d)); apply keeps_ret.
Qed.

Lemma keeps_edit_status (imagePath prompt referenceImages : JSValue) (l : Locals) :
  keeps_requests (edit_status env imagePath prompt referenceImages l).
Proof.
  unfold edit_status. apply keeps_bind; [|intros; apply keeps_ret].
  destruct (has_items referenceImages); [|apply keeps_ret].
  apply keeps_bind; [|intros; apply keeps_ret].
  unfold reference_list. destruct referenceImages; solve [apply keeps_ret | apply keeps_throw].
Qed.

Lemma keeps_edit_response (imagePath prompt referenceImages : JSValue) (r : Response) :
  keeps_requests (edit_response env imagePath prompt referenceImages r).
Proof.
  unfold edit_response.
  apply keeps_bind; [apply keeps_validate|]. intros c.
  apply keeps_bind; [apply keeps_mkdir|]. intros _.
  apply keeps_bind; [apply keeps_for_of; intros; apply keeps_edit_part|]. intros l.
  apply keeps_bind; [apply keeps_edit_status|]. intros t. apply keeps_ret.
Qed.

(** One turn of the loop of [editImage] ends normally when the file it
    writes, if it writes one, can be written; the clock has then advanced
    exactly when the part has [inlineData]. *)
Lemma edit_part_succeeds (p : Part) (acc : Locals) (s : Server) (w : World) :
  Forall (fun path => can_write env path = true) (edit_outputs env (clock w) [p]) ->
  exists acc' s' w',
    edit_part env (getImagesDirectory env) p acc (s, w) = (Ok acc', (s', w')) /\
    clock w' = match part_inlineData p with
               | Some _ => S (clock w)
               | None => clock w
               end.
Proof.
  intros Hw. unfold edit_outputs, file_name in Hw.
  unfold edit_part, new_file_path, fs_writeFile. run_m.
  destruct (part_inlineData p) as [d|]; run_m; [|by eexists _, _, _].
  destruct (present (inline_data d)); run_m; [|by eexists _, _, _].
  apply Forall_cons in Hw as [Hw _]. rewrite Hw. run_m. by eexists _, _, _.
Qed.

(** When the files that the loop over the parts of the response writes can
    be written, the loop ends normally. *)
Lemma for_of_edit_part_succeeds (l : list Part) (acc : Locals) (s : Server) (w : World) :
  Forall (fun path => can_write env path = true) (edit_outputs env (clock w) l) ->
  exists acc' sys',
    for_of l (edit_part env (getImagesDirectory env)) acc (s, w) = (Ok acc', sys').
Proof.
  revert acc s w. induction l as [|p l IH]; intros acc s w Hw.
  - by eexists _, _.
  - change (for_of (p :: l) (edit_part env (getImagesDirectory env)) acc (s, w))
      with (bind (edit_part env (getImagesDirectory env) p acc)
              (fun a => for_of l (edit_part env (getImagesDirectory env)) a) (s, w)).
    unfold bind.
    destruct (edit_part_succeeds p acc s w) as (acc1 & s1 & w1 & -> & Hclock).
    + simpl. simpl in Hw. destruct (part_inlineData p) as [d|]; [|done].
      rewrite app_nil_r. apply Forall_app in Hw as [Hw _]. exact Hw.
    + apply IH. rewrite Hclock. simpl in Hw.
      destruct (part_inlineData p) as [d|]; [|done].
      apply Forall_app in Hw as [_ Hw]. exact Hw.
Qed.

Lemma validate_accepts (r : Response) (c : Candidate) (sys : Sys) :
  first_candidate r = Some c ->
  finishReason c = Some "STOP" \/ finishReason c = Some "MAX_TOKENS" ->
  validate_response r sys = (Ok c, sys).
Proof.
  unfold validate_response, first_candidate.
  destruct (candidates r) as [[|c' l]|]; try done.
  intros [= ->] [Hr|Hr]; by rewrite Hr.
Qed.

Lemma edit_response_succeeds (imagePath prompt : JSValue) (refs : list JSValue)
    (r : Response) (c : Candidate) (sys : Sys) :
  first_candidate r = Some c ->
  finishReason c = Some "STOP" \/ finishReason c = Some "MAX_TOKENS" ->
  can_mkdir env (getImagesDirectory env) = true ->
  Forall (fun path => can_write env path = true)
    (edit_outputs env (clock (snd sys)) (parts_of c)) ->
  exists result sys',
    edit_response env imagePath prompt (JArr refs) r sys = (Ok result, sys').
Proof.
  intros Hc Hr Hmk Hw. unfold edit_response, bind.
  rewrite (validate_accepts r c sys Hc Hr).
  unfold fs_mkdir. rewrite Hmk. run_m.
  destruct sys as [s0 w0].
  destruct (for_of_edit_part_succeeds (parts_of c) no_locals s0 w0 Hw)
    as (l & sys1 & ->).
  unfold edit_status, reference_list. run_m.
  destruct (has_items (JArr refs)); run_m; by eexists _, _.
Qed.

(** [edit_image] with a readable main image and a list of references. *)
Lemma edit_image_skips (o : gmap string JSValue) (s : Server) (w : World)
    (client : GoogleGenAI) (p bytes : string) (refs : list JSValue) :
  config s <> None ->
  genAI s = Some client ->
  prop o "imagePath" = JStr p ->
  file_at w p = Some bytes ->
  prop o "referenceImages" = JArr refs ->
  let request :=
    edit_request (InlinePart (base64_encode env bytes) (getMimeType env p)
                  :: loaded_references env w refs ++ [TextPart (prop o "prompt")]) in
  let outcome := callTool env "edit_image" (Some o) (s, w) in
  requests (snd (snd outcome)) = requests w ++ [(client, request)]
  /\
  (forall r c,
     generateContent env client (requests w) request = Respond r ->
     first_candidate r = Some c ->
     finishReason c = Some "STOP" \/ finishReason c = Some "MAX_TOKENS" ->
     can_mkdir env (getImagesDirectory env) = true ->
     Forall (fun path => can_write env path = true)
       (edit_outputs env (clock w) (parts_of c)) ->
     exists result, fst outcome = Ok result).
Proof.
  intros Hc Hg Hpath Hfile Hrefs request outcome.
  unfold outcome, callTool.
  change (route env "edit_image" (Some o)) with (editImage env (Some o)).
  unfold editImage, ensureConfigured, destructure. run_m.
  unfold configured. rewrite Hg.
  rewrite !bool_decide_eq_true_2 by done. run_m.
  rewrite Hpath, Hrefs, (edit_parts_spec p bytes _ refs s w Hfile).
  unfold models_generateContent. run_m. rewrite Hg. run_m.
  fold (edit_request (InlinePart (base64_encode env bytes) (getMimeType env p)
                      :: loaded_references env w refs ++ [TextPart (prop o "prompt")])).
  fold request.
  destruct (generateContent env client (requests w) request) as [r|t]; run_m.
  - pose proof (keeps_edit_response (JStr p) (prop o "prompt") (JArr refs) r
                  (s, set_requests (requests w ++ [(client, request)]) w)) as Hkeep.
    split.
    + destruct (edit_response env _ _ _ r _) as [[result|e] sys1]; simpl in *;
        [done|]. unfold new_McpError. run_m. done.
    + intros r' c [= <-] Hcand Hreason Hmk Hw.
      destruct (edit_response_succeeds (JStr p) (prop o "prompt") refs r c
                  (s, set_requests (requests w ++ [(client, request)]) w)
                  Hcand Hreason Hmk Hw) as (result & sys1 & ->).
      by exists result.
  - split; [done|]. intros r c Hresp. discriminate Hresp.
Qed.

End References.

(** C7.  In [edit_image] with a readable main image, and in
    [continue_editing] when the remembered image is readable, a list of
    reference paths never stops the call: the one request sent to the
    generation service carries the main image, then the references that
    could be read, in the order of the list, then the prompt; and when the
    rest of the operation succeeds, the call returns a result: the service
    answers with a first candidate that ended with [STOP] or [MAX_TOKENS],
    the images directory can be made, and the files of the images of the
    answer ([edit_outputs]) can be written.  Nothing is asked of any other
    path. *)
Theorem unreadable_references_are_skipped (env : Env) (name : string)
    (o : gmap string JSValue) (s : Server) (w : World) (client : GoogleGenAI)
    (p bytes : string) (refs : list JSValue) :
  config s <> None ->
  genAI s = Some client ->
  (name = "edit_image" /\ prop o "imagePath" = JStr p) \/
  (name = "continue_editing" /\ lastImagePath s = Some p) ->
  file_at w p = Some bytes ->
  prop o "referenceImages" = JArr refs ->
  let request :=
    edit_request (InlinePart (base64_encode env bytes) (getMimeType env p)
                  :: loaded_references env w refs ++ [TextPart (prop o "prompt")]) in
  let outcome := callTool env name (Some o) (s, w) in
  requests (snd (snd outcome)) = requests w ++ [(client, request)]
  /\
  (forall r c,
     generateContent env client (requests w) request = Respond r ->
     first_candidate r = Some c ->
     finishReason c = Some "STOP" \/ finishReason c = Some "MAX_TOKENS" ->
     can_mkdir env (getImagesDirectory env) = true ->
     Forall (fun path => can_write env path = true)
       (edit_outputs env (clock w) (parts_of c)) ->
     exists result, fst outcome = Ok result).
Proof.
  intros Hc Hg [[-> Hpath]|[-> Hlast]] Hfile Hrefs.
  - by apply (edit_image_skips env o s w client p bytes refs).
  - assert (Hex : exists_at w p = true) by (unfold exists_at; by rewrite Hfile).
    rewrite (callTool_continue env s w p o
               (<["imagePath" := JStr p]>
                (<["prompt" := prop o "prompt"]>
                 (<["referenceImages" := prop o "referenceImages"]> ∅)))
               Hlast Hex).
    + assert (Hprompt : prop (<["imagePath" := JStr p]>
                              (<["prompt" := prop o "prompt"]>
                               (<["referenceImages" := prop o "referenceImages"]> ∅)))
                          "prompt" = prop o "prompt").
      { unfold prop at 1. rewrite lookup_insert_ne by done.
        by rewrite lookup_insert_eq. }
      rewrite <- Hprompt.
      apply (edit_image_skips env _ s w client p bytes refs); try done.
      all: try rewrite <- Hrefs; unfold prop at 1;
        rewrite ?lookup_insert_ne by done; by rewrite lookup_insert_eq.
    + unfold prop. by rewrite lookup_insert_eq.
    + unfold prop at 1. rewrite lookup_insert_ne by done.
      by rewrite lookup_insert_eq.
    + unfold prop at 1. rewrite !lookup_insert_ne by done.
      by rewrite lookup_insert_eq.
Qed.

(** On the machine whose configuration file cannot be written: of the
    references [/nope] and [/work/ref.JPG] only the second can be read; the
    request carries the main image, that reference and the prompt, and the
    call returns a result. *)
Lemma unreadable_references_are_skipped_witness :
  let o : gmap string JSValue :=
    <["imagePath" := JStr "/work/generated_imgs/cat.png"]>
    (<["prompt" := JStr "add a hat"]>
     {["referenceImages" := JArr [JStr "/nope"; JStr "/work/ref.JPG"]]}) in
  let outcome :=
    callTool Sample.guarded "edit_image" (Some o) (Sample.ready, Sample.disk) in
  can_write Sample.guarded "/work/.nano-banana-config.json" = false
  /\ requests (snd (snd outcome))
     = [(client_of Sample.key_only,
         edit_request [InlinePart "CATBYTES" "image/png";
                       InlinePart "REFBYTES" "image/jpeg";
                       TextPart (JStr "add a hat")])]
  /\ exists result, fst outcome = Ok result.
Proof.
  destruct (unreadable_references_are_skipped Sample.guarded "edit_image"
              (<["imagePath" := JStr "/work/generated_imgs/cat.png"]>
               (<["prompt" := JStr "add a hat"]>
                {["referenceImages" := JArr [JStr "/nope"; JStr "/work/ref.JPG"]]}))
              Sample.ready Sample.disk (client_of Sample.key_only)
              "/work/generated_imgs/cat.png" "CATBYTES"
              [JStr "/nope"; JStr "/work/ref.JPG"])
    as [Hrequest Hresult];
    [discriminate | reflexivity | left; split; reflexivity
    | reflexivity | reflexivity | ].
  split; [reflexivity|]. split.
  - exact Hrequest.
  - apply (Hresult Sample.one_image
             {| finishReason := Some "STOP";
                content := Some {| parts := Some
                  [{| part_text := Some "A red circle."; part_inlineData := None |};
                   {| part_text := None;
                      part_inlineData :=
                        Some {| inline_data := Some "aW1n";
                                inline_mimeType := Some "image/png" |} |}] |} |});
      [reflexivity | reflexivity | left; reflexivity | reflexivity
      | repeat constructor].
Defined.

(** * Further properties of the methods *)

(** ** Computations that only read *)

Lemma pure_ret {A} (a : A) : pure (ret a).
Proof. done. Qed.

Lemma pure_throw {A} (e : JsError) : pure (@throw A e).
Proof. done. Qed.

Lemma pure_get_server : pure get_server.
Proof. done. Qed.

Lemma pure_get_world : pure get_world.
Proof. done. Qed.

Lemma pure_bind {A B} (m : M A) (k : A -> M B) :
  pure m -> (forall a, pure (k a)) -> pure (bind m k).
Proof.
  intros Hm Hk sys. unfold bind. specialize (Hm sys).
  destruct (m sys) as [[a|e] sys1]; simpl in *; subst; [apply Hk|done].
Qed.

Lemma pure_try_catch {A} (body : M A) (handler : JsError -> M A) :
  pure body -> (forall e, pure (handler e)) -> pure (try_catch body handler).
Proof.
  intros Hb Hh sys. unfold try_catch. specialize (Hb sys).
  destruct (body sys) as [[a|e] sys1]; simpl in *; subst; [done|apply Hh].
Qed.

Lemma pure_for_of {X A} (body : X -> A -> M A) (l : list X) (acc : A) :
  (forall x a, pure (body x a)) -> pure (for_of l body acc).
Proof.
  intros Hbody. revert acc. induction l as [|x l IH]; intros acc; simpl.
  - apply pure_ret.
  - apply pure_bind; [apply Hbody|]. intros a. apply IH.
Qed.

(** The head of an application. *)
Ltac head_of t :=
  lazymatch t with
  | ?f _ => head_of f
  | _ => t
  end.

(** One step of the proof that a computation only reads: the monad's
    operations by their lemmas, a test by cases, a method by its
    definition. *)
Ltac pure_step :=
  lazymatch goal with
  | |- pure (bind _ _) => apply pure_bind; [|intros ?]
  | |- pure (ret _) => apply pure_ret
  | |- pure (throw _) => apply pure_throw
  | |- pure (try_catch _ _) => apply pure_try_catch; [|intros ?]
  | |- pure (for_of _ _ _) => apply pure_for_of; intros ? ?
  | |- pure get_server => apply pure_get_server
  | |- pure get_world => apply pure_get_world
  | |- pure (if ?b then _ else _) => destruct b
  | |- pure (match ?x with _ => _ end) => destruct x
  | |- pure ?m => let h := head_of m in progress (unfold h; cbv beta zeta)
  end.

Ltac pure_auto := repeat pure_step.

Section Reading.

Variable env : Env.

Lemma pure_ensureConfigured : pure ensureConfigured.
Proof. pure_auto. Qed.

Lemma pure_destructure (args : Arguments_) : pure (destructure env args).
Proof. pure_auto. Qed.

Lemma pure_readFile (path : JSValue) : pure (fs_readFile env path).
Proof. pure_auto. Qed.

Lemma pure_access (path : string) : pure (fs_access env path).
Proof. pure_auto. Qed.

Lemma pure_mkdir (dir : string) : pure (fs_mkdir env dir).
Proof. pure_auto. Qed.

Lemma pure_validate (r : Response) : pure (validate_response r).
Proof. pure_auto. Qed.

Lemma pure_edit_parts (imagePath prompt referenceImages : JSValue) :
  pure (edit_parts env imagePath prompt referenceImages).
Proof. pure_auto. Qed.

Lemma pure_edit_status (imagePath prompt referenceImages : JSValue) (l : Locals) :
  pure (edit_status env imagePath prompt referenceImages l).
Proof. pure_auto. Qed.

Lemma pure_getLastImageInfo : pure (getLastImageInfo env).
Proof. pure_auto. Qed.

Lemma pure_getConfigurationStatus : pure (getConfigurationStatus env).
Proof. pure_auto. Qed.

End Reading.

(** ** Relations kept by every call

    [R] relates the server and the world before a computation to those after
    it.  When [R] is reflexive and transitive it goes through the monad's
    operations, so it holds for a method as soon as it holds for the few
    steps of the method that write. *)

Section Relations.

Variable env : Env.
Variable R : Sys -> Sys -> Prop.
Hypothesis R_refl : forall sys, R sys sys.
Hypothesis R_trans : forall a b c, R a b -> R b c -> R a c.

Lemma after_pure {A} (m : M A) : pure m -> after R m.
Proof using R_refl. intros H sys. rewrite H. apply R_refl. Qed.

Lemma after_bind {A B} (m : M A) (k : A -> M B) :
  after R m -> (forall a, after R (k a)) -> after R (bind m k).
Proof using R_trans.
  intros Hm Hk sys. unfold bind. specialize (Hm sys).
  destruct (m sys) as [[a|e] sys1]; simpl in *; [|done].
  eapply R_trans; [exact Hm|apply Hk].
Qed.

Lemma after_try_catch {A} (body : M A) (handler : JsError -> M A) :
  after R body -> (forall e, after R (handler e)) -> after R (try_catch body handler).
Proof using R_trans.
  intros Hb Hh sys. unfold try_catch. specialize (Hb sys).
  destruct (body sys) as [[a|e] sys1]; simpl in *; [done|].
  eapply R_trans; [exact Hb|apply Hh].
Qed.

Lemma after_for_of {X A} (body : X -> A -> M A) (l : list X) (acc : A) :
  (forall x a, after R (body x a)) -> after R (for_of l body acc).
Proof using R_refl R_trans.
  intros Hbody. revert acc. induction l as [|x l IH]; intros acc; simpl.
  - by apply after_pure.
  - apply after_bind; [apply Hbody|]. intros a. apply IH.
Qed.

(** The steps that write: the request to the service and one turn of each
    loop over the parts of a response. *)
Hypothesis R_send : forall request, after R (models_generateContent env request).
Hypothesis R_generate_part :
  forall p l, after R (generate_part env (getImagesDirectory env) p l).
Hypothesis R_edit_part :
  forall p l, after R (edit_part env (getImagesDirectory env) p l).

Lemma after_generate_response (prompt : JSValue) (r : Response) :
  after R (generate_response env prompt r).
Proof using R_refl R_trans R_generate_part.
  unfold generate_response.
  apply after_bind; [apply after_pure, pure_validate|]. intros c.
  apply after_bind; [apply after_pure, pure_mkdir|]. intros _.
  apply after_bind; [apply after_for_of; intros; apply R_generate_part|]. intros l.
  by apply after_pure.
Qed.

Lemma after_edit_response (imagePath prompt referenceImages : JSValue) (r : Response) :
  after R (edit_response env imagePath prompt referenceImages r).
Proof using R_refl R_trans R_edit_part.
  unfold edit_response.
  apply after_bind; [apply after_pure, pure_validate|]. intros c.
  apply after_bind; [apply after_pure, pure_mkdir|]. intros _.
  apply after_bind; [apply after_for_of; intros; apply R_edit_part|]. intros l.
  apply after_bind; [apply after_pure, pure_edit_status|]. intros t.
  by apply after_pure.
Qed.

Lemma after_generateImage (args : Arguments_) : after R (generateImage env args).
Proof using R_refl R_trans R_send R_generate_part.
  unfold generateImage.
  apply after_bind; [apply after_pure, pure_ensureConfigured|]. intros [|]; simpl;
    [|by apply after_pure].
  apply after_bind; [apply after_pure, pure_destructure|]. intros o.
  apply after_try_catch; [|intros e; by apply after_pure].
  apply after_bind; [apply R_send|]. intros r. unfold generate_response.
  apply after_bind; [apply after_pure, pure_validate|]. intros c.
  apply after_bind; [apply after_pure, pure_mkdir|]. intros _.
  apply after_bind; [apply after_for_of; intros; apply R_generate_part|]. intros l.
  by apply after_pure.
Qed.

Lemma after_editImage (args : Arguments_) : after R (editImage env args).
Proof using R_refl R_trans R_send R_edit_part.
  unfold editImage.
  apply after_bind; [apply after_pure, pure_ensureConfigured|]. intros [|]; simpl;
    [|by apply after_pure].
  apply after_bind; [apply after_pure, pure_destructure|]. intros o.
  apply after_try_catch; [|intros e; by apply after_pure].
  apply after_bind; [apply after_pure, pure_edit_parts|]. intros ps.
  apply after_bind; [apply R_send|]. intros r. unfold edit_response.
  apply after_bind; [apply after_pure, pure_validate|]. intros c.
  apply after_bind; [apply after_pure, pure_mkdir|]. intros _.
  apply after_bind; [apply after_for_of; intros; apply R_edit_part|]. intros l.
  apply after_bind; [apply after_pure, pure_edit_status|]. intros t.
  by apply after_pure.
Qed.

Lemma after_continueEditing (args : Arguments_) : after R (continueEditing env args).
Proof using R_refl R_trans R_send R_edit_part.
  unfold continueEditing.
  apply after_bind; [apply after_pure, pure_ensureConfigured|]. intros [|]; simpl;
    [|by apply after_pure].
  apply after_bind; [by apply after_pure|]. intros s.
  destruct (present (lastImagePath s)); simpl; [|by apply after_pure].
  apply after_bind; [apply after_pure, pure_destructure|]. intros o.
  apply after_bind.
  - apply after_pure, pure_try_catch; [apply pure_access|]. intros e. apply pure_throw.
  - intros _. apply after_editImage.
Qed.

Lemma after_rethrow (e : JsError) : after R (rethrow env e).
Proof using R_refl. apply after_pure. by destruct e. Qed.

(** Every tool but [configure_gemini_token]. *)
Lemma after_tool (name : string) (args : Arguments_) :
  name <> "configure_gemini_token" ->
  after R (callTool env name args).
Proof using R_refl R_trans R_send R_generate_part R_edit_part.
  intros Hname. unfold callTool.
  apply after_try_catch; [|apply after_rethrow].
  unfold route.
  destruct (String.eqb name "configure_gemini_token") eqn:E;
    [by apply String.eqb_eq in E|].
  destruct (String.eqb name "generate_image"); [apply after_generateImage|].
  destruct (String.eqb name "edit_image"); [apply after_editImage|].
  destruct (String.eqb name "get_configuration_status");
    [apply after_pure, pure_getConfigurationStatus|].
  destruct (String.eqb name "continue_editing"); [apply after_continueEditing|].
  destruct (String.eqb name "get_last_image_info");
    [apply after_pure, pure_getLastImageInfo|].
  by apply after_pure.
Qed.

(** Every tool, when [R] also holds for a configuration. *)
Lemma after_callTool (name : string) (args : Arguments_) :
  (forall a, after R (callTool env "configure_gemini_token" a)) ->
  after R (callTool env name args).
Proof using R_refl R_trans R_send R_generate_part R_edit_part.
  intros Hconfigure.
  destruct (decide (name = "configure_gemini_token")) as [->|Hname].
  - apply Hconfigure.
  - by apply after_tool.
Qed.

End Relations.

(** ** What a call leaves untouched *)

(** The cases of a step that writes, one goal for each way through it. *)
Ltac step_cases :=
  intros; unfold after; intros [? ?];
  unfold generate_part, edit_part, new_file_path, fs_writeFile, models_generateContent;
  run_m;
  repeat (match goal with
          | |- context [match ?x with _ => _ end] =>
              lazymatch x with
              | context [match _ with _ => _ end] => fail
              | _ => destruct x
              end
          end; run_m).

Section Untouched.

Variable env : Env.

(** The state after a call is the state after its [switch]: the handler's
    [catch] only rethrows. *)
Lemma snd_callTool (name : string) (args : Arguments_) (sys : Sys) :
  snd (callTool env name args sys) = snd (route env name args sys).
Proof.
  unfold callTool, try_catch.
  destruct (route env name args sys) as [[a|e] sys1]; [done|]. by destruct e.
Qed.

(** A configuration either changes nothing or stores an accepted
    configuration and tries to save it. *)
Lemma configure_state (args : Arguments_) (sys : Sys) :
  snd (callTool env "configure_gemini_token" args sys) = sys \/
  exists c,
    snd (callTool env "configure_gemini_token" args sys)
    = (reconfigured c (fst sys), saved env c (snd sys)).
Proof.
  destruct args as [o|]; [|by left].
  destruct (ConfigSchema_issues env (configData_of o)) as [|m rest] eqn:E.
  - right. exists (accepted_config o). destruct sys as [s w].
    apply (configure_accepted env o s w E).
  - left. destruct (configure_rejected env o sys) as [text ->]; [by rewrite E|done].
Qed.

Lemma same_credential_refl (sys : Sys) : same_credential sys sys.
Proof. done. Qed.

Lemma same_credential_trans (a b c : Sys) :
  same_credential a b -> same_credential b c -> same_credential a c.
Proof.
  unfold same_credential. intros (H1 & H2 & H3) (H4 & H5 & H6).
  by rewrite H4, H5, H6.
Qed.

Lemma no_file_lost_refl (sys : Sys) : no_file_lost sys sys.
Proof. by intros p. Qed.

Lemma no_file_lost_trans (a b c : Sys) :
  no_file_lost a b -> no_file_lost b c -> no_file_lost a c.
Proof. intros H1 H2 p Hp. by apply H2, H1. Qed.

Lemma insert_keeps_file (files : gmap string string) (path bytes p : string) :
  is_Some (files !! p) -> is_Some (<[path := bytes]> files !! p).
Proof.
  intros H. destruct (decide (path = p)) as [->|Hne].
  - rewrite lookup_insert_eq. by eexists.
  - by rewrite lookup_insert_ne.
Qed.

Lemma keeps_session_refl (sys : Sys) : keeps_session_on_disk sys sys.
Proof. by intros H. Qed.

Lemma keeps_session_trans (a b c : Sys) :
  keeps_session_on_disk a b -> keeps_session_on_disk b c -> keeps_session_on_disk a c.
Proof. intros H1 H2 H. by apply H2, H1. Qed.

(** Writing a file and then remembering its path keeps the session on
    disk. *)
Lemma session_after_write (s : Server) (w w' : World) (path bytes : string) :
  files w' = <[path := bytes]> (files w) ->
  session_on_disk (set_lastImagePath (Some path) s, w').
Proof.
  intros Hf p Hp. simpl in *. inversion Hp; subst p.
  rewrite Hf, lookup_insert_eq. by eexists.
Qed.

Lemma session_same_files (s : Server) (w w' : World) :
  files w' = files w ->
  session_on_disk (s, w) -> session_on_disk (s, w').
Proof. intros Hf H p Hp. simpl in *. rewrite Hf. by apply H. Qed.

End Untouched.

(** X1.  Only [configure_gemini_token] touches the credential: after a call
    of any other tool, known or not, with any arguments and whatever its
    outcome, the configuration, the client and the provenance are the ones
    from before the call. *)
Theorem other_tools_keep_the_credential (env : Env) (name : string)
    (args : Arguments_) (sys : Sys) :
  name <> "configure_gemini_token" ->
  same_credential sys (snd (callTool env name args sys)).
Proof.
  intros Hname. revert sys.
  apply (after_tool env same_credential same_credential_refl same_credential_trans).
  all: try by step_cases.
  done.
Qed.

(** On the sample machine: a generation that saves an image keeps the
    credential. *)
Lemma other_tools_keep_the_credential_witness :
  same_credential (Sample.ready, Sample.empty_disk)
    (snd (callTool Sample.env "generate_image" (Some {["prompt" := JStr "a red circle"]})
            (Sample.ready, Sample.empty_disk))).
Proof.
  apply (other_tools_keep_the_credential Sample.env "generate_image"
           (Some {["prompt" := JStr "a red circle"]}) (Sample.ready, Sample.empty_disk)).
  discriminate.
Defined.

(** X2.  No call removes a file: a path that has a file before a call of any
    tool has one after it, whatever the arguments and the outcome. *)
Theorem no_call_removes_a_file (env : Env) (name : string) (args : Arguments_)
    (sys : Sys) (p : string) :
  is_Some (files (snd sys) !! p) ->
  is_Some (files (snd (snd (callTool env name args sys))) !! p).
Proof.
  revert p. change (no_file_lost sys (snd (callTool env name args sys))). revert sys.
  apply (after_callTool env no_file_lost no_file_lost_refl no_file_lost_trans).
  - step_cases; by intros q Hq.
  - step_cases; intros q Hq; simpl in *; first [done | by apply insert_keeps_file].
  - step_cases; intros q Hq; simpl in *; first [done | by apply insert_keeps_file].
  - intros a sys.
    destruct (configure_state env a sys) as [->|[c ->]]; [apply no_file_lost_refl|].
    intros p Hp. unfold saved. simpl.
    destruct (can_write env (configPath env)); [|done].
    by apply insert_keeps_file.
Qed.

(** On the sample machine: the reference picture is still there after an
    edit. *)
Lemma no_call_removes_a_file_witness :
  is_Some (files (snd (snd (callTool Sample.env "continue_editing"
                              (Some {["prompt" := JStr "add a hat"]})
                              (Sample.after_image, Sample.disk))))
           !! "/work/ref.JPG").
Proof.
  apply (no_call_removes_a_file Sample.env "continue_editing"
           (Some {["prompt" := JStr "add a hat"]}) (Sample.after_image, Sample.disk)
           "/work/ref.JPG").
  by eexists.
Defined.

(** X3.  The remembered path always names a file the disk holds: when this
    is so before a call of any tool, it is so after it, whether the call
    returns or throws. *)
Theorem session_stays_on_disk (env : Env) (name : string) (args : Arguments_)
    (sys : Sys) :
  session_on_disk sys ->
  session_on_disk (snd (callTool env name args sys)).
Proof.
  change (keeps_session_on_disk sys (snd (callTool env name args sys))). revert sys.
  apply (after_callTool env keeps_session_on_disk keeps_session_refl keeps_session_trans).
  - step_cases; unfold keeps_session_on_disk;
      first [done | by apply session_same_files].
  - step_cases; unfold keeps_session_on_disk;
      first [ done
            | by apply session_same_files
            | intros _; by eapply session_after_write ].
  - step_cases; unfold keeps_session_on_disk;
      first [ done
            | by apply session_same_files
            | intros _; by eapply session_after_write ].
  - intros a sys.
    destruct (configure_state env a sys) as [->|[c ->]]; [apply keeps_session_refl|].
    destruct sys as [s w]. intros H p Hp. simpl in *.
    unfold saved. destruct (can_write env (configPath env)); simpl.
    + apply insert_keeps_file. by apply H.
    + by apply H.
Qed.

(** On the sample machine, from the start of the server through a generation
    and an edit of its image. *)
Lemma session_stays_on_disk_witness :
  session_on_disk
    (snd (callTool Sample.env "continue_editing" (Some {["prompt" := JStr "add a hat"]})
            (snd (callTool Sample.env "generate_image"
                    (Some {["prompt" := JStr "a red circle"]})
                    (Sample.ready, Sample.empty_disk))))).
Proof.
  apply (session_stays_on_disk Sample.env "continue_editing").
  apply (session_stays_on_disk Sample.env "generate_image").
  intros p Hp. discriminate Hp.
Defined.

(** ** What a call writes and sends *)

Section Footprint.

Variable env : Env.

Lemma writes_only_refl (allowed : string -> Prop) (sys : Sys) :
  writes_only allowed sys sys.
Proof. by intros p Hp. Qed.

Lemma writes_only_trans (allowed : string -> Prop) (a b c : Sys) :
  writes_only allowed a b -> writes_only allowed b c -> writes_only allowed a c.
Proof.
  intros H1 H2 p Hp.
  destruct (decide (files (snd b) !! p = files (snd a) !! p)) as [E|E].
  - apply H2. by rewrite E.
  - by apply H1.
Qed.

Lemma insert_differs (files : gmap string string) (path bytes p : string) :
  <[path := bytes]> files !! p <> files !! p -> p = path.
Proof.
  intros H. destruct (decide (path = p)) as [->|Hne]; [done|].
  by rewrite lookup_insert_ne in H.
Qed.

Lemma generated_path (n : nat) :
  image_path env (path_join env [getImagesDirectory env; file_name env "generated" n]).
Proof. exists "generated", n. split; [by left|done]. Qed.

Lemma edited_path (n : nat) :
  image_path env (path_join env [getImagesDirectory env; file_name env "edited" n]).
Proof. exists "edited", n. split; [by right|done]. Qed.

(** Two relations in a row. *)
Lemma after_bind2 {A B} (R1 R2 R3 : Sys -> Sys -> Prop) (m : M A) (k : A -> M B) :
  (forall a b c, R1 a b -> R2 b c -> R3 a c) ->
  (forall a b, R1 a b -> R3 a b) ->
  after R1 m -> (forall a, after R2 (k a)) -> after R3 (bind m k).
Proof.
  intros H12 H1 Hm Hk sys. unfold bind. specialize (Hm sys).
  destruct (m sys) as [[a|e] sys1]; simpl in *; [|by apply H1].
  eapply H12; [exact Hm|apply Hk].
Qed.

Lemma after_try_catch2 {A} (R1 R2 R3 : Sys -> Sys -> Prop) (body : M A)
    (handler : JsError -> M A) :
  (forall a b c, R1 a b -> R2 b c -> R3 a c) ->
  (forall a b, R1 a b -> R3 a b) ->
  after R1 body -> (forall e, after R2 (handler e)) -> after R3 (try_catch body handler).
Proof.
  intros H12 H1 Hb Hh sys. unfold try_catch. specialize (Hb sys).
  destruct (body sys) as [[a|e] sys1]; simpl in *; [by apply H1|].
  eapply H12; [exact Hb|apply Hh].
Qed.

Lemma same_requests_refl (sys : Sys) : same_requests sys sys.
Proof. done. Qed.

Lemma same_requests_trans (a b c : Sys) :
  same_requests a b -> same_requests b c -> same_requests a c.
Proof. unfold same_requests. intros H1 H2. by rewrite H2. Qed.

Lemma same_then_once (a b c : Sys) :
  same_requests a b -> at_most_one_request b c -> at_most_one_request a c.
Proof. unfold same_requests, at_most_one_request. intros ->. done. Qed.

Lemma once_then_same (a b c : Sys) :
  at_most_one_request a b -> same_requests b c -> at_most_one_request a c.
Proof. unfold same_requests, at_most_one_request. intros H ->. done. Qed.

Lemma same_is_once (a b : Sys) : same_requests a b -> at_most_one_request a b.
Proof. by left. Qed.

Lemma same_requests_generate_part (p : Part) (l : Locals) :
  after same_requests (generate_part env (getImagesDirectory env) p l).
Proof. by step_cases. Qed.

Lemma same_requests_edit_part (p : Part) (l : Locals) :
  after same_requests (edit_part env (getImagesDirectory env) p l).
Proof. by step_cases. Qed.

Lemma once_send (request : GenRequest) :
  after at_most_one_request (models_generateContent env request).
Proof. step_cases; first [by left | right; by eexists]. Qed.

Lemma once_generateImage (args : Arguments_) :
  after at_most_one_request (generateImage env args).
Proof.
  unfold generateImage.
  apply (after_bind2 same_requests at_most_one_request _ _ _ same_then_once same_is_once);
    [apply (after_pure same_requests same_requests_refl), pure_ensureConfigured|].
  intros [|]; simpl; [|apply (after_pure _ (fun sys => same_is_once _ _ (same_requests_refl sys))), pure_throw].
  apply (after_bind2 same_requests at_most_one_request _ _ _ same_then_once same_is_once);
    [apply (after_pure same_requests same_requests_refl), pure_destructure|].
  intros o.
  apply (after_try_catch2 at_most_one_request same_requests _ _ _ once_then_same
           (fun a b H => H)); [|intros e; by apply (after_pure same_requests)].
  apply (after_bind2 at_most_one_request same_requests _ _ _ once_then_same
           (fun a b H => H)); [apply once_send|].
  intros r.
  apply (after_generate_response env same_requests same_requests_refl
           same_requests_trans same_requests_generate_part).
Qed.

Lemma once_editImage (args : Arguments_) :
  after at_most_one_request (editImage env args).
Proof.
  unfold editImage.
  apply (after_bind2 same_requests at_most_one_request _ _ _ same_then_once same_is_once);
    [apply (after_pure same_requests same_requests_refl), pure_ensureConfigured|].
  intros [|]; simpl; [|apply (after_pure _ (fun sys => same_is_once _ _ (same_requests_refl sys))), pure_throw].
  apply (after_bind2 same_requests at_most_one_request _ _ _ same_then_once same_is_once);
    [apply (after_pure same_requests same_requests_refl), pure_destructure|].
  intros o.
  apply (after_try_catch2 at_most_one_request same_requests _ _ _ once_then_same
           (fun a b H => H)); [|intros e; by apply (after_pure same_requests)].
  apply (after_bind2 same_requests at_most_one_request _ _ _ same_then_once same_is_once);
    [apply (after_pure same_requests same_requests_refl), pure_edit_parts|].
  intros ps.
  apply (after_bind2 at_most_one_request same_requests _ _ _ once_then_same
           (fun a b H => H)); [apply once_send|].
  intros r.
  apply (after_edit_response env same_requests same_requests_refl
           same_requests_trans same_requests_edit_part).
Qed.

Lemma once_continueEditing (args : Arguments_) :
  after at_most_one_request (continueEditing env args).
Proof.
  intros sys.
  pose proof (once_editImage) as Hedit.
  unfold continueEditing, ensureConfigured. run_m.
  destruct (configured (fst sys)); run_m; [|by left].
  destruct (present (lastImagePath (fst sys))); run_m; [|by left].
  destruct args as [o|]; run_m; [|by left].
  unfold fs_access. run_m.
  destruct (exists_at (snd sys) _); run_m; [|by left].
  destruct sys as [s w]. apply Hedit.
Qed.

(** The three tools that generate, and the others. *)
Lemma route_reads (name : string) (args : Arguments_) :
  name ∉ ["configure_gemini_token"; "generate_image"; "edit_image"; "continue_editing"] ->
  pure (route env name args).
Proof.
  intros Hname. unfold route.
  repeat match goal with
         | |- context [String.eqb name ?t] =>
             destruct (String.eqb_spec name t) as [->|?];
             [ first [ apply pure_getConfigurationStatus
                     | apply pure_getLastImageInfo
                     | exfalso; apply Hname; rewrite !elem_of_cons; auto 10 ] |]
         end.
  apply pure_throw.
Qed.

End Footprint.

(** X4.  A call of a tool changes the content of a file only at the path of
    the configuration file, for [configure_gemini_token], and only at paths
    of the images directory whose name is [generated-] or [edited-], a
    timestamp, a random part and [.png], for every other tool. *)
Theorem files_written_by_a_call (env : Env) (name : string) (args : Arguments_)
    (sys : Sys) (p : string) :
  files (snd (snd (callTool env name args sys))) !! p <> files (snd sys) !! p ->
  (name = "configure_gemini_token" /\ p = configPath env) \/
  (name <> "configure_gemini_token" /\ image_path env p).
Proof.
  intros Hp. destruct (decide (name = "configure_gemini_token")) as [->|Hname].
  - left. split; [done|].
    destruct (configure_state env args sys) as [E|[c E]]; rewrite E in Hp; [done|].
    unfold saved in Hp. simpl in Hp.
    destruct (can_write env (configPath env)); [|done].
    by apply insert_differs in Hp.
  - right. split; [done|]. revert p Hp.
    change (writes_only (image_path env) sys (snd (callTool env name args sys))).
    revert sys.
    apply (after_tool env (writes_only (image_path env))
             (writes_only_refl _) (writes_only_trans _)); [| | |done].
    + step_cases; by intros q Hq.
    + step_cases; intros q Hq; simpl in *; try done.
      apply insert_differs in Hq. subst q. apply generated_path.
    + step_cases; intros q Hq; simpl in *; try done.
      apply insert_differs in Hq. subst q. apply edited_path.
Qed.

(** On the sample machine: the file that a generation adds. *)
Lemma files_written_by_a_call_witness :
  image_path Sample.env
    "/work/generated_imgs/generated-2025-01-02T03-04-05-678Z-k9x2mq.png".
Proof.
  destruct (files_written_by_a_call Sample.env "generate_image"
              (Some {["prompt" := JStr "a red circle"]})
              (Sample.ready, Sample.empty_disk)
              "/work/generated_imgs/generated-2025-01-02T03-04-05-678Z-k9x2mq.png")
    as [[H _]|[_ H]].
  - vm_compute. discriminate.
  - discriminate H.
  - exact H.
Defined.

(** X5.  A call sends at most one request to the generation service, and
    only [generate_image], [edit_image] and [continue_editing] send any: the
    list of requests after the call is the list before it, or that list
    with one request added at its end. *)
Theorem at_most_one_request_per_call (env : Env) (name : string)
    (args : Arguments_) (sys : Sys) :
  at_most_one_request sys (snd (callTool env name args sys)) /\
  (name ∉ ["generate_image"; "edit_image"; "continue_editing"] ->
   requests (snd (snd (callTool env name args sys))) = requests (snd sys)).
Proof.
  rewrite snd_callTool.
  assert (Hconf : forall a s, requests (snd (snd (route env "configure_gemini_token" a s)))
                              = requests (snd s)).
  { intros a s. rewrite <- snd_callTool.
    destruct (configure_state env a s) as [->|[c ->]]; [done|].
    unfold saved. simpl. by destruct (can_write env (configPath env)). }
  destruct (decide (name = "configure_gemini_token")) as [->|Hc].
  { split; [left|intros _]; apply Hconf. }
  destruct (decide (name = "generate_image")) as [->|Hg].
  { split; [apply once_generateImage|intros H; exfalso; apply H; rewrite !elem_of_cons; auto 10]. }
  destruct (decide (name = "edit_image")) as [->|He].
  { split; [apply once_editImage|intros H; exfalso; apply H; rewrite !elem_of_cons; auto 10]. }
  destruct (decide (name = "continue_editing")) as [->|Hk].
  { split; [apply once_continueEditing|intros H; exfalso; apply H; rewrite !elem_of_cons; auto 10]. }
  assert (Hpure : pure (route env name args)).
  { apply route_reads. rewrite !elem_of_cons, elem_of_nil. tauto. }
  rewrite Hpure. split; [by left|done].
Qed.

(** On the sample machine: the status sends nothing. *)
Lemma at_most_one_request_per_call_witness :
  requests (snd (snd (callTool Sample.env "get_configuration_status" None
                        (Sample.ready, Sample.disk))))
  = requests Sample.disk.
Proof.
  apply (proj2 (at_most_one_request_per_call Sample.env "get_configuration_status" None
                  (Sample.ready, Sample.disk))).
  rewrite !elem_of_cons, elem_of_nil. intros [H|[H|[H|H]]]; try discriminate H. exact H.
Defined.

(** ** Error codes of the tools *)

Section Codes.

Variable env : Env.

Lemma bind_within {A B} (codes : list ErrorCode) (m : M A) (k : A -> M B) (sys : Sys) :
  throws_within codes (fst (m sys)) ->
  (forall a sys', throws_within codes (fst (k a sys'))) ->
  throws_within codes (fst (bind m k sys)).
Proof.
  intros Hm Hk. unfold bind. destruct (m sys) as [[a|e] sys']; simpl in *.
  - apply Hk.
  - exact Hm.
Qed.

Lemma wrapped_within {A} (codes : list ErrorCode) (body : M A)
    (text : JsError -> string) (sys : Sys) :
  InternalError ∈ codes ->
  throws_within codes
    (fst (try_catch body
            (fun error => throw (new_McpError InternalError (text error))) sys)).
Proof.
  intros Hin. unfold try_catch. by destruct (body sys) as [[a|e] sys'].
Qed.

Lemma destructure_within (codes : list ErrorCode) (args : Arguments_) (sys : Sys) :
  throws_within codes (fst (destructure env args sys)).
Proof. by destruct args. Qed.

Lemma generateImage_within (args : Arguments_) (sys : Sys) :
  throws_within [InvalidRequest; InternalError] (fst (generateImage env args sys)).
Proof.
  unfold generateImage. apply bind_within; [done|].
  intros [|] sys1; simpl; [|by left].
  apply bind_within; [apply destructure_within|].
  intros o sys2. apply wrapped_within. right. by left.
Qed.

Lemma editImage_within (args : Arguments_) (sys : Sys) :
  throws_within [InvalidRequest; InternalError] (fst (editImage env args sys)).
Proof.
  unfold editImage. apply bind_within; [done|].
  intros [|] sys1; simpl; [|by left].
  apply bind_within; [apply destructure_within|].
  intros o sys2. apply wrapped_within. right. by left.
Qed.

Lemma continueEditing_within (args : Arguments_) (sys : Sys) :
  throws_within [InvalidRequest; InternalError] (fst (continueEditing env args sys)).
Proof.
  unfold continueEditing. apply bind_within; [done|].
  intros [|] sys1; simpl; [|by left].
  apply bind_within; [done|].
  intros s sys2. destruct (present (lastImagePath s)); simpl; [|by left].
  apply bind_within; [apply destructure_within|].
  intros o sys3. apply bind_within.
  - unfold try_catch. destruct (fs_access _ _ _) as [[a|e] sys']; [done|]. by left.
  - intros _ sys4. apply editImage_within.
Qed.

Lemma configureGeminiToken_within (args : Arguments_) (sys : Sys) :
  throws_within [InvalidParams] (fst (configureGeminiToken env args sys)).
Proof.
  unfold configureGeminiToken. apply bind_within; [apply destructure_within|].
  intros o sys1. unfold try_catch.
  match goal with
  | |- context [let (_, _) := ?body sys1 in _] =>
      assert (Hbody : throws_within [] (fst (body sys1)))
  end.
  { apply bind_within.
    - unfold ConfigSchema_parse.
      destruct (ConfigSchema_issues env _); [|done].
      by repeat match goal with |- context [match ?x with _ => _ end] => destruct x end.
    - intros c sys2. apply bind_within; [done|]. intros _ sys3.
      apply bind_within; [done|]. intros _ sys4.
      apply bind_within; [done|]. intros _ sys5.
      apply bind_within; [|done].
      unfold saveConfig, fs_writeFile. run_m.
      destruct (config (fst sys5)); run_m; [|done].
      by destruct (can_write env (configPath env)). }
  match goal with
  | |- context [let (_, _) := ?body sys1 in _] => destruct (body sys1) as [[a|e] sys2]
  end; [done|].
  destruct e; simpl in *; [by apply elem_of_nil in Hbody|by left|done].
Qed.

(** The two tools that report never throw and change nothing. *)
Lemma getConfigurationStatus_returns (sys : Sys) :
  exists t, getConfigurationStatus env sys = (Ok [TextItem t], sys).
Proof.
  unfold getConfigurationStatus. run_m. destruct (configured (fst sys)); by eexists.
Qed.

Lemma getLastImageInfo_returns (sys : Sys) :
  exists t, getLastImageInfo env sys = (Ok [TextItem t], sys).
Proof.
  unfold getLastImageInfo, fs_access. run_m.
  destruct (present (lastImagePath (fst sys))); run_m; [|by eexists].
  destruct (exists_at (snd sys) _); run_m; by eexists.
Qed.

(** The handler turns the codes of a method into the codes of the call. *)
Lemma callTool_raises (codes : list ErrorCode) (name : string) (args : Arguments_)
    (sys : Sys) :
  throws_within codes (fst (route env name args sys)) ->
  raises_only (InternalError :: codes) (fst (callTool env name args sys)).
Proof.
  intros H. unfold callTool, try_catch.
  destruct (route env name args sys) as [[a|e] sys']; simpl in *; [done|].
  destruct e; simpl; [by right|by left..].
Qed.

Lemma unknown_tool (name : string) (args : Arguments_) (sys : Sys) :
  name ∉ map tool_name listTools ->
  callTool env name args sys
  = (Throw (new_McpError MethodNotFound ("Unknown tool: " +:+ name)), sys).
Proof.
  intros Hname. unfold callTool, try_catch, route.
  repeat match goal with
         | |- context [String.eqb name ?t] =>
             destruct (String.eqb_spec name t) as [->|?];
             [ exfalso; apply Hname; simpl; rewrite !elem_of_cons; auto 10 |]
         end.
  done.
Qed.

Lemma known_tool (name : string) (args : Arguments_) (sys : Sys) :
  name ∈ map tool_name listTools ->
  raises_only [InternalError; InvalidParams; InvalidRequest]
    (fst (callTool env name args sys)).
Proof.
  simpl. rewrite !elem_of_cons, elem_of_nil.
  assert (Hweak : forall codes (out : Outcome CallToolResult),
            codes ⊆ [InternalError; InvalidParams; InvalidRequest] ->
            raises_only codes out ->
            raises_only [InternalError; InvalidParams; InvalidRequest] out).
  { intros codes [a|[c m| |]] Hsub; simpl; try done. apply Hsub. }
  intros [->|[->|[->|[->|[->|[->|[]]]]]]].
  - apply (Hweak [InternalError; InvalidParams]); [intros x; rewrite !elem_of_cons, !elem_of_nil; tauto|].
    apply callTool_raises, configureGeminiToken_within.
  - apply (Hweak [InternalError; InvalidRequest; InternalError]); [intros x; rewrite !elem_of_cons, !elem_of_nil; tauto|].
    apply callTool_raises, generateImage_within.
  - apply (Hweak [InternalError; InvalidRequest; InternalError]); [intros x; rewrite !elem_of_cons, !elem_of_nil; tauto|].
    apply callTool_raises, editImage_within.
  - unfold callTool, try_catch.
    change (route env "get_configuration_status" args) with (getConfigurationStatus env).
    by destruct (getConfigurationStatus_returns sys) as [t ->].
  - apply (Hweak [InternalError; InvalidRequest; InternalError]); [intros x; rewrite !elem_of_cons, !elem_of_nil; tauto|].
    apply callTool_raises, continueEditing_within.
  - unfold callTool, try_catch.
    change (route env "get_last_image_info" args) with (getLastImageInfo env).
    by destruct (getLastImageInfo_returns sys) as [t ->].
Qed.

End Codes.

(** X6.  The names the handler routes are exactly the names of the tool
    list.  A call with any other name fails with [MethodNotFound], a message
    that contains the name, and no change; a call with a listed name never
    fails with [MethodNotFound]. *)
Theorem method_not_found_iff_unlisted (env : Env) (name : string)
    (args : Arguments_) (sys : Sys) :
  (name ∉ map tool_name listTools ->
   exists msg,
     callTool env name args sys = (Throw (McpError MethodNotFound msg), sys)
     /\ includes msg name)
  /\
  (name ∈ map tool_name listTools ->
   ~ fails_with MethodNotFound (callTool env name args sys)).
Proof.
  split.
  - intros Hname. rewrite (unknown_tool env name args sys Hname).
    destruct (new_McpError_includes MethodNotFound ("Unknown tool: " +:+ name) name)
      as (msg & -> & Hin); [apply includes_end|].
    by exists msg.
  - intros Hname [msg H].
    pose proof (known_tool env name args sys Hname) as Hcodes.
    rewrite H in Hcodes. simpl in Hcodes.
    rewrite !elem_of_cons, elem_of_nil in Hcodes.
    destruct Hcodes as [?|[?|[?|[]]]]; discriminate.
Qed.

(** On the sample machine: the name of the tool in another letter case is
    not a tool. *)
Lemma method_not_found_iff_unlisted_witness :
  exists msg,
    callTool Sample.env "Generate_Image" (Some {["prompt" := JStr "a red circle"]})
      (Sample.ready, Sample.disk)
    = (Throw (McpError MethodNotFound msg), (Sample.ready, Sample.disk))
    /\ includes msg "Generate_Image".
Proof.
  apply (proj1 (method_not_found_iff_unlisted Sample.env "Generate_Image"
                  (Some {["prompt" := JStr "a red circle"]}) (Sample.ready, Sample.disk))).
  simpl. rewrite !elem_of_cons, elem_of_nil.
  intros [H|[H|[H|[H|[H|[H|H]]]]]]; try discriminate H. exact H.
Defined.

(** X7.  The error codes of each tool.  [generate_image], [edit_image] and
    [continue_editing] return a result or fail with [InvalidRequest] or
    [InternalError]; [configure_gemini_token] returns a result or fails with
    [InvalidParams] or [InternalError]; [get_configuration_status] and
    [get_last_image_info] always return one text and change nothing,
    whatever the arguments and the state.  Nothing that is thrown leaves the
    handler without being an [McpError]. *)
Theorem error_codes_of_the_tools (env : Env) (name : string) (args : Arguments_)
    (sys : Sys) :
  (name ∈ ["generate_image"; "edit_image"; "continue_editing"] ->
   raises_only [InvalidRequest; InternalError] (fst (callTool env name args sys)))
  /\
  (name = "configure_gemini_token" ->
   raises_only [InvalidParams; InternalError] (fst (callTool env name args sys)))
  /\
  (name ∈ ["get_configuration_status"; "get_last_image_info"] ->
   exists t, callTool env name args sys = (Ok [TextItem t], sys)).
Proof.
  assert (Hweak : forall codes codes' (out : Outcome CallToolResult),
            codes ⊆ codes' -> raises_only codes out -> raises_only codes' out).
  { intros codes codes' [a|[c m| |]] Hsub; simpl; try done. apply Hsub. }
  repeat split.
  - rewrite !elem_of_cons, elem_of_nil. intros [->|[->|[->|[]]]].
    + apply (Hweak [InternalError; InvalidRequest; InternalError]); [intros x; rewrite !elem_of_cons, !elem_of_nil; tauto|].
      apply callTool_raises, generateImage_within.
    + apply (Hweak [InternalError; InvalidRequest; InternalError]); [intros x; rewrite !elem_of_cons, !elem_of_nil; tauto|].
      apply callTool_raises, editImage_within.
    + apply (Hweak [InternalError; InvalidRequest; InternalError]); [intros x; rewrite !elem_of_cons, !elem_of_nil; tauto|].
      apply callTool_raises, continueEditing_within.
  - intros ->.
    apply (Hweak [InternalError; InvalidParams]); [intros x; rewrite !elem_of_cons, !elem_of_nil; tauto|].
    apply callTool_raises, configureGeminiToken_within.
  - rewrite !elem_of_cons, elem_of_nil. intros [->|[->|[]]].
    + unfold callTool, try_catch.
      change (route env "get_configuration_status" args) with (getConfigurationStatus env).
      destruct (getConfigurationStatus_returns env sys) as [t ->]. by exists t.
    + unfold callTool, try_catch.
      change (route env "get_last_image_info" args) with (getLastImageInfo env).
      destruct (getLastImageInfo_returns env sys) as [t ->]. by exists t.
Qed.

(** On the sample machine: the information on the last image when the file
    is gone. *)
Lemma error_codes_of_the_tools_witness :
  exists t,
    callTool Sample.env "get_last_image_info" None (Sample.after_image, Sample.empty_disk)
    = (Ok [TextItem t], (Sample.after_image, Sample.empty_disk)).
Proof.
  apply (proj2 (proj2 (error_codes_of_the_tools Sample.env "get_last_image_info" None
                         (Sample.after_image, Sample.empty_disk)))).
  right. left.
Defined.

(** ** Start of the server *)

Section Startup.

Variable env : Env.

Lemma ConfigSchema_parse_ok (d : ConfigData) (sys : Sys) :
  ConfigSchema_issues env d = [] ->
  ConfigSchema_parse env d sys = (Ok (config_of_data d), sys).
Proof.
  intros H. unfold ConfigSchema_parse. rewrite H.
  unfold ConfigSchema_issues in H. apply app_eq_nil in H as [Hk _].
  apply geminiApiKey_issues_nil in Hk. unfold config_of_data.
  destruct (data_geminiApiKey d); simpl in Hk; try done.
  by destruct (data_baseUrl d).
Qed.

Lemma ConfigSchema_parse_fails (d : ConfigData) (sys : Sys) :
  ConfigSchema_issues env d <> [] ->
  exists issues, ConfigSchema_parse env d sys = (Throw (ZodError issues), sys).
Proof.
  intros H. unfold ConfigSchema_parse.
  destruct (ConfigSchema_issues env d) as [|m rest]; [done|]. by eexists.
Qed.

(** The fallback of [loadConfig] to the configuration file. *)
Lemma load_from_file (s : Server) (w : World) :
  snd (try_catch
         (configData <- fs_readFile env (JStr (configPath env)) ;;
          match parse_config_file env configData with
          | Some c =>
              assign (set_config (Some c)) ;;;
              assign (set_genAI (Some (client_of c))) ;;;
              assign (set_configSource config_file)
          | None => throw (ZodError [])
          end)
         (fun _ => assign (set_configSource not_configured)) (s, w))
  = (match file_config env w with
     | Some c => loaded c config_file s
     | None => set_configSource not_configured s
     end, w)
  /\
  fst (try_catch
         (configData <- fs_readFile env (JStr (configPath env)) ;;
          match parse_config_file env configData with
          | Some c =>
              assign (set_config (Some c)) ;;;
              assign (set_genAI (Some (client_of c))) ;;;
              assign (set_configSource config_file)
          | None => throw (ZodError [])
          end)
         (fun _ => assign (set_configSource not_configured)) (s, w))
  = Ok tt.
Proof.
  unfold file_config, fs_readFile. run_m.
  destruct (file_at w (configPath env)) as [text|]; run_m; [|done].
  destruct (parse_config_file env text) as [c|]; run_m; done.
Qed.

Lemma env_data_none (s : Server) (w : World) :
  env_data env = None ->
  run env (s, w)
  = (Ok tt, (match file_config env w with
             | Some c => loaded c config_file s
             | None => set_configSource not_configured s
             end, w)).
Proof.
  intros H. unfold run, loadConfig, env_data in *.
  destruct (load_from_file s w) as [Hs Ho].
  destruct (env_GEMINI_API_KEY env) as [key|]; simpl.
  - destruct (String.eqb key "") eqn:E; [|done]. simpl.
    rewrite (surjective_pairing (try_catch _ _ _)). by rewrite Hs, Ho.
  - rewrite (surjective_pairing (try_catch _ _ _)). by rewrite Hs, Ho.
Qed.

Lemma env_data_some (d : ConfigData) (s : Server) (w : World) :
  env_data env = Some d ->
  run env (s, w)
  = try_catch
      (c <- ConfigSchema_parse env d ;;
       assign (set_config (Some c)) ;;;
       assign (set_genAI (Some (client_of c))) ;;;
       assign (set_configSource environment))
      (fun _ =>
         try_catch
           (configData <- fs_readFile env (JStr (configPath env)) ;;
            match parse_config_file env configData with
            | Some c =>
                assign (set_config (Some c)) ;;;
                assign (set_genAI (Some (client_of c))) ;;;
                assign (set_configSource config_file)
            | None => throw (ZodError [])
            end)
           (fun _ => assign (set_configSource not_configured)))
      (s, w).
Proof.
  intros H. unfold run, loadConfig, env_data in *.
  destruct (env_GEMINI_API_KEY env) as [key|]; [|done]. simpl.
  destruct (String.eqb key "") eqn:E; [done|]. simpl.
  inversion H; subst d; clear H.
  destruct (env_GEMINI_BASE_URL env) as [u|]; simpl; [|done].
  by destruct (String.eqb u "").
Qed.

Lemma run_env_accepted (d : ConfigData) (s : Server) (w : World) :
  env_data env = Some d ->
  ConfigSchema_issues env d = [] ->
  run env (s, w) = (Ok tt, (loaded (config_of_data d) environment s, w)).
Proof.
  intros Hd Hissues. rewrite (env_data_some d s w Hd).
  unfold try_catch at 1. unfold bind at 1.
  by rewrite (ConfigSchema_parse_ok d (s, w) Hissues).
Qed.

Lemma run_env_refused (d : ConfigData) (s : Server) (w : World) :
  env_data env = Some d ->
  ConfigSchema_issues env d <> [] ->
  run env (s, w)
  = (Ok tt, (match file_config env w with
             | Some c => loaded c config_file s
             | None => set_configSource not_configured s
             end, w)).
Proof.
  intros Hd Hissues. rewrite (env_data_some d s w Hd).
  destruct (ConfigSchema_parse_fails d (s, w) Hissues) as [issues Hfail].
  destruct (load_from_file s w) as [Hs Ho].
  unfold try_catch at 1. unfold bind at 1. rewrite Hfail.
  rewrite (surjective_pairing (try_catch _ _ (s, w))). by rewrite Hs, Ho.
Qed.

End Startup.

(** X8.  How [loadConfig] resolves the credential when the server starts.
    It never throws and writes nothing.  A key in the environment that the
    schema accepts, with its base URL, is used and marked [environment],
    whatever the configuration file holds.  Without a key in the
    environment, or with an empty one, or when the schema refuses the
    environment (a base URL that is not a URL makes the key unused), the
    configuration file decides: a file that is there and valid is used and
    marked [config_file]; otherwise the credential is left as it was and
    the provenance is [not_configured]. *)
Theorem startup_resolution (env : Env) (s : Server) (w : World) :
  fst (run env (s, w)) = Ok tt /\
  snd (snd (run env (s, w))) = w /\
  (forall d,
     env_data env = Some d -> ConfigSchema_issues env d = [] ->
     fst (snd (run env (s, w))) = loaded (config_of_data d) environment s) /\
  (env_data env = None \/
   (exists d, env_data env = Some d /\ ConfigSchema_issues env d <> []) ->
   fst (snd (run env (s, w)))
   = match file_config env w with
     | Some c => loaded c config_file s
     | None => set_configSource not_configured s
     end).
Proof.
  destruct (env_data env) as [d|] eqn:Hd.
  - destruct (ConfigSchema_issues env d) as [|m rest] eqn:Hissues.
    + rewrite (run_env_accepted env d s w Hd Hissues). simpl.
      repeat split; [by intros d' [= <-] _|].
      intros [H|(d' & [= <-] & H)]; [done|]. by rewrite Hissues in H.
    + assert (Hne : ConfigSchema_issues env d <> []) by (by rewrite Hissues).
      rewrite (run_env_refused env d s w Hd Hne). simpl.
      repeat split. intros d' [= <-] H. by rewrite Hissues in H.
  - rewrite (env_data_none env s w Hd). simpl.
    repeat split; try done.
Qed.


(** On the sample machine started with a key and a base URL that is not a
    URL in the environment, and a valid configuration file: the file is
    used. *)
Lemma startup_resolution_witness :
  fst (snd (run (Sample.started_with (Some "k-env") (Some "not a url")
                   (fun _ => Some Sample.key_only))
              (new_server, Sample.configured_disk)))
  = loaded Sample.key_only config_file new_server.
Proof.
  apply (proj2 (proj2 (proj2
           (startup_resolution
              (Sample.started_with (Some "k-env") (Some "not a url")
                 (fun _ => Some Sample.key_only))
              new_server Sample.configured_disk)))).
  right. eexists. split; [reflexivity|]. discriminate.
Defined.

(** ** The credential and the client *)

Section Coherence.

Variable env : Env.

Lemma coherent_loaded (c : Config) (source : ConfigSource) (s : Server) :
  coherent (loaded c source s).
Proof. done. Qed.

Lemma coherent_same (a b : Sys) :
  same_credential a b -> coherent (fst a) -> coherent (fst b).
Proof. unfold coherent. intros (-> & -> & _). done. Qed.

Lemma same_credential_after_tool (name : string) (args : Arguments_) (sys : Sys) :
  name <> "configure_gemini_token" ->
  same_credential sys (snd (callTool env name args sys)).
Proof.
  intros Hname. revert sys.
  apply (after_tool env same_credential same_credential_refl same_credential_trans).
  all: try by step_cases.
  done.
Qed.

Lemma coherent_after_call (name : string) (args : Arguments_) (sys : Sys) :
  coherent (fst sys) -> coherent (fst (snd (callTool env name args sys))).
Proof.
  intros H. destruct (decide (name = "configure_gemini_token")) as [->|Hname].
  - destruct (configure_state env args sys) as [->|[c ->]]; [done|].
    apply coherent_loaded.
  - apply (coherent_same sys); [by apply same_credential_after_tool|done].
Qed.

Lemma coherent_after_run (s : Server) (w : World) :
  coherent s -> coherent (fst (snd (run env (s, w)))).
Proof.
  intros H. destruct (env_data env) as [d|] eqn:Hd.
  - destruct (ConfigSchema_issues env d) as [|m rest] eqn:Hissues.
    + rewrite (run_env_accepted env d s w Hd Hissues). apply coherent_loaded.
    + rewrite (run_env_refused env d s w Hd); [|by rewrite Hissues]. simpl.
      destruct (file_config env w); [apply coherent_loaded|done].
  - rewrite (env_data_none env s w Hd). simpl.
    destruct (file_config env w); [apply coherent_loaded|done].
Qed.

(** The whole result of a configuration that the schema accepts. *)
Lemma configure_accepted_result (o : gmap string JSValue) (s : Server) (w : World) :
  ConfigSchema_issues env (configData_of o) = [] ->
  callTool env "configure_gemini_token" (Some o) (s, w)
  = if can_write env (configPath env)
    then (Ok [TextItem
                (if truthy (prop o "baseUrl")
                 then configured_text +:+ nl +:+ "🌐 Custom base URL configured: " +:+
                      to_text (number_text env) (prop o "baseUrl")
                 else configured_text)],
          (reconfigured (accepted_config o) s,
           set_files (<[configPath env := JSON_stringify_config (accepted_config o)]>
                        (files w)) w))
    else (Throw (new_McpError InternalError
                   ("Tool execution failed: " +:+
                    fault_text env (WriteFailed (configPath env)))),
          (reconfigured (accepted_config o) s, w)).
Proof.
  intros H. unfold callTool.
  change (route env "configure_gemini_token" (Some o))
    with (configureGeminiToken env (Some o)).
  unfold configureGeminiToken, destructure. run_m.
  change {| data_geminiApiKey := prop o "apiKey";
            data_baseUrl := if truthy (prop o "baseUrl")
                            then prop o "baseUrl" else JUndefined |}
    with (configData_of o).
  rewrite (ConfigSchema_parse_accepted env o (s, w) H).
  unfold saveConfig, fs_writeFile, reconfigured. run_m.
  destruct (can_write env (configPath env)); run_m; done.
Qed.

(** The status of a server that has just been given configuration [c]. *)
Lemma status_after_configure (c : Config) (s : Server) (w : World) (args : Arguments_) :
  exists t,
    callTool env "get_configuration_status" args (reconfigured c s, w)
    = (Ok [TextItem t], (reconfigured c s, w))
    /\ includes t "Gemini API token is configured and ready to use"
    /\ includes t "Source: Local configuration file"
    /\ (forall u, baseUrl c = Some u -> u <> "" -> includes t ("Custom base URL: " +:+ u)).
Proof.
  unfold callTool, try_catch.
  change (route env "get_configuration_status" args) with (getConfigurationStatus env).
  unfold getConfigurationStatus. run_m.
  eexists. split; [reflexivity|]. repeat split.
  - apply includes_append.
    destruct (present (baseUrl c)).
    + apply includes_append. exact (includes_end "✅ " _).
    + exact (includes_end "✅ " _).
  - apply includes_prepend, includes_prepend.
    exact (includes_here "📍 " "Source: Local configuration file" _).
  - intros u Hu Hne. rewrite Hu. simpl.
    apply String.eqb_neq in Hne. rewrite Hne. simpl.
    apply includes_append.
    rewrite <- append_assoc. apply includes_prepend.
    exact (includes_end "🌐 " _).
Qed.

End Coherence.

(** X9.  The client always belongs to the stored configuration.  Either both
    are absent, or both are there and the client was built from that
    configuration's key and base URL.  This holds for a new server, and
    [run] and every call of a tool, whatever its outcome, keep it. *)
Theorem client_matches_configuration (env : Env) (s : Server) (w : World) :
  coherent new_server /\
  (coherent s ->
   coherent (fst (snd (run env (s, w)))) /\
   forall name args, coherent (fst (snd (callTool env name args (s, w))))).
Proof.
  split; [done|]. intros H. split.
  - by apply coherent_after_run.
  - intros name args. by apply (coherent_after_call env name args (s, w)).
Qed.

(** On the sample machine: after the start and a configuration with a proxy. *)
Lemma client_matches_configuration_witness :
  coherent
    (fst (snd (callTool Sample.env "configure_gemini_token"
                 (Some (<["apiKey" := JStr "k-123"]>
                        {["baseUrl" := JStr "https://proxy.example"]}))
                 (snd (run Sample.env (new_server, Sample.empty_disk)))))).
Proof.
  apply (proj2 (proj2 (client_matches_configuration Sample.env
                         (fst (snd (run Sample.env (new_server, Sample.empty_disk))))
                         (snd (snd (run Sample.env (new_server, Sample.empty_disk)))))
                  (proj1 (proj2 (client_matches_configuration Sample.env new_server
                                   Sample.empty_disk)
                            (proj1 (client_matches_configuration Sample.env new_server
                                      Sample.empty_disk)))))).
Defined.

(** X10.  A configuration that the schema accepts is stored before it is
    saved.  When the configuration file can be written, the call returns one
    text, the file holds the JSON text of the configuration, and nothing
    else changes.  When it cannot, the call fails with [InternalError] and
    no file changes, but the server keeps the new configuration, client and
    provenance all the same. *)
Theorem configure_stores_then_saves (env : Env) (o : gmap string JSValue)
    (s : Server) (w : World) :
  nonempty_string (prop o "apiKey") = true ->
  (truthy (prop o "baseUrl") = false \/
   exists u, prop o "baseUrl" = JStr u /\ valid_url env u = true) ->
  let c := accepted_config o in
  let outcome := callTool env "configure_gemini_token" (Some o) (s, w) in
  fst (snd outcome) = reconfigured c s /\
  (can_write env (configPath env) = true ->
   (exists t, fst outcome = Ok [TextItem t]) /\
   snd (snd outcome)
   = set_files (<[configPath env := JSON_stringify_config c]> (files w)) w) /\
  (can_write env (configPath env) = false ->
   fails_with InternalError outcome /\ snd (snd outcome) = w).
Proof.
  intros Hk Hu c outcome.
  assert (H : ConfigSchema_issues env (configData_of o) = [])
    by (by apply ConfigSchema_accepts).
  unfold outcome. rewrite (configure_accepted_result env o s w H).
  destruct (can_write env (configPath env)); simpl.
  - repeat split; try done. by eexists.
  - repeat split; try done. by eexists.
Qed.

(** On the read-only sample machine: the call fails and the server is
    configured. *)
Lemma configure_stores_then_saves_witness :
  let outcome :=
    callTool Sample.read_only "configure_gemini_token"
      (Some {["apiKey" := JStr "k-123"]}) (new_server, Sample.empty_disk) in
  fails_with InternalError outcome /\
  snd (snd outcome) = Sample.empty_disk /\
  configured (fst (snd outcome)) = true.
Proof.
  destruct (configure_stores_then_saves Sample.read_only {["apiKey" := JStr "k-123"]}
              new_server Sample.empty_disk)
    as (Hserver & _ & Hfail); [reflexivity | left; reflexivity |].
  destruct Hfail as [Herror Hworld]; [reflexivity|].
  split; [exact Herror|]. split; [exact Hworld|].
  simpl. rewrite Hserver. reflexivity.
Defined.

(** X11.  After a configuration that the schema accepts, whether or not it
    could be saved, [get_configuration_status] reports that the token is
    configured, names the local configuration file as the source, and shows
    the base URL when one was given. *)
Theorem status_after_configuration (env : Env) (o : gmap string JSValue)
    (sys : Sys) (args : Arguments_) :
  nonempty_string (prop o "apiKey") = true ->
  (truthy (prop o "baseUrl") = false \/
   exists u, prop o "baseUrl" = JStr u /\ valid_url env u = true) ->
  exists t,
    fst (callTool env "get_configuration_status" args
           (snd (callTool env "configure_gemini_token" (Some o) sys)))
    = Ok [TextItem t]
    /\ includes t "Gemini API token is configured and ready to use"
    /\ includes t "Source: Local configuration file"
    /\ (forall u, prop o "baseUrl" = JStr u -> u <> "" ->
        includes t ("Custom base URL: " +:+ u)).
Proof.
  intros Hk Hu.
  assert (H : ConfigSchema_issues env (configData_of o) = [])
    by (by apply ConfigSchema_accepts).
  destruct sys as [s w].
  rewrite (proj1 (configure_accepted env o s w H)).
  destruct (status_after_configure env (accepted_config o) s
              (saved env (accepted_config o) w) args) as (t & Ht & H1 & H2 & H3).
  exists t. rewrite Ht. repeat split; try done.
  intros u Hurl Hne. apply H3; [|done].
  unfold accepted_config, configData_of. simpl. rewrite Hurl. simpl.
  apply String.eqb_neq in Hne. rewrite Hne. simpl.
  apply geminiApiKey_issues_nil in Hk.
  by destruct (prop o "apiKey").
Qed.

(** On the sample machine, with a proxy. *)
Lemma status_after_configuration_witness :
  exists t,
    fst (callTool Sample.env "get_configuration_status" None
           (snd (callTool Sample.env "configure_gemini_token"
                   (Some (<["apiKey" := JStr "k-123"]>
                          {["baseUrl" := JStr "https://proxy.example"]}))
                   (new_server, Sample.empty_disk))))
    = Ok [TextItem t]
    /\ includes t "Custom base URL: https://proxy.example".
Proof.
  destruct (status_after_configuration Sample.env
              (<["apiKey" := JStr "k-123"]> {["baseUrl" := JStr "https://proxy.example"]})
              (new_server, Sample.empty_disk) None)
    as (t & Ht & _ & _ & Hurl);
    [reflexivity | right; exists "https://proxy.example"; split; reflexivity |].
  exists t. split; [exact Ht|].
  apply (Hurl "https://proxy.example"); [reflexivity|discriminate].
Defined.

(** ** Failures around the request *)

Section Failures.

Variable env : Env.

Lemma configured_true (s : Server) (client : GoogleGenAI) :
  config s <> None -> genAI s = Some client -> configured s = true.
Proof.
  intros Hc Hg. unfold configured. rewrite Hg.
  by rewrite !bool_decide_eq_true_2.
Qed.

(** A response that is not accepted is refused, and the refusal changes
    nothing. *)
Lemma validate_refuses (r : Response) :
  ~ accepted r ->
  exists text,
    forall sys, validate_response r sys = (Throw (new_McpError InternalError text), sys).
Proof.
  intros Hr. unfold validate_response.
  destruct (candidates r) as [[|c l]|] eqn:Hc; [by eexists| |by eexists].
  destruct (present (finishReason c)) eqn:Hp; simpl; [|by eexists].
  destruct (finishReason c) as [reason|] eqn:Hf; [|done]. simpl.
  destruct (String.eqb_spec reason "STOP") as [->|H1].
  { exfalso. apply Hr. exists c. unfold first_candidate. rewrite Hc. split; [done|by left]. }
  destruct (String.eqb_spec reason "MAX_TOKENS") as [->|H2].
  { exfalso. apply Hr. exists c. unfold first_candidate. rewrite Hc. split; [done|by right]. }
  by eexists.
Qed.

Lemma generate_refused_state (o : gmap string JSValue) (s : Server) (w : World)
    (client : GoogleGenAI) (r : Response) :
  config s <> None ->
  genAI s = Some client ->
  generateContent env client (requests w) (generate_request o) = Respond r ->
  ~ accepted r ->
  snd (callTool env "generate_image" (Some o) (s, w))
  = (s, set_requests (requests w ++ [(client, generate_request o)]) w).
Proof.
  intros Hc Hg Hsvc Hr. destruct (validate_refuses r Hr) as [text Hval].
  rewrite snd_callTool.
  change (route env "generate_image" (Some o)) with (generateImage env (Some o)).
  unfold generateImage, ensureConfigured, destructure, models_generateContent. run_m.
  rewrite (configured_true s client Hc Hg). run_m. rewrite Hg. run_m.
  unfold generate_request in Hsvc. rewrite Hsvc.
  unfold generate_response. run_m. by rewrite Hval.
Qed.

Lemma edit_refused_state (o : gmap string JSValue) (s : Server) (w : World)
    (client : GoogleGenAI) (ps : list RequestPart) (r : Response) :
  config s <> None ->
  genAI s = Some client ->
  fst (edit_parts env (prop o "imagePath") (prop o "prompt")
         (prop o "referenceImages") (s, w)) = Ok ps ->
  generateContent env client (requests w) (edit_request ps) = Respond r ->
  ~ accepted r ->
  snd (callTool env "edit_image" (Some o) (s, w))
  = (s, set_requests (requests w ++ [(client, edit_request ps)]) w).
Proof.
  intros Hc Hg Hparts Hsvc Hr. destruct (validate_refuses r Hr) as [text Hval].
  rewrite snd_callTool.
  change (route env "edit_image" (Some o)) with (editImage env (Some o)).
  unfold editImage, ensureConfigured, destructure. run_m.
  rewrite (configured_true s client Hc Hg). run_m.
  pose proof (edit_parts_pure env (prop o "imagePath") (prop o "prompt")
                (prop o "referenceImages") (s, w)) as Hpure.
  destruct (edit_parts env _ _ _ (s, w)) as [out sys'].
  simpl in Hparts, Hpure. subst out sys'.
  unfold models_generateContent. run_m. rewrite Hg. run_m.
  unfold edit_request in Hsvc. rewrite Hsvc. unfold edit_response. run_m.
  by rewrite Hval.
Qed.

(** [edit_parts] stops at the main image when it cannot be read. *)
Lemma edit_parts_unreadable (imagePath prompt referenceImages : JSValue) (s : Server)
    (w : World) :
  (forall p, imagePath = JStr p -> file_at w p = None) ->
  edit_parts env imagePath prompt referenceImages (s, w)
  = (Throw (JsThrown (fault_text env (ReadFailed imagePath))), (s, w)).
Proof.
  intros H. unfold edit_parts, fs_readFile. run_m.
  destruct imagePath as [| | | |p|]; run_m; try done.
  by rewrite (H p eq_refl).
Qed.

End Failures.

(** X12.  When the main image of [edit_image] cannot be read (the path has
    no readable file, or [imagePath] is absent or not a string) on a
    configured server, the call fails with [InternalError] and a message
    that starts the reason with "Failed to edit image"; no request is sent
    and nothing changes. *)
Theorem unreadable_main_image (env : Env) (o : gmap string JSValue) (s : Server)
    (w : World) :
  configured s = true ->
  (forall p, prop o "imagePath" = JStr p -> file_at w p = None) ->
  exists msg,
    callTool env "edit_image" (Some o) (s, w)
    = (Throw (McpError InternalError msg), (s, w))
    /\ includes msg "Failed to edit image: ".
Proof.
  intros Hc Hfile.
  destruct (new_McpError_includes InternalError
              ("Failed to edit image: " +:+
               fault_text env (ReadFailed (prop o "imagePath")))
              "Failed to edit image: ") as (msg & Hmsg & Hin).
  { by exists "", (fault_text env (ReadFailed (prop o "imagePath"))). }
  exists msg. split; [|exact Hin].
  unfold callTool.
  change (route env "edit_image" (Some o)) with (editImage env (Some o)).
  unfold editImage, ensureConfigured, destructure. run_m.
  rewrite Hc. run_m.
  rewrite (edit_parts_unreadable env _ _ _ s w Hfile). run_m.
  by rewrite Hmsg.
Qed.

(** On the sample machine: the path of a file that is not there, and no
    path at all. *)
Lemma unreadable_main_image_witness :
  (exists msg,
     callTool Sample.env "edit_image"
       (Some (<["imagePath" := JStr "/work/missing.png"]> {["prompt" := JStr "add a hat"]}))
       (Sample.ready, Sample.disk)
     = (Throw (McpError InternalError msg), (Sample.ready, Sample.disk))
     /\ includes msg "Failed to edit image: ")
  /\ (exists msg,
        callTool Sample.env "edit_image" (Some {["prompt" := JStr "add a hat"]})
          (Sample.ready, Sample.disk)
        = (Throw (McpError InternalError msg), (Sample.ready, Sample.disk))
        /\ includes msg "Failed to edit image: ").
Proof.
  split.
  - apply (unreadable_main_image Sample.env
             (<["imagePath" := JStr "/work/missing.png"]> {["prompt" := JStr "add a hat"]})
             Sample.ready Sample.disk); [reflexivity|].
    intros p Hp. vm_compute in Hp. inversion Hp; subst p. reflexivity.
  - apply (unreadable_main_image Sample.env {["prompt" := JStr "add a hat"]}
             Sample.ready Sample.disk); [reflexivity|].
    intros p Hp. vm_compute in Hp. discriminate Hp.
Defined.

(** X13.  A response that is refused (no candidate, no finish reason, or a
    finish reason other than [STOP] and [MAX_TOKENS]) costs one request and
    nothing else: after the failed [generate_image] or [edit_image] the
    server fields, the remembered image included, the files and the clock are
    as before, and the list of requests has the one request more. *)
Theorem refused_response_writes_nothing (env : Env) (name : string)
    (o : gmap string JSValue) (s : Server) (w : World) (r : Response) :
  receives env name o s w r ->
  ~ accepted r ->
  exists x,
    snd (callTool env name (Some o) (s, w))
    = (s, set_requests (requests w ++ [x]) w).
Proof.
  intros (Hc & client & Hg & [[-> Hsvc]|[-> (ps & Hparts & Hsvc)]]) Hr.
  - eexists. by apply (generate_refused_state env o s w client r).
  - eexists. by apply (edit_refused_state env o s w client ps r).
Qed.

(** On the sample machine, with the service whose candidate stopped for
    [SAFETY]: the remembered image and the disk stay. *)
Lemma refused_response_writes_nothing_witness :
  exists x,
    snd (callTool (Sample.runtime Sample.blocked) "generate_image"
           (Some {["prompt" := JStr "a red circle"]}) (Sample.after_image, Sample.disk))
    = (Sample.after_image, set_requests (requests Sample.disk ++ [x]) Sample.disk).
Proof.
  apply (refused_response_writes_nothing (Sample.runtime Sample.blocked) "generate_image"
           {["prompt" := JStr "a red circle"]} Sample.after_image Sample.disk
           {| candidates := Some [{| finishReason := Some "SAFETY"; content := None |}] |}).
  - split; [discriminate|]. eexists. split; [reflexivity|]. left. split; reflexivity.
  - intros (c & Hc & [H|H]); inversion Hc; subst c; discriminate H.
Defined.

(** ** What a successful generation does *)

Section Generation.

Variable env : Env.

Lemma add_text_content (p : Part) (l : Locals) :
  l_content (add_text p l) = l_content l /\
  l_savedFiles (add_text p l) = l_savedFiles l /\
  l_textContent (add_text p l) = l_textContent l +:+ default "" (part_text p).
Proof.
  unfold add_text. destruct (part_text p) as [t|]; simpl.
  - destruct (String.eqb_spec t "") as [->|Hne]; simpl; [|done].
    by rewrite append_empty_r.
  - by rewrite append_empty_r.
Qed.

(** The image item of a part is what [push_image] adds, and is there exactly
    when the part has image data. *)
Lemma image_item_some (p : Part) (d : InlineData) :
  part_inlineData p = Some d ->
  present (inline_data d) = true ->
  image_item p
  = Some (ImageItem (default "" (inline_data d))
            (if present (inline_mimeType d) then default "" (inline_mimeType d)
             else "image/png")).
Proof.
  intros Hd Hp. unfold image_item. rewrite Hd.
  destruct (inline_data d) as [data|]; simpl in *; [|done].
  destruct (String.eqb data ""); simpl in *; [done|].
  destruct (inline_mimeType d) as [m|]; simpl; [|done].
  by destruct (String.eqb m "").
Qed.

Lemma image_item_none (p : Part) :
  (forall d, part_inlineData p = Some d -> present (inline_data d) = false) ->
  image_item p = None.
Proof.
  intros H. unfold image_item. destruct (part_inlineData p) as [d|]; [|done].
  specialize (H d eq_refl). destruct (inline_data d) as [data|]; simpl in *; [|done].
  by destruct (String.eqb data "").
Qed.

(** One turn of the loop of [generateImage] that ends normally. *)
Lemma generate_part_Ok (p : Part) (l l' : Locals) (s s' : Server) (w w' : World) :
  generate_part env (getImagesDirectory env) p l (s, w) = (Ok l', (s', w')) ->
  l_textContent l' = l_textContent l +:+ default "" (part_text p) /\
  match image_item p with
  | None =>
      l_content l' = l_content l /\ l_savedFiles l' = l_savedFiles l /\
      s' = s /\ w' = w
  | Some item =>
      let path := path_join env [getImagesDirectory env;
                                 file_name env "generated" (clock w)] in
      l_content l' = l_content l ++ [item] /\
      l_savedFiles l' = l_savedFiles l ++ [path] /\
      s' = set_lastImagePath (Some path) s /\
      w' = set_files (<[path := base64_decode env (item_data item)]> (files w))
             (set_clock (S (clock w)) w)
  end.
Proof.
  destruct (add_text_content p l) as (Hc & Hs & Ht).
  unfold generate_part, new_file_path, fs_writeFile. run_m.
  destruct (part_inlineData p) as [d|] eqn:Hd.
  - destruct (present (inline_data d)) eqn:Hp; run_m.
    + rewrite (image_item_some p d Hd Hp).
      destruct (can_write env _); run_m; [|intros H; by inversion H].
      intros H. inversion H; subst; clear H. simpl. by rewrite Hc, Hs, Ht.
    + rewrite image_item_none; [|intros d' Hd'; rewrite Hd in Hd'; by inversion Hd'; subst].
      intros H. by inversion H; subst.
  - rewrite image_item_none; [|intros d' Hd'; by rewrite Hd in Hd'].
    intros H. by inversion H; subst.
Qed.

Lemma last_cons_paths (x : string) (l : list string) (s : Server) :
  match last l with
  | Some p => set_lastImagePath (Some p) (set_lastImagePath (Some x) s)
  | None => set_lastImagePath (Some x) s
  end
  = match last (x :: l) with
    | Some p => set_lastImagePath (Some p) s
    | None => s
    end.
Proof.
  destruct l as [|y l]; [done|]. rewrite last_cons_cons.
  destruct (last (y :: l)) eqn:E; [done|]. by apply last_None in E.
Qed.

(** The whole loop of [generateImage]: the images in the order of the
    parts, one file for each at the next names, the texts one after the
    other, and the last file remembered. *)
Lemma generate_loop (ps : list Part) (l l' : Locals) (s s' : Server) (w w' : World) :
  for_of ps (generate_part env (getImagesDirectory env)) l (s, w) = (Ok l', (s', w')) ->
  let items := image_items ps in
  let paths := saved_paths env "generated" (clock w) (length items) in
  l_content l' = l_content l ++ items /\
  l_savedFiles l' = l_savedFiles l ++ paths /\
  l_textContent l' = l_textContent l +:+ description ps /\
  s' = match last paths with
       | Some p => set_lastImagePath (Some p) s
       | None => s
       end /\
  w' = set_files (written env paths items (files w))
         (set_clock (clock w + length items) w).
Proof.
  revert l s w. induction ps as [|p ps IH]; intros l s w H; simpl in H.
  - inversion H; subst. simpl. rewrite !app_nil_r, append_empty_r, Nat.add_0_r.
    repeat split. by destruct w'.
  - apply bind_Ok in H as (l1 & [s1 w1] & Hpart & Hrest).
    apply generate_part_Ok in Hpart as [Htext Hpart].
    apply IH in Hrest as (Hc & Hs & Ht & Hserver & Hworld).
    unfold image_items in *. simpl.
    rewrite Ht, Htext, append_assoc.
    destruct (image_item p) as [item|]; simpl.
    + destruct Hpart as (Hc1 & Hs1 & -> & ->). simpl in *.
      rewrite Hc, Hc1, Hs, Hs1, <- !app_assoc. simpl.
      repeat split; try done.
      * rewrite Hserver. apply last_cons_paths.
      * rewrite Hworld. unfold set_files, set_clock. simpl.
        by rewrite Nat.add_succ_r.
    + destruct Hpart as (Hc1 & Hs1 & -> & ->).
      by rewrite Hc, Hc1, Hs, Hs1.
Qed.

Lemma validate_Ok (r : Response) (c : Candidate) (sys sys' : Sys) :
  validate_response r sys = (Ok c, sys') ->
  first_candidate r = Some c /\ sys' = sys.
Proof.
  unfold validate_response, first_candidate.
  destruct (candidates r) as [[|c' l]|]; try done.
  destruct (present (finishReason c')); simpl; [|done].
  match goal with |- context [if ?b then _ else _] => destruct b end; [done|].
  by intros [= -> ->].
Qed.

(** One turn of the loop of [editImage] adds the image item of the part, if
    any. *)
Lemma edit_part_content (p : Part) (l l' : Locals) (sys sys' : Sys) :
  edit_part env (getImagesDirectory env) p l sys = (Ok l', sys') ->
  l_content l' = l_content l ++ option_list (image_item p).
Proof.
  destruct (add_text_content p l) as (Hc & _ & _).
  destruct sys as [s w].
  unfold edit_part, new_file_path, fs_writeFile. run_m.
  destruct (part_inlineData p) as [d|] eqn:Hd.
  - destruct (present (inline_data d)) eqn:Hp; run_m.
    + rewrite (image_item_some p d Hd Hp).
      destruct (can_write env _); run_m; [|intros H; by inversion H].
      intros H. inversion H; subst; clear H. simpl. by rewrite Hc.
    + rewrite image_item_none; [|intros d' Hd'; rewrite Hd in Hd'; by inversion Hd'; subst].
      intros H. inversion H; subst; clear H. by rewrite app_nil_r.
  - rewrite image_item_none; [|intros d' Hd'; by rewrite Hd in Hd'].
    intros H. inversion H; subst; clear H. by rewrite app_nil_r.
Qed.

Lemma edit_loop_content (ps : list Part) (l l' : Locals) (sys sys' : Sys) :
  for_of ps (edit_part env (getImagesDirectory env)) l sys = (Ok l', sys') ->
  l_content l' = l_content l ++ image_items ps.
Proof.
  revert l sys. induction ps as [|p ps IH]; intros l sys H; simpl in H.
  - inversion H; subst. by rewrite app_nil_r.
  - apply bind_Ok in H as (l1 & sys1 & Hpart & Hrest).
    apply edit_part_content in Hpart. apply IH in Hrest.
    rewrite Hrest, Hpart, <- app_assoc. unfold image_items. simpl.
    by destruct (image_item p).
Qed.

(** A [generate_image] that returns, taken apart. *)
Lemma generateImage_Ok (o : gmap string JSValue) (s s' : Server) (w w' : World)
    (client : GoogleGenAI) (r : Response) (result : CallToolResult) :
  genAI s = Some client ->
  generateContent env client (requests w) (generate_request o) = Respond r ->
  callTool env "generate_image" (Some o) (s, w) = (Ok result, (s', w')) ->
  exists c l,
    first_candidate r = Some c /\
    for_of (parts_of c) (generate_part env (getImagesDirectory env)) no_locals
      (s, set_requests (requests w ++ [(client, generate_request o)]) w)
    = (Ok l, (s', w')) /\
    result = TextItem (generate_status env (prop o "prompt") l) :: l_content l.
Proof.
  intros Hg Hsvc H. unfold callTool, try_catch in H.
  change (route env "generate_image" (Some o)) with (generateImage env (Some o)) in H.
  destruct (generateImage env (Some o) (s, w)) as [[a|e] sys1] eqn:E;
    [|by destruct e].
  inversion H; subst; clear H.
  unfold generateImage in E.
  apply bind_Ok in E as ([|] & sys2 & Hconf & E); [|done].
  assert (sys2 = (s, w)) as ->.
  { pose proof (pure_ensureConfigured (s, w)) as Hp. by rewrite Hconf in Hp. }
  clear Hconf. simpl in E.
  apply wrapped_Ok in E.
  apply bind_Ok in E as (r' & sys3 & Hsend & E).
  cbv beta iota zeta delta [models_generateContent bind get_server get_world
                             put_world ret throw] in Hsend.
  simpl in Hsend. rewrite Hg in Hsend. simpl in Hsend.
  unfold generate_request in Hsvc. rewrite Hsvc in Hsend.
  inversion Hsend; subst r' sys3; clear Hsend.
  unfold generate_response in E.
  apply bind_Ok in E as (c & sys4 & Hval & E).
  apply validate_Ok in Hval as [Hc ->].
  apply bind_Ok in E as (? & sys5 & Hmk & E).
  pose proof (pure_mkdir env (getImagesDirectory env) (s, set_requests
                (requests w ++ [(client, generate_request o)]) w)) as Hpure.
  unfold generate_request in Hpure. rewrite Hmk in Hpure. simpl in Hpure. subst sys5.
  apply bind_Ok in E as (l & sys6 & Hloop & E).
  inversion E; subst. by exists c, l.
Qed.

End Generation.

(** The files after a series of writes: a path that is not written keeps
    its content, and when the paths differ from one another each holds what
    was written to it. *)
Lemma written_other (env : Env) (paths : list string) (items : list ContentItem)
    (files : gmap string string) (q : string) :
  q ∉ paths -> written env paths items files !! q = files !! q.
Proof.
  revert items files. induction paths as [|path paths IH]; intros items files Hq.
  - done.
  - destruct items as [|item items]; [done|].
    apply not_elem_of_cons in Hq as [Hne Hq]. simpl.
    rewrite (IH items _ Hq). by rewrite lookup_insert_ne.
Qed.

Lemma written_at (env : Env) (paths : list string) (items : list ContentItem)
    (files : gmap string string) (i : nat) (path : string) (item : ContentItem) :
  NoDup paths ->
  paths !! i = Some path ->
  items !! i = Some item ->
  written env paths items files !! path = Some (base64_decode env (item_data item)).
Proof.
  revert items files i.
  induction paths as [|path0 paths IH]; intros items files i Hnd Hp Hi; [done|].
  destruct items as [|item0 items]; [done|].
  apply NoDup_cons in Hnd as [Hnew Hnd].
  destruct i as [|i]; simpl in *.
  - inversion Hp; subst path0. inversion Hi; subst item0.
    rewrite (written_other env paths items _ path Hnew).
    by rewrite lookup_insert_eq.
  - by apply (IH items _ i).
Qed.

(** X14.  What a [generate_image] that returns has done, for the response
    [r] it received.  The result is the status text followed by one image
    item for each part of the first candidate that carries image data, in
    the order of the parts, with [image/png] where the part names no mime
    type.  The images were written, decoded, one after the other, at the
    names made from the clock; the clock advanced by the number of images;
    the remembered image is the last of these files, or the one from before
    the call when there was no image.  No other file changed.  When the names
    differ from one another, every image is in its file; nothing in the code
    makes them differ (two images of one millisecond with the same random
    part share a name), and then the later image replaces the earlier
    one. *)
Theorem generate_image_saves_every_image (env : Env) (o : gmap string JSValue)
    (s s' : Server) (w w' : World) (client : GoogleGenAI) (r : Response)
    (result : CallToolResult) :
  genAI s = Some client ->
  generateContent env client (requests w) (generate_request o) = Respond r ->
  callTool env "generate_image" (Some o) (s, w) = (Ok result, (s', w')) ->
  exists c,
    first_candidate r = Some c /\
    let items := image_items (parts_of c) in
    let paths := saved_paths env "generated" (clock w) (length items) in
    result
    = TextItem (generate_status env (prop o "prompt")
                  {| l_content := items; l_savedFiles := paths;
                     l_textContent := description (parts_of c) |}) :: items /\
    s' = match last paths with
         | Some p => set_lastImagePath (Some p) s
         | None => s
         end /\
    files w' = written env paths items (files w) /\
    clock w' = (clock w + length items)%nat /\
    (forall q, q ∉ paths -> files w' !! q = files w !! q) /\
    (NoDup paths ->
     forall i path item,
       paths !! i = Some path -> items !! i = Some item ->
       files w' !! path = Some (base64_decode env (item_data item))).
Proof.
  intros Hg Hsvc H.
  destruct (generateImage_Ok env o s s' w w' client r result Hg Hsvc H)
    as (c & l & Hc & Hloop & ->).
  exists c. split; [done|].
  apply generate_loop in Hloop as (Hcontent & Hsaved & Htext & -> & ->).
  simpl in *. destruct l as [content savedFiles textContent]. simpl in *.
  subst. repeat split; try done.
  - intros q Hq. by apply written_other.
  - intros Hnd i path item Hp Hi. by apply (written_at env _ _ _ i).
Qed.

(** On the machine that answers two images under two names: two image
    items, the second with the default mime type, each image in its file,
    and the second file remembered. *)
Lemma generate_image_saves_every_image_witness :
  let call :=
    callTool Sample.gallery "generate_image" (Some {["prompt" := JStr "two cats"]})
      (Sample.ready, Sample.empty_disk) in
  fst call
  = Ok [TextItem (generate_status Sample.gallery (JStr "two cats")
                    {| l_content := [ImageItem "Zmlyc3Q=" "image/png";
                                     ImageItem "c2Vjb25k" "image/png"];
                       l_savedFiles :=
                         ["/work/generated_imgs/generated-2025-01-02T03-04-05-678Z-0q7x2m.png";
                          "/work/generated_imgs/generated-2025-01-02T03-04-05-678Z-1q7x2m.png"];
                       l_textContent := "" |});
        ImageItem "Zmlyc3Q=" "image/png"; ImageItem "c2Vjb25k" "image/png"] /\
  lastImagePath (fst (snd call))
  = Some "/work/generated_imgs/generated-2025-01-02T03-04-05-678Z-1q7x2m.png" /\
  files (snd (snd call))
    !! "/work/generated_imgs/generated-2025-01-02T03-04-05-678Z-0q7x2m.png"
  = Some "Zmlyc3Q=" /\
  files (snd (snd call))
    !! "/work/generated_imgs/generated-2025-01-02T03-04-05-678Z-1q7x2m.png"
  = Some "c2Vjb25k".
Proof.
  intros call.
  destruct (generate_image_saves_every_image Sample.gallery
              {["prompt" := JStr "two cats"]}
              Sample.ready (fst (snd call)) Sample.empty_disk (snd (snd call))
              (client_of Sample.key_only) Sample.two_images
              [TextItem (generate_status Sample.gallery (JStr "two cats")
                    {| l_content := [ImageItem "Zmlyc3Q=" "image/png";
                                     ImageItem "c2Vjb25k" "image/png"];
                       l_savedFiles :=
                         ["/work/generated_imgs/generated-2025-01-02T03-04-05-678Z-0q7x2m.png";
                          "/work/generated_imgs/generated-2025-01-02T03-04-05-678Z-1q7x2m.png"];
                       l_textContent := "" |});
               ImageItem "Zmlyc3Q=" "image/png"; ImageItem "c2Vjb25k" "image/png"])
    as (c & Hc & _ & Hserver & _ & _ & _ & Hfiles); [reflexivity..|].
  inversion Hc; subst c; clear Hc.
  split; [reflexivity|]. split; [by rewrite Hserver|].
  assert (Hnd : NoDup (saved_paths Sample.gallery "generated" 0 2)).
  { apply NoDup_cons. split; [|apply NoDup_singleton].
    intros Hin. apply elem_of_cons in Hin as [Hin|Hin]; [discriminate Hin|].
    by apply elem_of_nil in Hin. }
  split.
  - exact (Hfiles Hnd 0%nat _ _ eq_refl eq_refl).
  - exact (Hfiles Hnd 1%nat _ _ eq_refl eq_refl).
Defined.

(** ** What a successful edit does *)

Section Editing.

Variable env : Env.

(** One turn of the loop of [editImage] that ends normally: a part with
    image data is written to a file named from the clock, which is then
    remembered; any other part leaves the server and the files as they are. *)
Lemma edit_part_Ok (p : Part) (l l' : Locals) (s s' : Server) (w w' : World) :
  edit_part env (getImagesDirectory env) p l (s, w) = (Ok l', (s', w')) ->
  match image_item p with
  | None => s' = s /\ files w' = files w
  | Some item =>
      exists n,
        s' = set_lastImagePath
               (Some (path_join env [getImagesDirectory env; file_name env "edited" n])) s /\
        files w'
        = <[path_join env [getImagesDirectory env; file_name env "edited" n]
            := base64_decode env (item_data item)]> (files w)
  end.
Proof.
  unfold edit_part, new_file_path, fs_writeFile. run_m.
  destruct (part_inlineData p) as [d|] eqn:Hd.
  - destruct (present (inline_data d)) eqn:Hp; run_m.
    + rewrite (image_item_some p d Hd Hp).
      destruct (can_write env _); run_m; [|intros H; by inversion H].
      intros H. inversion H; subst; clear H. by exists (clock w).
    + rewrite image_item_none; [|intros d' Hd'; rewrite Hd in Hd'; by inversion Hd'; subst].
      intros H. by inversion H; subst.
  - rewrite image_item_none; [|intros d' Hd'; by rewrite Hd in Hd'].
    intros H. by inversion H; subst.
Qed.

Lemma edit_loop_session (ps : list Part) (l l' : Locals) (s s' : Server) (w w' : World) :
  for_of ps (edit_part env (getImagesDirectory env)) l (s, w) = (Ok l', (s', w')) ->
  match last (image_items ps) with
  | None => s' = s /\ files w' = files w
  | Some item =>
      exists n,
        s' = set_lastImagePath
               (Some (path_join env [getImagesDirectory env; file_name env "edited" n])) s /\
        files w' !! path_join env [getImagesDirectory env; file_name env "edited" n]
        = Some (base64_decode env (item_data item))
  end.
Proof.
  revert l s w. induction ps as [|p ps IH]; intros l s w H; simpl in H.
  - by inversion H; subst.
  - apply bind_Ok in H as (l1 & [s1 w1] & Hpart & Hrest).
    apply edit_part_Ok in Hpart. apply IH in Hrest.
    unfold image_items in *.
    change (omap image_item (p :: ps))
      with (match image_item p with
            | Some y => y :: omap image_item ps
            | None => omap image_item ps
            end).
    destruct (image_item p) as [item|].
    + destruct Hpart as (n & -> & Hfiles). revert Hrest.
      destruct (omap image_item ps) as [|item' items'] eqn:Hitems.
      * rewrite last_nil, last_singleton. intros [-> Hfiles']. exists n. split; [done|].
        by rewrite Hfiles', Hfiles, lookup_insert_eq.
      * rewrite last_cons_cons.
        destruct (last (item' :: items')) as [item''|] eqn:Hlast;
          [|by apply last_None in Hlast].
        intros (n' & -> & Hfiles'). by exists n'.
    + destruct Hpart as [-> Hfiles]. revert Hrest.
      destruct (last (omap image_item ps)) as [item'|].
      * intros (n' & -> & Hfiles'). by exists n'.
      * intros [-> Hfiles']. by rewrite Hfiles'.
Qed.

(** An [edit_image] that returns, taken apart. *)
Lemma editImage_Ok (o : gmap string JSValue) (s s' : Server) (w w' : World)
    (client : GoogleGenAI) (ps : list RequestPart) (r : Response)
    (result : CallToolResult) :
  genAI s = Some client ->
  fst (edit_parts env (prop o "imagePath") (prop o "prompt")
         (prop o "referenceImages") (s, w)) = Ok ps ->
  generateContent env client (requests w) (edit_request ps) = Respond r ->
  callTool env "edit_image" (Some o) (s, w) = (Ok result, (s', w')) ->
  exists c l t,
    first_candidate r = Some c /\
    for_of (parts_of c) (edit_part env (getImagesDirectory env)) no_locals
      (s, set_requests (requests w ++ [(client, edit_request ps)]) w)
    = (Ok l, (s', w')) /\
    fst (edit_status env (prop o "imagePath") (prop o "prompt")
           (prop o "referenceImages") l (s', w')) = Ok t /\
    result = TextItem t :: l_content l.
Proof.
  intros Hg Hparts Hsvc H. unfold callTool, try_catch in H.
  change (route env "edit_image" (Some o)) with (editImage env (Some o)) in H.
  destruct (editImage env (Some o) (s, w)) as [[a|e] sys1] eqn:E;
    [|by destruct e].
  inversion H; subst; clear H.
  unfold editImage in E.
  apply bind_Ok in E as ([|] & sys2 & Hconf & E); [|done].
  assert (sys2 = (s, w)) as ->.
  { pose proof (pure_ensureConfigured (s, w)) as Hp. by rewrite Hconf in Hp. }
  clear Hconf. simpl in E.
  apply wrapped_Ok in E.
  apply bind_Ok in E as (ps' & sys3 & Hps & E).
  pose proof (edit_parts_pure env (prop o "imagePath") (prop o "prompt")
                (prop o "referenceImages") (s, w)) as Hpure.
  rewrite Hps in Hparts, Hpure. simpl in Hparts, Hpure.
  inversion Hparts; subst ps' sys3; clear Hparts.
  apply bind_Ok in E as (r' & sys4 & Hsend & E).
  cbv beta iota zeta delta [models_generateContent bind get_server get_world
                             put_world ret throw] in Hsend.
  simpl in Hsend. rewrite Hg in Hsend. simpl in Hsend.
  unfold edit_request in Hsvc. rewrite Hsvc in Hsend.
  inversion Hsend; subst r' sys4; clear Hsend.
  unfold edit_response in E.
  apply bind_Ok in E as (c & sys5 & Hval & E).
  apply validate_Ok in Hval as [Hc ->].
  apply bind_Ok in E as (? & sys6 & Hmk & E).
  pose proof (pure_mkdir env (getImagesDirectory env) (s, set_requests
                (requests w ++ [(client, edit_request ps)]) w)) as Hpure'.
  unfold edit_request in Hpure'. rewrite Hmk in Hpure'. simpl in Hpure'. subst sys6.
  apply bind_Ok in E as (l & sys7 & Hloop & E).
  apply bind_Ok in E as (t & sys8 & Hstatus & E).
  pose proof (pure_edit_status env (prop o "imagePath") (prop o "prompt")
                (prop o "referenceImages") l sys7) as Hpure''.
  rewrite Hstatus in Hpure''. simpl in Hpure''. subst sys8.
  inversion E; subst. exists c, l, t. by rewrite Hstatus.
Qed.

(** With references given as a string that is not empty, the status text
    cannot be built. *)
Lemma edit_status_string (imagePath prompt : JSValue) (refs : string) (l : Locals)
    (sys : Sys) :
  refs <> "" ->
  edit_status env imagePath prompt (JStr refs) l sys
  = (Throw (JsThrown (fault_text env MapNotFunction)), sys).
Proof.
  intros Hne. unfold edit_status, reference_list, has_items. run_m.
  apply String.eqb_neq in Hne. by rewrite Hne.
Qed.

(** On a configured server, whatever [editImage] throws has been wrapped
    by its [catch]. *)
Lemma editImage_configured (o : gmap string JSValue) (s : Server) (w : World) :
  configured s = true ->
  match fst (editImage env (Some o) (s, w)) with
  | Ok _ => True
  | Throw e => exists msg, e = McpError InternalError msg
  end.
Proof.
  intros Hc. unfold editImage, ensureConfigured, destructure. run_m.
  rewrite Hc. run_m.
  match goal with
  | |- context [let (_, _) := ?body in _] => destruct body as [[a|e] sys2]
  end; simpl; [done|]. by eexists.
Qed.

End Editing.

(** X15.  What an [edit_image] that returns has done, for the response [r]
    it received.  The result is the status text followed by one image item
    for each part of the first candidate that carries image data, in the
    order of the parts.  When there is such a part, the remembered image is
    a file of the images directory named [edited-...] that holds the
    decoded data of the last image; when there is none, the remembered
    image and the files are the ones from before the call. *)
Theorem edit_image_saves_every_image (env : Env) (o : gmap string JSValue)
    (s s' : Server) (w w' : World) (client : GoogleGenAI) (ps : list RequestPart)
    (r : Response) (result : CallToolResult) :
  genAI s = Some client ->
  fst (edit_parts env (prop o "imagePath") (prop o "prompt")
         (prop o "referenceImages") (s, w)) = Ok ps ->
  generateContent env client (requests w) (edit_request ps) = Respond r ->
  callTool env "edit_image" (Some o) (s, w) = (Ok result, (s', w')) ->
  exists c t,
    first_candidate r = Some c /\
    result = TextItem t :: image_items (parts_of c) /\
    match last (image_items (parts_of c)) with
    | None => s' = s /\ files w' = files w
    | Some item =>
        exists n,
          s' = set_lastImagePath
                 (Some (path_join env [getImagesDirectory env; file_name env "edited" n]))
                 s /\
          files w' !! path_join env [getImagesDirectory env; file_name env "edited" n]
          = Some (base64_decode env (item_data item))
    end.
Proof.
  intros Hg Hparts Hsvc H.
  destruct (editImage_Ok env o s s' w w' client ps r result Hg Hparts Hsvc H)
    as (c & l & t & Hc & Hloop & _ & ->).
  exists c, t. split; [done|]. split.
  - by rewrite (edit_loop_content env _ _ _ _ _ Hloop).
  - by apply edit_loop_session in Hloop.
Qed.

(** X16.  [referenceImages] given as a string that is not empty, instead of
    an array, makes [edit_image] on a configured server fail in every case,
    with [InternalError]: whatever the main image, the service and the disk
    do, the call never returns a result, because the status text calls
    [map] on the string. *)
Theorem string_references_always_fail (env : Env) (o : gmap string JSValue)
    (s : Server) (w : World) (refs : string) :
  configured s = true ->
  prop o "referenceImages" = JStr refs ->
  refs <> "" ->
  exists msg,
    fst (callTool env "edit_image" (Some o) (s, w)) = Throw (McpError InternalError msg).
Proof.
  intros Hc Hrefs Hne.
  unfold callTool, try_catch.
  change (route env "edit_image" (Some o)) with (editImage env (Some o)).
  destruct (editImage env (Some o) (s, w)) as [[result|e] sys1] eqn:E.
  - exfalso. unfold editImage in E.
    apply bind_Ok in E as ([|] & sys2 & Hconf & E).
    2:{ cbv beta iota zeta delta [ensureConfigured bind get_server ret] in Hconf.
        simpl in Hconf. rewrite Hc in Hconf. discriminate Hconf. }
    simpl in E. apply wrapped_Ok in E.
    apply bind_Ok in E as (ps & sys3 & _ & E).
    apply bind_Ok in E as (r & sys4 & _ & E).
    unfold edit_response in E.
    apply bind_Ok in E as (c & sys5 & _ & E).
    apply bind_Ok in E as (? & sys6 & _ & E).
    apply bind_Ok in E as (l & sys7 & _ & E).
    apply bind_Ok in E as (t & sys8 & Hstatus & E).
    rewrite Hrefs in Hstatus. by rewrite (edit_status_string env _ _ refs l sys7 Hne) in Hstatus.
  - simpl.
    pose proof (editImage_configured env o s w Hc) as Hwrapped.
    rewrite E in Hwrapped. simpl in Hwrapped.
    destruct Hwrapped as [msg ->]. by exists msg.
Qed.


(** On the sample machine: the call fails although the service answered,
    and the image of the answer has been saved and is remembered. *)
Lemma string_references_always_fail_witness :
  let outcome :=
    callTool Sample.env "edit_image"
      (Some (<["imagePath" := JStr "/work/generated_imgs/cat.png"]>
             (<["prompt" := JStr "add a hat"]>
              {["referenceImages" := JStr "/work/ref.JPG"]})))
      (Sample.ready, Sample.disk) in
  (exists msg, fst outcome = Throw (McpError InternalError msg)) /\
  lastImagePath (fst (snd outcome))
  = Some "/work/generated_imgs/edited-2025-01-02T03-04-05-678Z-k9x2mq.png" /\
  length (requests (snd (snd outcome))) = 1%nat.
Proof.
  split.
  - apply (string_references_always_fail Sample.env
             (<["imagePath" := JStr "/work/generated_imgs/cat.png"]>
              (<["prompt" := JStr "add a hat"]>
               {["referenceImages" := JStr "/work/ref.JPG"]}))
             Sample.ready Sample.disk "/work/ref.JPG");
      [reflexivity | reflexivity | discriminate].
  - split; reflexivity.
Defined.

(** On the sample machine: the edit of [cat.png] returns the image of the
    answer and remembers the file it saved. *)
Lemma edit_image_saves_every_image_witness :
  let o : gmap string JSValue :=
    <["imagePath" := JStr "/work/generated_imgs/cat.png"]> {["prompt" := JStr "add a hat"]} in
  let outcome := callTool Sample.env "edit_image" (Some o) (Sample.ready, Sample.disk) in
  exists c t,
    first_candidate Sample.one_image = Some c /\
    fst outcome = Ok (TextItem t :: image_items (parts_of c)) /\
    image_items (parts_of c) = [ImageItem "aW1n" "image/png"].
Proof.
  destruct (edit_image_saves_every_image Sample.env
              (<["imagePath" := JStr "/work/generated_imgs/cat.png"]>
               {["prompt" := JStr "add a hat"]})
              Sample.ready
              (fst (snd (callTool Sample.env "edit_image"
                           (Some (<["imagePath" := JStr "/work/generated_imgs/cat.png"]>
                                  {["prompt" := JStr "add a hat"]}))
                           (Sample.ready, Sample.disk))))
              Sample.disk
              (snd (snd (callTool Sample.env "edit_image"
                           (Some (<["imagePath" := JStr "/work/generated_imgs/cat.png"]>
                                  {["prompt" := JStr "add a hat"]}))
                           (Sample.ready, Sample.disk))))
              (client_of Sample.key_only)
              [InlinePart "CATBYTES" "image/png"; TextPart (JStr "add a hat")]
              Sample.one_image
              (match fst (callTool Sample.env "edit_image"
                            (Some (<["imagePath" := JStr "/work/generated_imgs/cat.png"]>
                                   {["prompt" := JStr "add a hat"]}))
                            (Sample.ready, Sample.disk)) with
               | Ok result => result
               | Throw _ => []
               end))
    as (c & t & Hc & Hresult & _); [reflexivity..|].
  exists c, t. split; [exact Hc|]. split.
  - rewrite <- Hresult. reflexivity.
  - inversion Hc; subst c. reflexivity.
Defined.

(** ** File names and the last image *)

Section Names.

Variable env : Env.

Lemma replace_colon_dot_length (s : string) :
  String.length (replace_colon_dot s) = String.length s.
Proof. induction s as [|c s IH]; simpl; [done|]. by rewrite IH. Qed.

(** No character of the result is a colon or a dot. *)
Lemma replace_colon_dot_clean (s : string) (i : nat) (c : ascii) :
  String.get i (replace_colon_dot s) = Some c -> c <> ":"%char /\ c <> "."%char.
Proof.
  revert i. induction s as [|x s IH]; intros i H; simpl in H; [done|].
  destruct i as [|i]; [|by apply (IH i)].
  inversion H; subst c; clear H.
  destruct (Ascii.eqb_spec x ":") as [->|H1]; simpl; [done|].
  destruct (Ascii.eqb_spec x ".") as [->|H2]; simpl; done.
Qed.

Lemma substring_length_le (n m : nat) (s : string) :
  (String.length (String.substring n m s) <= m)%nat.
Proof.
  revert n m. induction s as [|c s IH]; intros n m; simpl.
  - destruct n, m; simpl; lia.
  - destruct n as [|n].
    + destruct m as [|m]; simpl; [lia|]. specialize (IH 0%nat m). lia.
    + apply IH.
Qed.

End Names.

(** X17.  The name of a saved file.  [new_file_path] always returns, with
    the path that joins the images directory and a name made of the
    prefix, [-], the timestamp, [-], the random part and [.png], and it
    advances the clock by one.  The timestamp part has the length of the ISO
    timestamp and contains neither a colon nor a dot; the random part has at
    most six characters. *)
Theorem saved_file_name (env : Env) (dir prefix : string) (s : Server) (w : World) :
  exists timestamp randomId,
    new_file_path env dir prefix (s, w)
    = (Ok (path_join env [dir; prefix +:+ "-" +:+ timestamp +:+ "-" +:+ randomId +:+ ".png"]),
       (s, set_clock (S (clock w)) w)) /\
    String.length timestamp = String.length (iso_time env (clock w)) /\
    (forall i c, String.get i timestamp = Some c -> c <> ":"%char /\ c <> "."%char) /\
    (String.length randomId <= 6)%nat.
Proof.
  exists (replace_colon_dot (iso_time env (clock w))),
         (substring_2_8 (random36 env (clock w))).
  split; [done|]. split; [apply replace_colon_dot_length|]. split.
  - apply replace_colon_dot_clean.
  - apply substring_length_le.
Qed.


(** ** The report on the last image *)

Section Report.

Variable env : Env.

Lemma round_kb_bounds (size : Z) :
  1024 * round_kb size - 512 <= size < 1024 * round_kb size + 512.
Proof.
  unfold round_kb.
  pose proof (Z.div_mod (size + 512) 1024 ltac:(lia)) as Hdiv.
  pose proof (Z.mod_pos_bound (size + 512) 1024 ltac:(lia)) as Hmod.
  lia.
Qed.

Lemma includes_start (a b rest : string) : includes (a +:+ b +:+ rest) (a +:+ b).
Proof. exists "", rest. by rewrite append_assoc. Qed.

Lemma getLastImageInfo_found (s : Server) (w : World) (p : string) :
  lastImagePath s = Some p -> p <> "" -> exists_at w p = true ->
  getLastImageInfo env (s, w)
  = (Ok [TextItem ("📷 Last Image Information:" +:+ nl +:+ nl +:+
                   "Path: " +:+ p +:+ nl +:+
                   "File Size: " +:+ pretty (round_kb (stat_size w p)) +:+ " KB" +:+ nl +:+
                   "Last Modified: " +:+ mtime_text env p +:+ nl +:+ nl +:+
                   "💡 Use continue_editing to make further changes to this image.")],
     (s, w)).
Proof.
  intros Hp Hne Hex. apply String.eqb_neq in Hne.
  unfold getLastImageInfo, fs_access. run_m. rewrite Hp. simpl. rewrite Hne. run_m.
  by rewrite Hex.
Qed.

Lemma getLastImageInfo_gone (s : Server) (w : World) (p : string) :
  lastImagePath s = Some p -> p <> "" -> exists_at w p = false ->
  getLastImageInfo env (s, w)
  = (Ok [TextItem ("📷 Last Image Information:" +:+ nl +:+ nl +:+
                   "Path: " +:+ p +:+ nl +:+
                   "Status: ❌ File not found" +:+ nl +:+ nl +:+
                   "💡 The image file may have been moved or deleted. Please generate a new image.")],
     (s, w)).
Proof.
  intros Hp Hne Hex. apply String.eqb_neq in Hne.
  unfold getLastImageInfo, fs_access. run_m. rewrite Hp. simpl. rewrite Hne. run_m.
  by rewrite Hex.
Qed.



End Report.

(** X18.  [get_last_image_info] on a server that remembers a path: the text
    names that path; when something exists at the path it gives the size in
    kilobytes, rounded to the nearest one (a file under 512 bytes shows as
    0 KB); when nothing exists there it says that the file was not found.
    In both cases the remembered path is kept and nothing changes. *)
Theorem last_image_report (env : Env) (args : Arguments_) (s : Server) (w : World)
    (p : string) :
  lastImagePath s = Some p -> p <> "" ->
  exists t,
    callTool env "get_last_image_info" args (s, w) = (Ok [TextItem t], (s, w)) /\
    includes t ("Path: " +:+ p) /\
    (exists_at w p = true ->
     exists kb,
       includes t ("File Size: " +:+ pretty kb +:+ " KB") /\
       1024 * kb - 512 <= stat_size w p < 1024 * kb + 512) /\
    (exists_at w p = false -> includes t "File not found").
Proof.
  intros Hp Hne. unfold callTool, try_catch.
  change (route env "get_last_image_info" args) with (getLastImageInfo env).
  destruct (exists_at w p) eqn:Hex.
  - rewrite (getLastImageInfo_found env s w p Hp Hne Hex).
    eexists. split; [reflexivity|]. split; [|split; [|done]].
    + do 3 apply includes_prepend. apply includes_start.
    + intros _. exists (round_kb (stat_size w p)). split; [|apply round_kb_bounds].
      do 6 apply includes_prepend.
      exists "". eexists. rewrite !append_assoc. reflexivity.
  - rewrite (getLastImageInfo_gone env s w p Hp Hne Hex).
    eexists. split; [reflexivity|]. split; [|split; [done|]].
    + do 3 apply includes_prepend. apply includes_start.
    + intros _. do 6 apply includes_prepend.
      exact (includes_here "Status: ❌ " "File not found" _).
Qed.

(** On the sample machine: the last image of eight bytes, and the same
    server after the file was removed. *)
Lemma last_image_report_witness :
  (exists t,
     callTool Sample.env "get_last_image_info" None (Sample.after_image, Sample.disk)
     = (Ok [TextItem t], (Sample.after_image, Sample.disk))
     /\ includes t "File Size: 0 KB")
  /\ (exists t,
        callTool Sample.env "get_last_image_info" None
          (Sample.after_image, Sample.empty_disk)
        = (Ok [TextItem t], (Sample.after_image, Sample.empty_disk))
        /\ includes t "File not found").
Proof.
  split.
  - destruct (last_image_report Sample.env None Sample.after_image Sample.disk
                "/work/generated_imgs/cat.png") as (t & Ht & _ & Hsize & _);
      [reflexivity | discriminate |].
    exists t. split; [exact Ht|].
    destruct (Hsize eq_refl) as (kb & Hkb & Hbounds).
    change (stat_size Sample.disk "/work/generated_imgs/cat.png") with 8 in Hbounds.
    assert (kb = 0) as -> by lia.
    exact Hkb.
  - destruct (last_image_report Sample.env None Sample.after_image Sample.empty_disk
                "/work/generated_imgs/cat.png") as (t & Ht & _ & _ & Hgone);
      [reflexivity | discriminate |].
    exists t. split; [exact Ht|]. apply Hgone. reflexivity.
Defined.



(** ** When saving fails *)

Section Saving.

Variable env : Env.









End Saving.


